(** * svd_qr: singular values of a bidiagonal matrix by implicit QR iteration

    A shallow embedding of [tlapack::svd_qr] (file svd_qr.hpp) and the
    properties of its control flow, indexing and frame.

    The routine is a template over the scalar type and calls BLAS/LAPACK
    helpers that live in other headers ([lartg], [rot], [scal], [iamax],
    [svd22], [singularvalues22]).  The embedding is therefore parametric:
    the scalar operations and the helpers are interfaces (type classes), the
    theorems hold for every implementation of them, and a binary64 instance
    on Rocq's primitive floats is used to run the routine on concrete
    inputs.

    Two more files of the library follow the same way: [blas::her2]
    (blas/her2.hpp), the Hermitian rank-2 update, over an interface of its
    entry type and with the wrap-around of its unsigned indices written
    out; and the tile views of [tlapack::starpu::Matrix]
    (tlapack/plugins/starpu.hpp), over an interface of the StarPU calls
    they read the partition through. *)

From Stdlib Require Import Floats String.
From stdpp Require Import base decidable option list.

(** ** Results of a run

    Every index into [d], [e], [U] and [Vt] is checked: an access outside
    the array ends the run with [OutOfBounds] (in C++ it is undefined
    behaviour). *)

Inductive result (A : Type) : Type :=
  | Ok (a : A)
  | OutOfBounds.
Arguments Ok {A} a.
Arguments OutOfBounds {A}.

#[global] Instance result_ret : MRet result := fun _ a => Ok a.
#[global] Instance result_bind : MBind result := fun _ _ f m =>
  match m with
  | Ok a => f a
  | OutOfBounds => OutOfBounds
  end.

(** [Uplo] of tlapack: which triangle holds the off-diagonal. *)
Inductive Uplo : Type := Upper | Lower.

(** ** Interfaces *)

(** The operations of [real_t] that [svd_qr] uses.  [ten] is [real_t(10.0)],
    [eps] is [ulp<real_t>()], [pow2 x] is [pow(x, 2)]; [leb], [ltb] and [eqb]
    are [<=], [<] and [==]. *)
Class Scalar (R : Type) : Type := {
  zero : R;
  one : R;
  ten : R;
  eps : R;
  add : R → R → R;
  sub : R → R → R;
  mul : R → R → R;
  div : R → R → R;
  neg : R → R;
  abs : R → R;
  pow2 : R → R;
  copysign : R → R → R;
  leb : R → R → bool;
  ltb : R → R → bool;
  eqb : R → R → bool;
}.

(** The plane-rotation helpers: [lartg f g] returns [(c, s, r)];
    [svd22 f g h] returns [(ssmin, ssmax, csl, snl, csr, snr)];
    [singularvalues22 f g h] returns [(ssmin, ssmax)];
    [rot x y c s] returns the rotated pair of vectors. *)
Class Rotations (R : Type) : Type := {
  lartg : R → R → R * R * R;
  svd22 : R → R → R → R * R * R * R * R * R;
  singularvalues22 : R → R → R → R * R;
  rot : list R → list R → R → R → list R * list R;
}.

(** The level-1 helpers of the post-processing: [scal alpha x] and
    [iamax x], the index of the entry of largest magnitude. *)
Class Blas1 (R : Type) : Type := {
  scal : R → list R → list R;
  iamax : list R → nat;
}.

(** ** Arrays and matrix views *)

(** A matrix is the list of its rows. *)
Abbreviation matrix R := (list (list R)) (only parsing).

Section Arrays.
Context {R : Type}.

Definition read (l : list R) (i : nat) : result R :=
  match l !! i with
  | Some x => Ok x
  | None => OutOfBounds
  end.

Definition write (l : list R) (i : nat) (x : R) : result (list R) :=
  if decide (i < length l) then Ok (<[i:=x]> l) else OutOfBounds.

(** [slice(v, pair{i, j})] *)
Definition slice (l : list R) (i j : nat) : list R := take (j - i) (drop i l).

Definition row (M : matrix R) (i : nat) : result (list R) :=
  match M !! i with
  | Some r => Ok r
  | None => OutOfBounds
  end.

Definition set_row (M : matrix R) (i : nat) (v : list R) : matrix R :=
  <[i:=v]> M.

Fixpoint col (M : matrix R) (j : nat) : result (list R) :=
  match M with
  | [] => Ok []
  | r :: M' => x ← read r j; c ← col M' j; Ok (x :: c)
  end.

Definition set_col (M : matrix R) (j : nat) (v : list R) : matrix R :=
  zip_with (fun r x => <[j:=x]> r) M v.

(** [for (idx_t i = lo; i < lo + cnt; ++i) body] *)
Fixpoint for_range {St : Type} (lo cnt : nat) (body : nat → St → result St)
    (s : St) : result St :=
  match cnt with
  | O => Ok s
  | S cnt' => s' ← body lo s; for_range (S lo) cnt' body s'
  end.
End Arrays.

(** ** The routine

    Indices ([idx_t], unsigned) are [nat].  The code subtracts only where the
    result does not wrap: [istop >= 2] throughout the loop body, [n >= 1]
    after the quick return, [istop >= 3] in the sweeps; there the truncated
    subtraction of [nat] is the subtraction of the code.  The returned [int]
    is the natural number [istop], or 0. *)

(** The buffers and the active block [istart, istop). *)
Record state (R : Type) : Type := State {
  st_d : list R;
  st_e : list R;
  st_U : matrix R;
  st_Vt : matrix R;
  st_istart : nat;
  st_istop : nat;
}.
Arguments State {R}.
Arguments st_d {R}.
Arguments st_e {R}.
Arguments st_U {R}.
Arguments st_Vt {R}.
Arguments st_istart {R}.
Arguments st_istop {R}.

(** How the main loop ends: [return istop] on the budget check, or [break]
    when [istop <= 1]. *)
Inductive outcome (R : Type) : Type :=
  | Returned (code : nat) (s : state R)
  | Broke (s : state R).
Arguments Returned {R}.
Arguments Broke {R}.

Section Updates.
Context {R : Type} `{!Scalar R, !Rotations R}.

(** [auto u1 = col(U, i); auto u2 = col(U, j); rot(u1, u2, c, s);] *)
Definition rot_cols (M : matrix R) (i j : nat) (c s : R) : result (matrix R) :=
  u1 ← col M i; u2 ← col M j;
  let '(x, y) := rot u1 u2 c s in
  Ok (set_col (set_col M i x) j y).

(** [auto vt1 = row(Vt, i); auto vt2 = row(Vt, j); rot(vt1, vt2, c, s);] *)
Definition rot_rows (M : matrix R) (i j : nat) (c s : R) : result (matrix R) :=
  v1 ← row M i; v2 ← row M j;
  let '(x, y) := rot v1 v2 c s in
  Ok (set_row (set_row M i x) j y).
End Updates.

Section Swaps.
Context {R : Type}.

(** [tlapack::swap] on two columns, and on two rows. *)
Definition swap_cols (M : matrix R) (i j : nat) : result (matrix R) :=
  u1 ← col M i; u2 ← col M j;
  Ok (set_col (set_col M i u2) j u1).

Definition swap_rows (M : matrix R) (i j : nat) : result (matrix R) :=
  v1 ← row M i; v2 ← row M j;
  Ok (set_row (set_row M i v2) j v1).

(** [std::swap(d[i], d[j])] *)
Definition swap_entries (l : list R) (i j : nat) : result (list R) :=
  x ← read l i; y ← read l j;
  l1 ← write l i y; write l1 j x.
End Swaps.

Section SvdQr.
Context {R : Type} `{!Scalar R, !Rotations R, !Blas1 R}.
Variables (want_u want_vt : bool).

(** [const real_t tol = real_t(10.0) * eps;] *)
Definition tol : R := mul ten eps.

(** The deflation test [abs(e[i - 1]) <= tol * abs(d[i])] on the two
    entries. *)
Definition negligible (x y : R) : bool := leb (abs x) (mul tol (abs y)).

(** [if (want_u) { rot(col(U, i), col(U, i + 1), c, s); }] *)
Definition update_U (M : matrix R) (i : nat) (c s : R) : result (matrix R) :=
  if want_u then rot_cols M i (i + 1) c s else Ok M.

(** [if (want_vt) { rot(row(Vt, i), row(Vt, i + 1), c, s); }] *)
Definition update_Vt (M : matrix R) (i : nat) (c s : R) : result (matrix R) :=
  if want_vt then rot_rows M i (i + 1) c s else Ok M.

(** *** Lower to upper bidiagonal (lines 111-127) *)

Definition lower_to_upper_step (i : nat) (a : list R * list R * matrix R)
    : result (list R * list R * matrix R) :=
  let '(d, e, U) := a in
  di ← read d i; ei ← read e i;
  let '(c, s, r) := lartg di ei in
  d ← write d i r;
  di1 ← read d (i + 1);
  e ← write e i (mul s di1);
  d ← write d (i + 1) (mul c di1);
  U ← update_U U i c s;
  Ok (d, e, U).

Definition lower_to_upper (uplo : Uplo) (n : nat) (d e : list R) (U : matrix R)
    : result (list R * list R * matrix R) :=
  match uplo with
  | Lower => for_range 0 (n - 1) lower_to_upper_step (d, e, U)
  | Upper => Ok (d, e, U)
  end.

(** *** Find the active block (lines 147-154)

    [i] is the loop variable, started at [istop - 1]; the loop runs while
    [i > istart]. *)
Fixpoint find_active_block (i : nat) (s : state R) : result (state R) :=
  match i with
  | O => Ok s
  | S i' =>
      if decide (st_istart s < i) then
        x ← read (st_e s) i'; y ← read (st_d s) i;
        if negligible x y then
          e ← write (st_e s) i' zero;
          Ok (State (st_d s) e (st_U s) (st_Vt s) i (st_istop s))
        else find_active_block i' s
      else Ok s
  end.

(** *** A 2x2 block has split off (lines 164-187) *)
Definition block22 (s : state R) : result (state R) :=
  let istart := st_istart s in
  f ← read (st_d s) istart; g ← read (st_e s) istart;
  h ← read (st_d s) (istart + 1);
  let '(sigmn, sigmx, csl, snl, csr, snr) := svd22 f g h in
  d ← write (st_d s) istart sigmx;
  d ← write d (istart + 1) sigmn;
  e ← write (st_e s) istart zero;
  U ← update_U (st_U s) istart csl snl;
  Vt ← update_Vt (st_Vt s) istart csr snr;
  Ok (State d e U Vt 0 (st_istop s - 2)).

(** *** The shift (lines 195-207)

    [shift_block] reads the three arguments of the call
    [singularvalues22(d[istop - 1], e[istop - 1], d[istop], shift, temp)]. *)
Definition shift_block (d e : list R) (istop : nat) : result (R * R * R) :=
  f ← read d (istop - 1); g ← read e (istop - 1); h ← read d istop;
  Ok (f, g, h).

Definition compute_shift (s : state R) : result R :=
  x ← read (st_d s) (st_istart s);
  let sstart := abs x in
  '(f, g, h) ← shift_block (st_d s) (st_e s) (st_istop s);
  let '(shift, temp) := singularvalues22 f g h in
  Ok (if ltb zero sstart && ltb (pow2 (div shift sstart)) eps
      then zero else shift).

(** *** The zero-shift sweep (lines 209-237)

    The loop carries [cs], [sn], [oldcs] and [oldsn]. *)
Definition zero_shift_step (istart : nat) (i : nat)
    (a : state R * (R * R * R * R)) : result (state R * (R * R * R * R)) :=
  let '(s, (cs, sn, oldcs, oldsn)) := a in
  di ← read (st_d s) i; ei ← read (st_e s) i;
  let '(cs, sn, r) := lartg (mul di cs) ei in
  e ← (if decide (istart < i) then write (st_e s) (i - 1) (mul oldsn r)
       else Ok (st_e s));
  di1 ← read (st_d s) (i + 1);
  let '(oldcs, oldsn, r') := lartg (mul oldcs r) (mul di1 sn) in
  d ← write (st_d s) i r';
  U ← update_U (st_U s) i oldcs oldsn;
  Vt ← update_Vt (st_Vt s) i cs sn;
  Ok (State d e U Vt (st_istart s) (st_istop s), (cs, sn, oldcs, oldsn)).

Definition zero_shift_sweep (s : state R) : result (state R) :=
  let istart := st_istart s in
  let istop := st_istop s in
  '(s, (cs, sn, oldcs, oldsn)) ←
    for_range istart (istop - 1 - istart) (zero_shift_step istart)
      (s, (one, zero, one, zero));
  x ← read (st_d s) (istop - 1);
  let h := mul x cs in
  d ← write (st_d s) (istop - 1) (mul h oldcs);
  e ← write (st_e s) (istop - 2) (mul h oldsn);
  Ok (State d e (st_U s) (st_Vt s) (st_istart s) (st_istop s)).

(** *** The shifted sweep (lines 238-274)

    The loop carries [f] and [g]. *)
Definition shifted_step (istart istop : nat) (i : nat)
    (a : state R * (R * R)) : result (state R * (R * R)) :=
  let '(s, (f, g)) := a in
  let '(csr, snr, r) := lartg f g in
  e ← (if decide (istart < i) then write (st_e s) (i - 1) r
       else Ok (st_e s));
  di ← read (st_d s) i; ei ← read e i;
  let f := add (mul csr di) (mul snr ei) in
  e ← write e i (sub (mul csr ei) (mul snr di));
  di1 ← read (st_d s) (i + 1);
  let g := mul snr di1 in
  d ← write (st_d s) (i + 1) (mul csr di1);
  let '(csl, snl, r) := lartg f g in
  d ← write d i r;
  ei ← read e i; di1 ← read d (i + 1);
  let f := add (mul csl ei) (mul snl di1) in
  d ← write d (i + 1) (sub (mul csl di1) (mul snl ei));
  '(e, g) ← (if decide (i + 1 < istop - 1) then
               ei1 ← read e (i + 1);
               e ← write e (i + 1) (mul csl ei1);
               Ok (e, mul snl ei1)
             else Ok (e, g));
  U ← update_U (st_U s) i csl snl;
  Vt ← update_Vt (st_Vt s) i csr snr;
  Ok (State d e U Vt (st_istart s) (st_istop s), (f, g)).

Definition shifted_sweep (shift : R) (s : state R) : result (state R) :=
  let istart := st_istart s in
  let istop := st_istop s in
  d0 ← read (st_d s) istart;
  let f := mul (sub (abs d0) shift) (add (copysign one d0) (div shift d0)) in
  g ← read (st_e s) istart;
  '(s, (f, g)) ←
    for_range istart (istop - 1 - istart) (shifted_step istart istop)
      (s, (f, g));
  e ← write (st_e s) (istop - 2) f;
  Ok (State (st_d s) e (st_U s) (st_Vt s) (st_istart s) (st_istop s)).

(** *** One pass of the main loop body (lines 147-274) *)
Definition qr_sweep (s : state R) : result (state R) :=
  shift ← compute_shift s;
  if eqb shift zero then zero_shift_sweep s else shifted_sweep shift s.

Definition loop_body (s : state R) : result (state R) :=
  s ← find_active_block (st_istop s - 1) s;
  if decide (st_istart s = st_istop s - 1) then
    Ok (State (st_d s) (st_e s) (st_U s) (st_Vt s) 0 (st_istop s - 1))
  else if decide (st_istart s + 1 = st_istop s - 1) then block22 s
  else qr_sweep s.

(** *** The main loop (lines 136-275)

    [fuel] is [itmax - iter]: the budget check [iter == itmax] comes first,
    then the convergence check [istop <= 1]. *)
Fixpoint main_loop (fuel : nat) (s : state R) : result (outcome R) :=
  match fuel with
  | O => Ok (Returned (st_istop s) s)
  | S fuel' =>
      if decide (st_istop s ≤ 1) then Ok (Broke s)
      else s' ← loop_body s; main_loop fuel' s'
  end.

(** *** Post-processing (lines 277-306) *)
Definition make_positive_step (i : nat) (a : list R * matrix R)
    : result (list R * matrix R) :=
  let '(d, Vt) := a in
  x ← read d i;
  if ltb x zero then
    d ← write d i (neg x);
    Vt ← (if want_vt then
            vt1 ← row Vt i; Ok (set_row Vt i (scal (neg one) vt1))
          else Ok Vt);
    Ok (d, Vt)
  else Ok (d, Vt).

Definition sort_step (n : nat) (i : nat) (a : list R * matrix R * matrix R)
    : result (list R * matrix R * matrix R) :=
  let '(d, U, Vt) := a in
  let d2 := slice d i n in
  let imax := i + iamax d2 in
  if decide (imax ≠ i) then
    d ← swap_entries d imax i;
    U ← (if want_u then swap_cols U imax i else Ok U);
    Vt ← (if want_vt then swap_rows Vt imax i else Ok Vt);
    Ok (d, U, Vt)
  else Ok (d, U, Vt).

Definition post_process (n : nat) (d e : list R) (U Vt : matrix R)
    : result (nat * (list R * list R * matrix R * matrix R)) :=
  '(d, Vt) ← for_range 0 n make_positive_step (d, Vt);
  '(d, U, Vt) ← for_range 0 (n - 1) (sort_step n) (d, U, Vt);
  Ok (0, (d, e, U, Vt)).

(** *** svd_qr (lines 85-309)

    The result is the returned status and the four buffers on exit. *)
Definition svd_qr (uplo : Uplo) (d e : list R) (U Vt : matrix R)
    : result (nat * (list R * list R * matrix R * matrix R)) :=
  let n := length d in
  if decide (n = 0) then Ok (0, (d, e, U, Vt))
  else
    '(d, e, U) ← lower_to_upper uplo n d e U;
    let itmax := 30 * n in
    o ← main_loop itmax (State d e U Vt 0 n);
    match o with
    | Returned code s => Ok (code, (st_d s, st_e s, st_U s, st_Vt s))
    | Broke s => post_process n (st_d s) (st_e s) (st_U s) (st_Vt s)
    end.

(** [k] passes of the loop body from [s], none of them stopped by the
    convergence check: [None] when a pass starts with [istop <= 1] or runs
    out of bounds. *)
Fixpoint after_passes (k : nat) (s : state R) : option (state R) :=
  match k with
  | O => Some s
  | S k' =>
      if decide (st_istop s ≤ 1) then None
      else match loop_body s with
           | Ok s' => after_passes k' s'
           | OutOfBounds => None
           end
  end.
End SvdQr.

(** ** Reference helpers

    The level-1 helpers are not among the sources; these follow their
    contracts, over any scalar type. *)
Section Reference.
Context {R : Type} `{!Scalar R}.

(** Modelled from the spec: tlapack/blas/rot.hpp is not among the sources.
    The plane-rotation applier: [x] becomes [c*x + s*y] and [y] becomes
    [c*y - s*x], entry by entry. *)
Definition rot_ref (x y : list R) (c s : R) : list R * list R :=
  (zip_with (fun a b => add (mul c a) (mul s b)) x y,
   zip_with (fun a b => sub (mul c b) (mul s a)) x y).

(** Modelled from the spec: tlapack/blas/scal.hpp is not among the
    sources.  [x] becomes [alpha * x]. *)
Definition scal_ref (alpha : R) (x : list R) : list R := mul alpha <$> x.

(** Modelled from the spec: tlapack/blas/iamax.hpp is not among the sources.
    The index of the first entry of maximum magnitude: [best] is the index
    of the largest magnitude [bmax] among the entries before [i]. *)
Fixpoint iamax_from (x : list R) (i best : nat) (bmax : R) : nat :=
  match x with
  | [] => best
  | a :: x' =>
      if ltb bmax (abs a) then iamax_from x' (S i) i (abs a)
      else iamax_from x' (S i) best bmax
  end.

Definition iamax_ref (x : list R) : nat :=
  match x with
  | [] => 0
  | a :: x' => iamax_from x' 1 0 (abs a)
  end.
End Reference.

(** ** The binary64 instance

    [real_t = double] on Rocq's primitive floats (IEEE 754 binary64, round to
    nearest even), used to run [svd_qr] on concrete inputs. *)
Module Float64.
Open Scope float_scope.

(** [copysign(x, y)]: the magnitude of [x] with the sign bit of [y]. *)
Definition copysign_f (x y : float) : float :=
  if get_sign y then - PrimFloat.abs x else PrimFloat.abs x.

Definition fmax (x y : float) : float := if PrimFloat.ltb x y then y else x.
Definition fmin (x y : float) : float := if PrimFloat.ltb y x then y else x.

(** Modelled from the spec: [ulp<real_t>()] (tlapack/base/constants.hpp, not
    among the sources) is the unit in the last place of 1, [2^-52] for
    [double].  The other operations are those of IEEE 754 binary64;
    [pow(x, 2)] is [x * x]. *)
#[global] Instance scalar : Scalar float := {|
  zero := 0;
  one := 1;
  ten := 10;
  eps := 0x1p-52;
  add := PrimFloat.add;
  sub := PrimFloat.sub;
  mul := PrimFloat.mul;
  div := PrimFloat.div;
  neg := PrimFloat.opp;
  abs := PrimFloat.abs;
  pow2 := fun x => x * x;
  copysign := copysign_f;
  leb := PrimFloat.leb;
  ltb := PrimFloat.ltb;
  eqb := PrimFloat.eqb;
|}.

(** Modelled from the spec: tlapack/blas/lartg.hpp is not among the sources.
    The plane-rotation constructor: given [f] and [g] it returns the cosine,
    the sine and the combined magnitude [r], with [c*f + s*g = r] and
    [c*g - s*f = 0]; the cases [g = 0] and [f = 0] are exact, and [r] has the
    sign of [f].  The formulas are those of LAPACK's [lartg], without its
    rescaling of out-of-range arguments. *)
Definition lartg_f (f g : float) : float * float * float :=
  if PrimFloat.eqb g 0 then (1, 0, f)
  else if PrimFloat.eqb f 0 then (0, copysign_f 1 g, PrimFloat.abs g)
  else
    let d := sqrt (f * f + g * g) in
    let r := copysign_f d f in
    (PrimFloat.abs f / d, g / r, r).

(** Modelled from the spec: tlapack/lapack/singularvalues22.hpp is not among
    the sources.  The closed-form solver for the singular values of the
    2x2 triangular matrix [[f, g], [0, h]]; it returns [(ssmin, ssmax)].
    The formulas are those of LAPACK's [las2]. *)
Definition singularvalues22_f (f g h : float) : float * float :=
  let fa := PrimFloat.abs f in
  let ga := PrimFloat.abs g in
  let ha := PrimFloat.abs h in
  let fhmn := fmin fa ha in
  let fhmx := fmax fa ha in
  if PrimFloat.eqb fhmn 0 then
    (0, if PrimFloat.eqb fhmx 0 then ga
        else
          let mx := fmax fhmx ga in
          let mn := fmin fhmx ga in
          mx * sqrt (1 + (mn / mx) * (mn / mx)))
  else if PrimFloat.ltb ga fhmx then
    let as_ := 1 + fhmn / fhmx in
    let at_ := (fhmx - fhmn) / fhmx in
    let au := (ga / fhmx) * (ga / fhmx) in
    let c := 2 / (sqrt (as_ * as_ + au) + sqrt (at_ * at_ + au)) in
    (fhmn * c, fhmx / c)
  else
    let au := fhmx / ga in
    if PrimFloat.eqb au 0 then ((fhmn * fhmx) / ga, ga)
    else
      let as_ := 1 + fhmn / fhmx in
      let at_ := (fhmx - fhmn) / fhmx in
      let c := 1 / (sqrt (1 + (as_ * au) * (as_ * au))
                    + sqrt (1 + (at_ * au) * (at_ * au))) in
      let ssmin := (fhmn * c) * au in
      (ssmin + ssmin, ga / (c + c)).

(** Modelled from the spec: tlapack/lapack/svd22.hpp is not among the
    sources.  The closed-form SVD of the 2x2 triangular matrix
    [[f, g], [0, h]]: it returns [(ssmin, ssmax, csl, snl, csr, snr)], where
    [abs ssmax] is the larger singular value and the two rotations
    diagonalise the matrix.  The formulas are those of LAPACK's [lasv2]. *)
Definition svd22_f (f g h : float)
    : float * float * float * float * float * float :=
  let swap := PrimFloat.ltb (PrimFloat.abs f) (PrimFloat.abs h) in
  let ft := if swap then h else f in
  let ht := if swap then f else h in
  let fa := PrimFloat.abs ft in
  let ha := PrimFloat.abs ht in
  let gt := g in
  let ga := PrimFloat.abs gt in
  let '(pmax, ssmin, ssmax, clt, crt, slt, srt) :=
    if PrimFloat.eqb ga 0 then
      ((if swap then 3 else 1)%nat, ha, fa, 1, 1, 0, 0)
    else if PrimFloat.ltb fa ga && PrimFloat.ltb (fa / ga) 0x1p-52 then
      (2%nat, (if PrimFloat.ltb 1 ha then fa / (ga / ha) else (fa / ga) * ha),
       ga, 1, ft / gt, ht / gt, 1)
    else
      let pmax := (if PrimFloat.ltb fa ga then 2
                   else if swap then 3 else 1)%nat in
      let dd := fa - ha in
      let l := if PrimFloat.eqb dd fa then 1 else dd / fa in
      let m := gt / ft in
      let t := 2 - l in
      let mm := m * m in
      let tt := t * t in
      let s := sqrt (tt + mm) in
      let r := if PrimFloat.eqb l 0 then PrimFloat.abs m
               else sqrt (l * l + mm) in
      let a := 0.5 * (s + r) in
      let t := if PrimFloat.eqb mm 0 then
                 if PrimFloat.eqb l 0 then copysign_f 2 ft * copysign_f 1 gt
                 else gt / copysign_f dd ft + m / t
               else (m / (s + t) + m / (r + l)) * (1 + a) in
      let l := sqrt (t * t + 4) in
      let crt := 2 / l in
      let srt := t / l in
      (pmax, ha / a, fa * a, (crt + srt * m) / a, crt,
       (ht / ft) * srt / a, srt) in
  let '(csl, snl, csr, snr) :=
    if swap then (srt, crt, slt, clt) else (clt, slt, crt, srt) in
  let tsign :=
    match pmax with
    | 1%nat => copysign_f 1 csr * copysign_f 1 csl * copysign_f 1 f
    | 2%nat => copysign_f 1 snr * copysign_f 1 csl * copysign_f 1 g
    | _ => copysign_f 1 snr * copysign_f 1 snl * copysign_f 1 h
    end in
  (copysign_f ssmin (tsign * copysign_f 1 f * copysign_f 1 h),
   copysign_f ssmax tsign, csl, snl, csr, snr).

#[global] Instance rotations : Rotations float := {|
  lartg := lartg_f;
  svd22 := svd22_f;
  singularvalues22 := singularvalues22_f;
  rot := rot_ref;
|}.

#[global] Instance blas1 : Blas1 float := {|
  scal := scal_ref;
  iamax := iamax_ref;
|}.
End Float64.

(** ** Notions used by the properties *)

#[global] Instance result_fmap : FMap result := fun _ _ f m =>
  match m with
  | Ok a => Ok (f a)
  | OutOfBounds => OutOfBounds
  end.

Section SwapDefs.
Context {A : Type}.

(** The list with the entries at [a] and [b] exchanged. *)
Definition swap_list (a b : nat) (l : list A) : list A :=
  match l !! a, l !! b with
  | Some x, Some y => <[b:=x]> (<[a:=y]> l)
  | _, _ => l
  end.

(** A sequence of exchanges, applied from the first to the last. *)
Definition apply_swaps (sw : list (nat * nat)) (l : list A) : list A :=
  foldl (λ l p, swap_list p.1 p.2 l) l sw.
End SwapDefs.

Section Notions.
Context {R : Type} `{!Scalar R, !Blas1 R}.

(** The same state with another [U], or another [Vt]. *)
Definition put_U (U : matrix R) (s : state R) : state R :=
  State (st_d s) (st_e s) U (st_Vt s) (st_istart s) (st_istop s).

Definition put_Vt (Vt : matrix R) (s : state R) : state R :=
  State (st_d s) (st_e s) (st_U s) Vt (st_istart s) (st_istop s).

Definition outcome_map (φ : state R → state R) (o : outcome R) : outcome R :=
  match o with
  | Returned code s => Returned code (φ s)
  | Broke s => Broke (φ s)
  end.

(** The result of [svd_qr] with another [U], or another [Vt]. *)
Definition with_U (U : matrix R)
    (a : nat * (list R * list R * matrix R * matrix R))
    : nat * (list R * list R * matrix R * matrix R) :=
  let '(code, (d, e, _, Vt)) := a in (code, (d, e, U, Vt)).

Definition with_Vt (Vt : matrix R)
    (a : nat * (list R * list R * matrix R * matrix R))
    : nat * (list R * list R * matrix R * matrix R) :=
  let '(code, (d, e, U, _)) := a in (code, (d, e, U, Vt)).

(** The block boundary: [e[istart - 1]], if it exists, is exactly zero. *)
Definition boundary (s : state R) : Prop :=
  0 < st_istart s → st_e s !! (st_istart s - 1) = Some zero.

(** [s'] has the block of [s], and the off-diagonals of [s] outside
    [istart, istop - 1). *)
Definition sweep_frame (s s' : state R) : Prop :=
  st_istart s' = st_istart s ∧ st_istop s' = st_istop s
  ∧ ∀ j, j < st_istart s ∨ st_istop s - 1 ≤ j → st_e s' !! j = st_e s !! j.

(** What holds of the active block at the top of every pass. *)
Definition block_invariant (s : state R) : Prop :=
  boundary s ∧ (0 < st_istart s → st_istart s + 3 ≤ st_istop s).

(** Every off-diagonal from [istop - 1] on is zero: the singular values
    past the active block have split off. *)
Definition deflated_tail (s : state R) : Prop :=
  ∀ j x, st_istop s - 1 ≤ j → st_e s !! j = Some x → x = zero.

(** The value the sign loop leaves in place of [x]. *)
Definition made_positive (x : R) : R := if ltb x zero then neg x else x.

(** Row [i] of [Vt] scaled by [-one] wherever [d[i] < zero]. *)
Fixpoint negate_rows (d : list R) (Vt : matrix R) : matrix R :=
  match d, Vt with
  | x :: d', r :: Vt' =>
      (if ltb x zero then scal (neg one) r else r) :: negate_rows d' Vt'
  | _, _ => Vt
  end.

(** The contract of [iamax] on the non-empty vectors with entries in [T]:
    it returns the index of an entry of largest magnitude. *)
Definition iamax_contract (T : list R) : Prop :=
  ∀ l : list R, l ≠ [] → (∀ x, x ∈ l → x ∈ T) →
    ∃ m, l !! iamax l = Some m ∧ ∀ x, x ∈ l → leb (abs x) (abs m) = true.

(** [l[0] >= l[1] >= ...], with the comparison of the scalar type. *)
Definition descending (l : list R) : Prop :=
  ∀ i j x y, i < j → l !! i = Some x → l !! j = Some y → leb y x = true.

(** Every row of [U] has at least [n] columns. *)
Definition cols_ok (n : nat) (U : matrix R) : Prop :=
  Forall (λ r : list R, n ≤ length r) U.
End Notions.

(** ** Shapes of the buffers *)

Section Shapes.
Context {R : Type} `{!Scalar R}.
Variables (want_u want_vt : bool) (n : nat).

(** [U] and [Vt] have the dimensions the routine needs when it updates
    them: [n] columns in every row of [U], [n] rows in [Vt]. *)
Definition dims_ok (U Vt : matrix R) : Prop :=
  (want_u = true → cols_ok n U)
  ∧ (want_vt = true → n ≤ length Vt).

(** The buffers of a state have the lengths and dimensions of an
    [n]-by-[n] problem. *)
Definition buffers_ok (s : state R) : Prop :=
  length (st_d s) = n ∧ length (st_e s) = n - 1
  ∧ dims_ok (st_U s) (st_Vt s).

(** What a step of a sweep keeps. *)
Definition same_block (s0 s : state R) : Prop :=
  buffers_ok s ∧ st_istart s = st_istart s0 ∧ st_istop s = st_istop s0.

(** The active block at the top of a pass that follows a pass. *)
Definition inner_block (s : state R) : Prop :=
  buffers_ok s ∧ st_istop s < n
  ∧ (st_istart s < st_istop s ∨ st_istop s = 0).

(** The buffers of an outcome. *)
Definition outcome_state (o : outcome R) : state R :=
  match o with
  | Returned _ s => s
  | Broke s => s
  end.

(** The last two off-diagonals of a matrix with at least three rows both
    fail the deflation test. *)
Definition tail_coupled (d e : list R) : bool :=
  let n := length d in
  bool_decide (3 ≤ n) &&
  match e !! (n - 2), d !! (n - 1), e !! (n - 3), d !! (n - 2) with
  | Some x, Some y, Some z, Some w =>
      negb (negligible x y) && negb (negligible z w)
  | _, _, _, _ => false
  end.
End Shapes.

(** ** blas::her2: Hermitian rank-2 update (include/blas/her2.hpp)

    [her2] is a template over the entry types of [A], [x] and [y]; here the
    three are one type [T], with [Re] for [real_type<T>].  The arrays are
    separate lists ([x] and [y] are [const] and do not overlap [A]); an
    access outside a list ends the run with [OutOfBounds]. *)

(** [blas::Layout]. *)
Inductive Layout : Type := ColMajor | RowMajor.

(** The operations of the entry type that [her2] uses: [czero] is
    [scalar_t zero( 0.0 )], [ceqb] is [==]; [real] is [real( z )], [radd]
    the sum of two real parts, and [of_real] the conversion of that sum back
    to [TA] in the assignment to [A(j, j)]. *)
Class HerScalar (T Re : Type) : Type := {
  czero : T;
  cadd : T → T → T;
  cmul : T → T → T;
  conj : T → T;
  real : T → Re;
  radd : Re → Re → Re;
  of_real : Re → T;
  ceqb : T → T → bool;
}.

(** How a call ends: [blas_error_if] throws, or the body runs. *)
Inductive checked (A : Type) : Type :=
  | Thrown
  | Ran (r : result A).
Arguments Thrown {A}.
Arguments Ran {A} r.

(** Modelled from the spec: [blas::size_t] and [blas::int_t] (blas/utils.hpp
    is not among the sources) are the 64-bit unsigned and signed integers.
    A [size_t] value is a [Z] in [0, 2^64); [wrap] is the reduction that
    unsigned arithmetic applies to every result, and to an [int_t] operand
    when it meets a [size_t] one. *)
Definition wrap (z : Z) : Z := (z mod 2 ^ 64)%Z.

Section Her2.
Context {T Re : Type} `{!HerScalar T Re}.

(** [p[k]] for a [size_t] index [k]. *)
Definition at_index (p : list T) (k : Z) : result T := read p (Z.to_nat k).

(** The macro [A(i_, j_)]: the index [(i_) + (j_)*lda]. *)
Definition a_index (lda i j : nat) : Z :=
  wrap (Z.of_nat i + wrap (Z.of_nat j * Z.of_nat lda)).

(** [x[i]*tmp1 + y[i]*tmp2] *)
Definition rank2_term (xi yi tmp1 tmp2 : T) : T :=
  cadd (cmul xi tmp1) (cmul yi tmp2).

(** [A(i, j) += x[i]*tmp1 + y[i]*tmp2;] *)
Definition add_entry (A : list T) (lda i j : nat) (xi yi tmp1 tmp2 : T)
    : result (list T) :=
  a ← at_index A (a_index lda i j);
  write A (Z.to_nat (a_index lda i j)) (cadd a (rank2_term xi yi tmp1 tmp2)).

(** [A(j, j) = real( A(j, j) ) + real( x[j]*tmp1 + y[j]*tmp2 );] *)
Definition set_diagonal (A : list T) (lda j : nat) (xj yj tmp1 tmp2 : T)
    : result (list T) :=
  a ← at_index A (a_index lda j j);
  write A (Z.to_nat (a_index lda j j))
    (of_real (radd (real a) (real (rank2_term xj yj tmp1 tmp2)))).

(** [ix += incx;] on a [size_t] index and an [int_t] stride. *)
Definition advance (ix inc : Z) : Z := wrap (ix + wrap inc).

(** [(incx > 0 ? 0 : (-n + 1)*incx)] *)
Definition start_index (n : nat) (inc : Z) : Z :=
  if (0 <? inc)%Z then 0%Z
  else wrap (wrap (wrap (- Z.of_nat n) + 1) * wrap inc).

(** *** Upper triangle, unit stride (lines 106-114) *)
Definition upper_unit (n : nat) (alpha : T) (x y : list T) (lda : nat)
    (A : list T) : result (list T) :=
  for_range 0 n (λ j A,
    yj ← read y j; xj ← read x j;
    let tmp1 := cmul alpha (conj yj) in
    let tmp2 := conj (cmul alpha xj) in
    A ← for_range 0 j (λ i A,
           xi ← read x i; yi ← read y i;
           add_entry A lda i j xi yi tmp1 tmp2) A;
    set_diagonal A lda j xj yj tmp1 tmp2) A.

(** *** Upper triangle, any stride (lines 118-133)

    The outer loop carries [jx] and [jy], the inner loop [ix] and [iy]. *)
Definition upper_strided (n : nat) (alpha : T) (x : list T) (incx : Z)
    (y : list T) (incy : Z) (lda : nat) (A : list T) : result (list T) :=
  let kx := start_index n incx in
  let ky := start_index n incy in
  '(A, _) ← for_range 0 n (λ j '(A, (jx, jy)),
    yj ← at_index y jy; xj ← at_index x jx;
    let tmp1 := cmul alpha (conj yj) in
    let tmp2 := conj (cmul alpha xj) in
    '(A, _) ← for_range 0 j (λ i '(A, (ix, iy)),
                 xi ← at_index x ix; yi ← at_index y iy;
                 A ← add_entry A lda i j xi yi tmp1 tmp2;
                 Ok (A, (advance ix incx, advance iy incy)))
               (A, (kx, ky));
    A ← set_diagonal A lda j xj yj tmp1 tmp2;
    Ok (A, (advance jx incx, advance jy incy))) (A, (kx, ky));
  Ok A.

(** *** Lower triangle, unit stride (lines 140-147) *)
Definition lower_unit (n : nat) (alpha : T) (x y : list T) (lda : nat)
    (A : list T) : result (list T) :=
  for_range 0 n (λ j A,
    yj ← read y j; xj ← read x j;
    let tmp1 := cmul alpha (conj yj) in
    let tmp2 := conj (cmul alpha xj) in
    A ← set_diagonal A lda j xj yj tmp1 tmp2;
    for_range (j + 1) (n - (j + 1)) (λ i A,
      xi ← read x i; yi ← read y i;
      add_entry A lda i j xi yi tmp1 tmp2) A) A.

(** *** Lower triangle, any stride (lines 151-166)

    [ix] and [iy] start at [jx] and [jy] and advance before they are
    used. *)
Definition lower_strided (n : nat) (alpha : T) (x : list T) (incx : Z)
    (y : list T) (incy : Z) (lda : nat) (A : list T) : result (list T) :=
  let kx := start_index n incx in
  let ky := start_index n incy in
  '(A, _) ← for_range 0 n (λ j '(A, (jx, jy)),
    yj ← at_index y jy; xj ← at_index x jx;
    let tmp1 := cmul alpha (conj yj) in
    let tmp2 := conj (cmul alpha xj) in
    A ← set_diagonal A lda j xj yj tmp1 tmp2;
    '(A, _) ← for_range (j + 1) (n - (j + 1)) (λ i '(A, (ix, iy)),
                 let ix := advance ix incx in
                 let iy := advance iy incy in
                 xi ← at_index x ix; yi ← at_index y iy;
                 A ← add_entry A lda i j xi yi tmp1 tmp2;
                 Ok (A, (ix, iy)))
               (A, (jx, jy));
    Ok (A, (advance jx incx, advance jy incy))) (A, (kx, ky));
  Ok A.

(** [uplo = (uplo == Uplo::Lower ? Uplo::Upper : Uplo::Lower)] *)
Definition flip_uplo (uplo : Uplo) : Uplo :=
  match uplo with
  | Lower => Upper
  | Upper => Lower
  end.

(** The triangle the body works on (lines 97-99). *)
Definition effective_uplo (layout : Layout) (uplo : Uplo) : Uplo :=
  match layout with
  | RowMajor => flip_uplo uplo
  | ColMajor => uplo
  end.

(** *** her2 (lines 65-171)

    The result is [A] on exit.  Of the argument checks, those on [layout]
    and [uplo] hold of every value of the two enumerations and [n < 0] of no
    [size_t]; the other three are tested in the order of the code. *)
Definition her2 (layout : Layout) (uplo : Uplo) (n : nat) (alpha : T)
    (x : list T) (incx : Z) (y : list T) (incy : Z) (A : list T) (lda : nat)
    : checked (list T) :=
  if (incx =? 0)%Z then Thrown
  else if (incy =? 0)%Z then Thrown
  else if lda <? n then Thrown
  else Ran (
    if (n =? 0) || ceqb alpha czero then Ok A
    else
      match effective_uplo layout uplo with
      | Upper =>
          if (incx =? 1)%Z && (incy =? 1)%Z then upper_unit n alpha x y lda A
          else upper_strided n alpha x incx y incy lda A
      | Lower =>
          if (incx =? 1)%Z && (incy =? 1)%Z then lower_unit n alpha x y lda A
          else lower_strided n alpha x incx y incy lda A
      end).
End Her2.

(** ** Exact complex integers

    The Gaussian integers, an entry type with exact arithmetic on which
    [her2] can be run: [(a, b)] is [a + b i]. *)
Module Gauss.
Open Scope Z_scope.

#[global] Instance her_scalar : HerScalar (Z * Z) Z := {|
  czero := (0, 0);
  cadd := λ a b, (a.1 + b.1, a.2 + b.2);
  cmul := λ a b, (a.1 * b.1 - a.2 * b.2, a.1 * b.2 + a.2 * b.1);
  conj := λ a, (a.1, - a.2);
  real := λ a, a.1;
  radd := Z.add;
  of_real := λ r, (r, 0);
  ceqb := λ a b, (a.1 =? b.1) && (a.2 =? b.2);
|}.
End Gauss.

(** ** Notions used by the properties of [her2] *)

Section Her2Notions.
Context {T Re : Type} `{!HerScalar T Re}.

(** The position of the [i]-th element of an [n]-vector of stride [inc] in
    its array: [i*inc] for a positive stride, [(n - 1 - i)*(-inc)] for a
    negative one. *)
Definition stride_index (n : nat) (inc : Z) (i : nat) : Z :=
  ((if 0 <? inc then 0 else (Z.of_nat n - 1) * - inc) + Z.of_nat i * inc)%Z.

(** [xs] is the [n]-vector that [x] holds with stride [inc]. *)
Definition strided (x : list T) (inc : Z) (n : nat) (xs : list T) : Prop :=
  length xs = n
  ∧ ∀ i, i < n → x !! Z.to_nat (stride_index n inc i) = xs !! i.

(** [(i, j)] is strictly inside the triangle [uplo]. *)
Definition in_triangle (uplo : Uplo) (i j : nat) : bool :=
  match uplo with
  | Upper => i <? j
  | Lower => j <? i
  end.

(** The entry of the update at [(i, j)]:
    [x[i]*(alpha*conj(y[j])) + y[i]*conj(alpha*x[j])]. *)
Definition rank2_entry (alpha xi yi xj yj : T) : T :=
  rank2_term xi yi (cmul alpha (conj yj)) (conj (cmul alpha xj)).

(** What the update makes of the entry [a] at position [k] of the array: the
    entry of row [k mod lda] and column [k / lda]. *)
Definition her2_entry (uplo : Uplo) (alpha : T) (xs ys : list T) (lda : nat)
    (k : nat) (a : T) : T :=
  let i := k mod lda in
  let j := k / lda in
  match xs !! i, ys !! i, xs !! j, ys !! j with
  | Some xi, Some yi, Some xj, Some yj =>
      let v := rank2_entry alpha xi yi xj yj in
      if i =? j then of_real (radd (real a) (real v))
      else if in_triangle uplo i j then cadd a v
      else a
  | _, _, _, _ => a
  end.

(** The array after the update of every entry of the triangle. *)
Definition her2_ref (uplo : Uplo) (alpha : T) (xs ys : list T) (lda : nat)
    (A : list T) : list T :=
  imap (her2_entry uplo alpha xs ys lda) A.

(** The array after the update of the entries that [D] selects. *)
Definition applied (D : nat → nat → bool) (uplo : Uplo) (alpha : T)
    (xs ys : list T) (lda : nat) (A : list T) : list T :=
  imap (λ k a, if D (k mod lda) (k / lda)
               then her2_entry uplo alpha xs ys lda k a else a) A.
End Her2Notions.

(** ** Inputs of the runs of [her2] *)

Module Her2Inputs.
Open Scope Z_scope.

(** A 2-by-2 upper triangle in a 3-by-2 array, [x = (1 + i, 2)] held
    backwards with stride -2, [y = (3, -i)] with stride 1. *)
Definition A_pad : list (Z * Z) :=
  [(1, 5); (7, 7); (9, 9); (2, 1); (4, -3); (8, 8)].
Definition x_back : list (Z * Z) := [(2, 0); (6, 6); (1, 1)].
Definition x_vec : list (Z * Z) := [(1, 1); (2, 0)].
Definition y_vec : list (Z * Z) := [(3, 0); (0, -1)].
Definition alpha_1 : Z * Z := (0, 1).
End Her2Inputs.

(** ** tlapack::starpu::Matrix: views on a tiled matrix
    (include/tlapack/plugins/starpu.hpp)

    A [Matrix] is a window of [nx] by [ny] tiles, first tile [(ix, iy)], on
    a StarPU data handle.  The StarPU runtime is not part of the sources:
    the calls through which the views read the partition are an interface,
    and the theorems name the values they assume of it.  [idx_t] is
    [uint32_t]: a [Z] in [0, 2^32), with [u32] the reduction of unsigned
    arithmetic.  An [assert] and a [tlapack_check] that fail end the call
    ([AssertFailed], [CheckFailed]), and so does a remainder by zero. *)

(** The queries on a data handle: the number of children, the [i]-th child,
    [starpu_data_get_sub_data(handle, 2, i, j)], and the rows ([nx]) and
    columns ([ny]) of the matrix behind a handle. *)
Class StarpuData (handle : Type) : Type := {
  starpu_data_get_nb_children : handle → Z;
  starpu_data_get_child : handle → Z → handle;
  starpu_data_get_sub_data : handle → Z → Z → handle;
  starpu_matrix_get_nx : handle → Z;
  starpu_matrix_get_ny : handle → Z;
}.

Module Starpu.
Open Scope Z_scope.

(** [enum class Operation] (line 29) *)
Inductive Operation : Type := Assign | Add | Subtract | Multiply | Divide.

(** [to_string(Operation v)] (lines 32-47) *)
Definition to_string (v : Operation) : string :=
  match v with
  | Assign => "assign"
  | Add => "add"
  | Subtract => "subtract"
  | Multiply => "multiply"
  | Divide => "divide"
  end%string.

Definition u32 (z : Z) : Z := z mod 2 ^ 32.

(** How a call on a view ends. *)
Inductive view (A : Type) : Type :=
  | View (a : A)
  | CheckFailed
  | AssertFailed
  | DivideByZero.
Arguments View {A} a.
Arguments CheckFailed {A}.
Arguments AssertFailed {A}.
Arguments DivideByZero {A}.

(** The data members of [Matrix<T>] (lines 795-802); [Matrix<T>] and
    [Matrix<const T>] hold the same. *)
Record Matrix (H : Type) : Type := MkMatrix {
  handle : H;
  ix : Z;
  iy : Z;
  nx : Z;
  ny : Z;
}.
Arguments MkMatrix {H}.
Arguments handle {H}.
Arguments ix {H}.
Arguments iy {H}.
Arguments nx {H}.
Arguments ny {H}.

Section Views.
Context {H : Type} `{!StarpuData H}.

(** [is_partitioned()] (lines 591-594) *)
Definition is_partitioned (A : Matrix H) : bool :=
  0 <? starpu_data_get_nb_children (handle A).

(** [nblockrows()] (lines 638-642) *)
Definition nblockrows (A : Matrix H) : Z :=
  starpu_matrix_get_nx
    (if is_partitioned A then starpu_data_get_child (handle A) 0
     else handle A).

(** [nblockcols()] (lines 645-657) *)
Definition nblockcols (A : Matrix H) : Z :=
  if is_partitioned A then
    let x0 := starpu_data_get_child (handle A) 0 in
    starpu_matrix_get_ny
      (if 0 <? starpu_data_get_nb_children x0
       then starpu_data_get_child x0 0 else x0)
  else starpu_matrix_get_ny (handle A).

(** [nrows()] (lines 667-683) *)
Definition nrows (A : Matrix H) : Z :=
  let NX := u32 (starpu_data_get_nb_children (handle A)) in
  if NX <=? 1 then starpu_matrix_get_nx (handle A)
  else
    let nb := starpu_matrix_get_nx (starpu_data_get_child (handle A) 0) in
    if u32 (ix A + nx A) <? NX then u32 (nx A * nb)
    else u32 (u32 (u32 (nx A - 1) * nb)
              + starpu_matrix_get_nx
                  (starpu_data_get_child (handle A) (u32 (NX - 1)))).

(** [ncols()] (lines 690-713) *)
Definition ncols (A : Matrix H) : Z :=
  let NX := u32 (starpu_data_get_nb_children (handle A)) in
  if NX <=? 1 then starpu_matrix_get_ny (handle A)
  else
    let x0 := starpu_data_get_child (handle A) 0 in
    let NY := u32 (starpu_data_get_nb_children x0) in
    if NY <=? 1 then starpu_matrix_get_ny x0
    else
      let nb := starpu_matrix_get_ny (starpu_data_get_child x0 0) in
      if u32 (iy A + ny A) <? NY then u32 (ny A * nb)
      else u32 (u32 (u32 (ny A - 1) * nb)
                + starpu_matrix_get_ny
                    (starpu_data_get_child x0 (u32 (NY - 1)))).

(** [size(A)] (lines 833-837) *)
Definition size (A : Matrix H) : Z := u32 (nrows A * ncols A).

(** [get_tiles(ix, iy, nx, ny)] and [get_const_tiles] (lines 727-768); the
    asserts [nx >= 0], [ny >= 0], [ix >= 0] and [iy >= 0] hold of every
    [idx_t]. *)
Definition get_tiles (A : Matrix H) (ix' iy' nx' ny' : Z) : view (Matrix H) :=
  if negb (is_partitioned A) then AssertFailed
  else if negb (u32 (ix' + nx') <=? nx A) then AssertFailed
  else if negb (u32 (iy' + ny') <=? ny A) then AssertFailed
  else View (MkMatrix (handle A) (u32 (ix A + ix')) (u32 (iy A + iy'))
               nx' ny').

(** [get_tile_handle(i, j)] (lines 806-812) *)
Definition get_tile_handle (A : Matrix H) (i j : Z) : H :=
  if is_partitioned A
  then starpu_data_get_sub_data (handle A) (u32 (ix A + i)) (u32 (iy A + j))
  else handle A.

(** The tile and the position in it of the entry [(i, j)]: the body of
    [operator()(i, j)] after its asserts (lines 199-206, 256-263). *)
Definition tile_position (A : Matrix H) (i j : Z) : view (H * (Z * Z)) :=
  let mb := nblockrows A in
  let nb := nblockcols A in
  if (mb =? 0) || (nb =? 0) then DivideByZero
  else View (get_tile_handle A (i / mb) (j / nb), (i mod mb, j mod nb)).

(** [operator()(i, j)] (lines 194-207, 251-264) *)
Definition entry (A : Matrix H) (i j : Z) : view (H * (Z * Z)) :=
  if negb (i <? nrows A) then AssertFailed
  else if negb (j <? ncols A) then AssertFailed
  else tile_position A i j.

(** [operator[](i)] (lines 216-221, 273-278) *)
Definition entry_of_vector (A : Matrix H) (i : Z) : view (H * (Z * Z)) :=
  if negb ((nrows A <=? 1) || (ncols A <=? 1)) then AssertFailed
  else if 1 <? nrows A then entry A i 0 else entry A 0 i.

(** [slice(A, rows, cols)] (lines 851-907) *)
Definition slice (A : Matrix H) (rows cols : Z * Z) : view (Matrix H) :=
  let row0 := rows.1 in
  let col0 := cols.1 in
  let row1 := rows.2 in
  let col1 := cols.2 in
  let nrows' := u32 (row1 - row0) in
  let ncols' := u32 (col1 - col0) in
  let mb := nblockrows A in
  let nb := nblockcols A in
  if mb =? 0 then DivideByZero
  else if negb (row0 mod mb =? 0) then CheckFailed
  else if nb =? 0 then DivideByZero
  else if negb (col0 mod nb =? 0) then CheckFailed
  else if negb ((nrows' mod mb =? 0)
                || ((row1 =? nrows A) && (u32 (nrows' - 1) mod mb =? 0)))
  then CheckFailed
  else if negb ((ncols' mod nb =? 0)
                || ((col1 =? ncols A) && (u32 (ncols' - 1) mod nb =? 0)))
  then CheckFailed
  else
    get_tiles A (row0 / mb) (col0 / nb)
      (if nrows' =? 0 then 0 else Z.max (nrows' / mb) 1)
      (if ncols' =? 0 then 0 else Z.max (ncols' / nb) 1).

(** [slice(v, range, colIdx)] and [slice(v, rowIdx, range)]
    (lines 911-939) *)
Definition slice_col (A : Matrix H) (range : Z * Z) (colIdx : Z)
    : view (Matrix H) :=
  slice A range (colIdx, u32 (colIdx + 1)).

Definition slice_row (A : Matrix H) (rowIdx : Z) (range : Z * Z)
    : view (Matrix H) :=
  slice A (rowIdx, u32 (rowIdx + 1)) range.

(** [slice(v, range)] on a vector (lines 941-960) *)
Definition slice_vector (A : Matrix H) (range : Z * Z) : view (Matrix H) :=
  if negb ((nrows A <=? 1) || (ncols A <=? 1)) then AssertFailed
  else if 1 <? nrows A then slice A range (0, 1) else slice A (0, 1) range.

(** [col], [cols], [row] and [rows] (lines 962-1012) *)
Definition col (A : Matrix H) (colIdx : Z) : view (Matrix H) :=
  slice A (0, nrows A) (colIdx, u32 (colIdx + 1)).

Definition cols (A : Matrix H) (range : Z * Z) : view (Matrix H) :=
  slice A (0, nrows A) range.

Definition row (A : Matrix H) (rowIdx : Z) : view (Matrix H) :=
  slice A (rowIdx, u32 (rowIdx + 1)) (0, ncols A).

Definition rows (A : Matrix H) (range : Z * Z) : view (Matrix H) :=
  slice A range (0, ncols A).
End Views.
End Starpu.

(** ** A grid of tiles

    Handles with the answers of a matrix of [M] by [N] entries split into
    row blocks of [mb] rows, each split into tiles of [nb] columns, the last
    block and the last tile holding what is left; used to run the views on
    concrete inputs. *)
Module Grid.
Open Scope Z_scope.

(** The root, the row block [i], or the tile [(i, j)]. *)
Inductive node : Type :=
  | Root
  | Block (i : Z)
  | Tile (i j : Z).

Record shape : Type := Shape { M : Z; N : Z; mb : Z; nb : Z }.

(** The number of parts of [m] in pieces of [b]. *)
Definition parts (m b : Z) : Z := (m + b - 1) / b.

(** The length of the part [i]. *)
Definition part (m b i : Z) : Z := Z.min b (m - i * b).

Definition handle : Type := shape * node.

#[global] Instance starpu_data : StarpuData handle := {|
  starpu_data_get_nb_children := λ h,
    match h.2 with
    | Root => parts (M h.1) (mb h.1)
    | Block _ => parts (N h.1) (nb h.1)
    | Tile _ _ => 0
    end;
  starpu_data_get_child := λ h i,
    match h.2 with
    | Root => (h.1, Block i)
    | Block b => (h.1, Tile b i)
    | Tile _ _ => h
    end;
  starpu_data_get_sub_data := λ h i j, (h.1, Tile i j);
  starpu_matrix_get_nx := λ h,
    match h.2 with
    | Root => M h.1
    | Block i | Tile i _ => part (M h.1) (mb h.1) i
    end;
  starpu_matrix_get_ny := λ h,
    match h.2 with
    | Root | Block _ => N h.1
    | Tile _ j => part (N h.1) (nb h.1) j
    end;
|}.

(** The view of the whole matrix, as [create_grid] leaves it. *)
Definition whole (s : shape) : Starpu.Matrix handle :=
  Starpu.MkMatrix (s, Root) 0 0 (parts (M s) (mb s)) (parts (N s) (nb s)).

(** A matrix of 9 by 4 entries in tiles of 4 by 2: row blocks of 4, 4 and
    1 rows. *)
Definition grid_9x4 : shape := Shape 9 4 4 2.
End Grid.

(** ** Inputs of the binary64 runs *)

Module Inputs.
Open Scope float_scope.

(** A 4x4 upper bidiagonal matrix whose last singular value is already
    split off ([e[2] = 0]), with two choices of the other off-diagonals: the
    leading 3x3 block takes 117 zero-shift sweeps with [e_slow0], and 118
    with [e_slow1]. *)
Definition d_slow : list float := [1; 1; 1; -0x1p-30].
Definition e_slow0 : list float := [0.15625; 0.203125; 0].
Definition e_slow1 : list float := [0.265625; 0.0625; 0].

(** The 3-4-5 matrix [[3, 4], [0, 0]]. *)
Definition d_345 : list float := [3; 0].
Definition e_345 : list float := [4].

(** A diagonal matrix with one negative entry, and the identity. *)
Definition d_diag : list float := [3; -1; 2].
Definition e_diag : list float := [0; 0].
Definition I3 : matrix float := [[1; 0; 0]; [0; 1; 0]; [0; 0; 1]].

(** A 5x5 matrix that splits at both ends: the active block becomes
    [1, 4). *)
Definition d_split : list float := [1; 1; 1; 1; -0x1p-30].
Definition e_split : list float := [0; 0.15625; 0.203125; 0].

(** The ordering [d[0] >= d[1] >= ... >= d[n-1] >= 0], as a test. *)
Fixpoint sorted_nonneg (l : list float) : bool :=
  match l with
  | [] => true
  | x :: l' =>
      match l' with
      | [] => PrimFloat.leb 0 x
      | y :: _ => PrimFloat.leb y x && sorted_nonneg l'
      end
  end.
End Inputs.

(** * Properties *)

(** ** The result monad *)

Lemma bind_Ok {A B} (m : result A) (f : A → result B) (b : B) :
  m ≫= f = Ok b ↔ ∃ a, m = Ok a ∧ f a = Ok b.
Proof.
  destruct m as [a|]; simpl; split.
  - intros Hf. exists a. split; [reflexivity | exact Hf].
  - intros (a' & Ha & Hf). injection Ha as ->. exact Hf.
  - discriminate.
  - intros (a' & Ha & _). discriminate.
Qed.

Lemma read_Ok {R} (l : list R) (i : nat) (x : R) :
  read l i = Ok x ↔ l !! i = Some x.
Proof.
  unfold read. destruct (l !! i); split; intros H; congruence.
Qed.

Lemma read_lookup {R} (l : list R) (i : nat) (x : R) :
  l !! i = Some x → read l i = Ok x.
Proof. apply read_Ok. Qed.

Lemma read_out_of_bounds {R} (l : list R) (i : nat) :
  length l ≤ i → read l i = OutOfBounds.
Proof.
  intros Hi. unfold read. rewrite (lookup_ge_None_2 l i Hi). reflexivity.
Qed.

Lemma write_Ok {R} (l l' : list R) (i : nat) (x : R) :
  write l i x = Ok l' ↔ i < length l ∧ l' = <[i:=x]> l.
Proof.
  unfold write. case_decide; split; intros H'.
  - injection H' as <-. auto.
  - destruct H' as [_ ->]. reflexivity.
  - discriminate.
  - destruct H' as [? _]. lia.
Qed.

Lemma write_in_bounds {R} (l : list R) (i : nat) (x : R) :
  i < length l → write l i x = Ok (<[i:=x]> l).
Proof. intros Hi. apply write_Ok. auto. Qed.

Lemma write_length {R} (l l' : list R) (i : nat) (x : R) :
  write l i x = Ok l' → length l' = length l.
Proof. intros [_ ->]%write_Ok. apply length_insert. Qed.

(** A property kept by every pass of a counted loop holds when it ends. *)
Lemma for_range_invariant {St} (P : nat → St → Prop) (body : nat → St → result St)
    (cnt lo : nat) (s s' : St) :
  (∀ i a a', lo ≤ i < lo + cnt → P i a → body i a = Ok a' → P (S i) a') →
  P lo s → for_range lo cnt body s = Ok s' → P (lo + cnt) s'.
Proof.
  revert lo s. induction cnt as [|cnt IH]; intros lo s Hstep Hs Hrun.
  - simpl in Hrun. injection Hrun as <-. rewrite Nat.add_0_r. exact Hs.
  - simpl in Hrun. apply bind_Ok in Hrun as (a & Ha & Hrun).
    replace (lo + S cnt) with (S lo + cnt) by lia.
    apply (IH (S lo) a); [ | | exact Hrun].
    + intros i b b' Hi. apply Hstep. lia.
    + apply (Hstep lo s a); [lia | exact Hs | exact Ha].
Qed.

(** A map of the loop state that commutes with the body commutes with the
    loop. *)
Lemma for_range_commute {St} (φ : St → St) (body : nat → St → result St)
    (cnt lo : nat) (s s' : St) :
  s' = φ s →
  (∀ i a, body i (φ a) = φ <$> body i a) →
  for_range lo cnt body s' = φ <$> for_range lo cnt body s.
Proof.
  intros -> Hbody. revert lo s. induction cnt as [|cnt IH]; intros lo s; simpl.
  - reflexivity.
  - rewrite Hbody. destruct (body lo s) as [a|]; simpl; [apply IH|reflexivity].
Qed.

Section Control.
Context {R : Type} `{!Scalar R, !Rotations R, !Blas1 R}.
Variables (want_u want_vt : bool).

(** After [k] full passes the loop goes on from the state they leave. *)
Lemma main_loop_after_passes (k fuel : nat) (s s' : state R) :
  after_passes want_u want_vt k s = Some s' →
  main_loop want_u want_vt (k + fuel) s = main_loop want_u want_vt fuel s'.
Proof.
  revert s. induction k as [|k IH]; intros s Hk; simpl in *.
  - injection Hk as ->. reflexivity.
  - case_decide; [discriminate|].
    destruct (loop_body want_u want_vt s) as [s1|]; [|discriminate].
    simpl. apply IH, Hk.
Qed.

(** *** The deflation scan *)

(** The scan steps over every index whose off-diagonal is not negligible. *)
Lemma find_active_block_skip (s : state R) (i k : nat) :
  i ≤ k →
  (∀ j, i < j ≤ k → ∃ x y, st_e s !! (j - 1) = Some x ∧ st_d s !! j = Some y
                         ∧ negligible x y = false) →
  st_istart s ≤ i →
  find_active_block k s = find_active_block i s.
Proof.
  intros Hik Hskip Hstart. induction k as [|k IH].
  - replace i with 0 by lia. reflexivity.
  - destruct (decide (i = S k)) as [->|Hne]; [reflexivity|].
    rewrite <- IH by (try lia; intros j Hj; apply Hskip; lia).
    destruct (Hskip (S k)) as (x & y & Hx & Hy & Hneg); [lia|].
    simpl. rewrite decide_True by lia.
    rewrite Nat.sub_1_r in Hx. simpl in Hx.
    rewrite (read_lookup _ _ _ Hx), (read_lookup _ _ _ Hy). simpl.
    rewrite Hneg. reflexivity.
Qed.

(** Below or at [istart] the scan stops and changes nothing. *)
Lemma find_active_block_stop (s : state R) (i : nat) :
  i ≤ st_istart s → find_active_block i s = Ok s.
Proof.
  intros Hi. destruct i as [|i]; [reflexivity|].
  simpl. rewrite decide_False by lia. reflexivity.
Qed.

Lemma find_active_block_none (s : state R) (k : nat) :
  (∀ j, st_istart s < j ≤ k →
     ∃ x y, st_e s !! (j - 1) = Some x ∧ st_d s !! j = Some y
            ∧ negligible x y = false) →
  find_active_block k s = Ok s.
Proof.
  intros Hskip. destruct (decide (st_istart s ≤ k)) as [Hle|Hgt].
  - rewrite (find_active_block_skip s (st_istart s) k Hle Hskip (le_n _)).
    apply find_active_block_stop. lia.
  - apply find_active_block_stop. lia.
Qed.

(** C6: the deflation scan runs [i] from [istop - 1] down to [istart + 1];
    at the first [i] with [abs(e[i-1]) <= 10*eps*abs(d[i])] it sets [e[i-1]]
    to zero and [istart] to [i], and it changes no other off-diagonal (nor
    [d], [U], [Vt] or [istop]). *)
Theorem find_active_block_first_negligible (s : state R) (i : nat) (x y : R) :
  st_istart s < i < st_istop s →
  st_e s !! (i - 1) = Some x →
  st_d s !! i = Some y →
  leb (abs x) (mul (mul ten eps) (abs y)) = true →
  (∀ j, i < j < st_istop s →
     ∃ x' y', st_e s !! (j - 1) = Some x' ∧ st_d s !! j = Some y'
              ∧ leb (abs x') (mul (mul ten eps) (abs y')) = false) →
  ∃ e', find_active_block (st_istop s - 1) s
          = Ok (State (st_d s) e' (st_U s) (st_Vt s) i (st_istop s))
      ∧ e' !! (i - 1) = Some zero
      ∧ ∀ j, j ≠ i - 1 → e' !! j = st_e s !! j.
Proof.
  intros Hi Hx Hy Hneg Hskip. exists (<[i - 1 := zero]> (st_e s)).
  assert (i - 1 < length (st_e s)) as Hlen by (eapply lookup_lt_Some, Hx).
  split; [|split].
  - rewrite (find_active_block_skip s i (st_istop s - 1)); [|lia| |lia].
    + destruct i as [|i]; [lia|].
      replace (S i - 1) with i in * by lia. simpl.
      rewrite decide_True by lia.
      rewrite (read_lookup _ _ _ Hx), (read_lookup _ _ _ Hy). simpl.
      unfold negligible, tol. rewrite Hneg.
      rewrite write_in_bounds by exact Hlen. reflexivity.
    + intros j Hj. unfold negligible, tol. apply Hskip. lia.
  - apply list_lookup_insert_eq, Hlen.
  - intros j Hj. apply list_lookup_insert_ne. lia.
Qed.

(** *** The normaliser keeps the lengths of [d] and [e] *)

Lemma lower_to_upper_step_length (i : nat) (d e d' e' : list R)
    (U U' : matrix R) :
  lower_to_upper_step want_u i (d, e, U) = Ok (d', e', U') →
  length d' = length d ∧ length e' = length e.
Proof.
  unfold lower_to_upper_step. intros H.
  apply bind_Ok in H as (di & _ & H). apply bind_Ok in H as (ei & _ & H).
  destruct (lartg di ei) as [[c sn] r].
  apply bind_Ok in H as (da & Hda & H). apply bind_Ok in H as (di1 & _ & H).
  apply bind_Ok in H as (ea & Hea & H). apply bind_Ok in H as (db & Hdb & H).
  apply bind_Ok in H as (Ua & _ & H). injection H as <- <- <-.
  apply write_length in Hda, Hea, Hdb. split; congruence.
Qed.

Lemma lower_to_upper_length (uplo : Uplo) (n : nat) (d e d' e' : list R)
    (U U' : matrix R) :
  lower_to_upper want_u uplo n d e U = Ok (d', e', U') →
  length d' = length d ∧ length e' = length e.
Proof.
  destruct uplo; simpl.
  - intros H. injection H as <- <- <-. auto.
  - intros H.
    apply (for_range_invariant
             (λ _ a, length a.1.1 = length d ∧ length a.1.2 = length e))
      in H; [exact H | | auto].
    intros i [[da ea] Ua] [[db eb] Ub] _ [Hd He] Hstep. simpl in *.
    apply lower_to_upper_step_length in Hstep as [-> ->]. auto.
Qed.

(** C2: when [n >= 3] and the first scan finds no negligible off-diagonal,
    the block is the whole matrix ([istop = n]) and the shift is computed
    from [d[n-1]], [e[n-1]] and [d[n]]: [e[n-1]] and [d[n]] lie past the ends
    of [e] (length [n-1]) and [d] (length [n]), so the run is out of
    bounds. *)
Theorem shift_reads_past_the_end (uplo : Uplo) (d e : list R) (U Vt : matrix R)
    (d1 e1 : list R) (U1 : matrix R) :
  3 ≤ length d →
  length e = length d - 1 →
  lower_to_upper want_u uplo (length d) d e U = Ok (d1, e1, U1) →
  (∀ i, 0 < i < length d →
     ∃ x y, e1 !! (i - 1) = Some x ∧ d1 !! i = Some y
            ∧ leb (abs x) (mul (mul ten eps) (abs y)) = false) →
  e1 !! (length d - 1) = None
  ∧ d1 !! length d = None
  ∧ shift_block d1 e1 (length d) = OutOfBounds
  ∧ svd_qr want_u want_vt uplo d e U Vt = OutOfBounds.
Proof.
  intros Hn He Hlow Hscan.
  destruct (lower_to_upper_length _ _ _ _ _ _ _ _ Hlow) as [Hd1 He1].
  assert (e1 !! (length d - 1) = None) as HeN
    by (apply lookup_ge_None_2; lia).
  assert (d1 !! length d = None) as HdN by (apply lookup_ge_None_2; lia).
  assert (shift_block d1 e1 (length d) = OutOfBounds) as Hshift.
  { unfold shift_block.
    destruct (lookup_lt_is_Some_2 d1 (length d - 1)) as [f Hf]; [lia|].
    rewrite (read_lookup _ _ _ Hf). simpl.
    rewrite (read_out_of_bounds e1) by lia. reflexivity. }
  repeat split; try assumption.
  unfold svd_qr. rewrite decide_False by lia.
  rewrite Hlow. cbn [mbind result_bind].
  destruct (length d) as [|n] eqn:Hlen; [lia|].
  replace (30 * S n) with (S (30 * S n - 1)) by lia.
  cbn [main_loop st_istop]. rewrite decide_False by lia.
  unfold loop_body. cbn [st_istop st_istart].
  rewrite find_active_block_none.
  2:{ cbn [st_istart st_istop st_d st_e]. intros j Hj.
      unfold negligible, tol. apply Hscan. lia. }
  cbn [mbind result_bind st_istart st_istop].
  rewrite decide_False by lia. rewrite decide_False by lia.
  unfold qr_sweep, compute_shift. cbn [st_d st_e st_istart st_istop].
  destruct (lookup_lt_is_Some_2 d1 0) as [x0 Hx0]; [lia|].
  rewrite (read_lookup _ _ _ Hx0). cbn [mbind result_bind].
  rewrite Hshift. reflexivity.
Qed.

(** C10: with [n = 0] the routine returns 0 at once and leaves [d], [e], [U]
    and [Vt] as they were, whatever [uplo], [want_u] and [want_vt] are. *)
Theorem svd_qr_empty (uplo : Uplo) (e : list R) (U Vt : matrix R) :
  svd_qr want_u want_vt uplo [] e U Vt = Ok (0, ([], e, U, Vt)).
Proof. reflexivity. Qed.

(** C5: the budget check comes before the convergence check.  When the
    30*n-th pass of the loop body leaves [istop <= 1], the routine returns
    that [istop] (0 or 1) with the buffers as the loop left them: neither the
    sign normalisation nor the sort is run. *)
Theorem budget_check_precedes_convergence (uplo : Uplo) (d e : list R)
    (U Vt : matrix R) (d1 e1 : list R) (U1 : matrix R) (s : state R) :
  length d ≠ 0 →
  lower_to_upper want_u uplo (length d) d e U = Ok (d1, e1, U1) →
  after_passes want_u want_vt (30 * length d)
    (State d1 e1 U1 Vt 0 (length d)) = Some s →
  st_istop s ≤ 1 →
  svd_qr want_u want_vt uplo d e U Vt
    = Ok (st_istop s, (st_d s, st_e s, st_U s, st_Vt s))
  ∧ (st_istop s = 0 ∨ st_istop s = 1).
Proof.
  intros Hn Hlow Hpass Hstop. split; [|lia].
  unfold svd_qr. case_decide; [contradiction|].
  rewrite Hlow. cbn [mbind result_bind].
  pose proof (main_loop_after_passes _ 0 _ _ Hpass) as Hloop.
  rewrite Nat.add_0_r in Hloop. rewrite Hloop. reflexivity.
Qed.
End Control.


(** ** The block boundary *)

Section Boundary.
Context {R : Type} `{!Scalar R, !Rotations R, !Blas1 R}.
Variables (want_u want_vt : bool).

(** A step of the zero-shift sweep writes [e[i - 1]] only, and only when
    [i > istart]. *)
Lemma zero_shift_step_frame (ist i : nat) (s s' : state R) (cr cr' : R * R * R * R) :
  zero_shift_step want_u want_vt ist i (s, cr) = Ok (s', cr') →
  st_istart s' = st_istart s ∧ st_istop s' = st_istop s
  ∧ ∀ j, (ist < i → j ≠ i - 1) → st_e s' !! j = st_e s !! j.
Proof.
  unfold zero_shift_step. destruct cr as [[[cs sn] oldcs] oldsn]. intros H.
  apply bind_Ok in H as (di & _ & H). apply bind_Ok in H as (ei & _ & H).
  destruct (lartg (mul di cs) ei) as [[cs1 sn1] r].
  apply bind_Ok in H as (e1 & He1 & H). apply bind_Ok in H as (di1 & _ & H).
  destruct (lartg (mul oldcs r) (mul di1 sn1)) as [[oldcs1 oldsn1] r'].
  apply bind_Ok in H as (d1 & _ & H). apply bind_Ok in H as (U1 & _ & H).
  apply bind_Ok in H as (Vt1 & _ & H). injection H as <- <-. simpl.
  split; [reflexivity|]. split; [reflexivity|]. intros j Hj.
  destruct (decide (ist < i)) as [Hi|Hi].
  - apply write_Ok in He1 as [_ ->]. apply list_lookup_insert_ne. specialize (Hj Hi). lia.
  - injection He1 as ->. reflexivity.
Qed.

(** A step of the shifted sweep writes [e[i - 1]] (when [i > istart]),
    [e[i]] and [e[i + 1]] (when [i + 1 < istop - 1]), and no other
    off-diagonal. *)
Lemma shifted_step_frame (ist istop i : nat) (s s' : state R) (cr cr' : R * R) :
  shifted_step want_u want_vt ist istop i (s, cr) = Ok (s', cr') →
  st_istart s' = st_istart s ∧ st_istop s' = st_istop s
  ∧ ∀ j, (ist < i → j ≠ i - 1) → j ≠ i → (i + 1 < istop - 1 → j ≠ i + 1) →
         st_e s' !! j = st_e s !! j.
Proof.
  unfold shifted_step. destruct cr as [f g]. intros H.
  destruct (lartg f g) as [[csr snr] r].
  apply bind_Ok in H as (e1 & He1 & H). apply bind_Ok in H as (di & _ & H).
  apply bind_Ok in H as (ei & _ & H). apply bind_Ok in H as (e2 & He2 & H).
  apply bind_Ok in H as (di1 & _ & H). apply bind_Ok in H as (d1 & _ & H).
  destruct (lartg _ _) as [[csl snl] r1].
  apply bind_Ok in H as (d2 & _ & H). apply bind_Ok in H as (ei' & _ & H).
  apply bind_Ok in H as (di1' & _ & H). apply bind_Ok in H as (d3 & _ & H).
  apply bind_Ok in H as ([e3 g3] & He3 & H).
  apply bind_Ok in H as (U1 & _ & H).
  apply bind_Ok in H as (Vt1 & _ & H). injection H as <- <-. simpl.
  split; [reflexivity|]. split; [reflexivity|]. intros j Hj1 Hj2 Hj3.
  assert (e1 !! j = st_e s !! j) as <-.
  { destruct (decide (ist < i)) as [Hi|Hi].
    - apply write_Ok in He1 as [_ ->]. apply list_lookup_insert_ne. specialize (Hj1 Hi). lia.
    - injection He1 as ->. reflexivity. }
  apply write_Ok in He2 as [_ ->].
  rewrite <- (list_lookup_insert_ne e1 i j (sub (mul csr ei) (mul snr di))) by lia.
  destruct (decide (i + 1 < istop - 1)) as [Hi|Hi].
  - apply bind_Ok in He3 as (ei1 & _ & He3). apply bind_Ok in He3 as (e4 & He4 & He3).
    injection He3 as <- <-. apply write_Ok in He4 as [_ ->].
    apply list_lookup_insert_ne. specialize (Hj3 Hi). lia.
  - injection He3 as <- <-. reflexivity.
Qed.

Lemma sweep_frame_boundary (s s' : state R) :
  sweep_frame s s' → boundary s → boundary s'.
Proof.
  intros (Hst & _ & He) Hb Hpos. rewrite Hst in *.
  rewrite He by lia. apply Hb, Hpos.
Qed.

(** Any number of steps of a sweep stays within the frame. *)
Lemma zero_shift_prefix_frame (s s' : state R) (c : nat) (cr cr' : R * R * R * R) :
  st_istart s + c ≤ st_istop s - 1 →
  for_range (st_istart s) c (zero_shift_step want_u want_vt (st_istart s)) (s, cr)
    = Ok (s', cr') →
  sweep_frame s s'.
Proof.
  intros Hc Hrun.
  apply (for_range_invariant (λ _ a, sweep_frame s a.1)) in Hrun; [exact Hrun| |].
  - intros i [sa cra] [sb crb] Hi (Hst & Hsp & He) Hstep. simpl in *.
    apply zero_shift_step_frame in Hstep as (Hst' & Hsp' & He').
    split; [congruence|]. split; [congruence|].
    intros j Hj. rewrite He' by lia. apply He, Hj.
  - split; [reflexivity|]. split; reflexivity.
Qed.

Lemma shifted_prefix_frame (s s' : state R) (c : nat) (cr cr' : R * R) :
  st_istart s + c ≤ st_istop s - 1 →
  for_range (st_istart s) c
    (shifted_step want_u want_vt (st_istart s) (st_istop s)) (s, cr)
    = Ok (s', cr') →
  sweep_frame s s'.
Proof.
  intros Hc Hrun.
  apply (for_range_invariant (λ _ a, sweep_frame s a.1)) in Hrun; [exact Hrun| |].
  - intros i [sa cra] [sb crb] Hi (Hst & Hsp & He) Hstep. simpl in *.
    apply shifted_step_frame in Hstep as (Hst' & Hsp' & He').
    split; [congruence|]. split; [congruence|].
    intros j Hj. rewrite He' by lia. apply He, Hj.
  - split; [reflexivity|]. split; reflexivity.
Qed.

Lemma zero_shift_sweep_frame (s s' : state R) :
  st_istart s + 2 ≤ st_istop s →
  zero_shift_sweep want_u want_vt s = Ok s' → sweep_frame s s'.
Proof.
  intros Hsz H. unfold zero_shift_sweep in H.
  apply bind_Ok in H as ([s1 [[[cs sn] oldcs] oldsn]] & Hloop & H).
  apply zero_shift_prefix_frame in Hloop as (Hst & Hsp & He); [|lia].
  apply bind_Ok in H as (x & _ & H). apply bind_Ok in H as (d1 & _ & H).
  apply bind_Ok in H as (e1 & He1 & H). injection H as <-. 
  apply write_Ok in He1 as [_ ->].
  split; [exact Hst|]. split; [exact Hsp|]. simpl. intros j Hj.
  rewrite list_lookup_insert_ne by lia. apply He, Hj.
Qed.

Lemma shifted_sweep_frame (shift : R) (s s' : state R) :
  st_istart s + 2 ≤ st_istop s →
  shifted_sweep want_u want_vt shift s = Ok s' → sweep_frame s s'.
Proof.
  intros Hsz H. unfold shifted_sweep in H.
  apply bind_Ok in H as (d0 & _ & H). apply bind_Ok in H as (g & _ & H).
  apply bind_Ok in H as ([s1 [f1 g1]] & Hloop & H).
  apply shifted_prefix_frame in Hloop as (Hst & Hsp & He); [|lia].
  apply bind_Ok in H as (e1 & He1 & H). injection H as <-. 
  apply write_Ok in He1 as [_ ->].
  split; [exact Hst|]. split; [exact Hsp|]. simpl. intros j Hj.
  rewrite list_lookup_insert_ne by lia. apply He, Hj.
Qed.

(** So does the whole sweep, with its last write to [e[istop - 2]]. *)
Lemma qr_sweep_frame (s s' : state R) :
  st_istart s + 2 ≤ st_istop s →
  qr_sweep want_u want_vt s = Ok s' → sweep_frame s s'.
Proof.
  intros Hsz H. unfold qr_sweep in H.
  apply bind_Ok in H as (shift & _ & H).
  destruct (eqb shift zero).
  - eapply zero_shift_sweep_frame; eassumption.
  - eapply shifted_sweep_frame; eassumption.
Qed.

(** The scan sets the boundary it finds to zero, and moves [istart] up or
    not at all. *)
Lemma find_active_block_boundary (i : nat) (s s1 : state R) :
  boundary s → find_active_block i s = Ok s1 →
  boundary s1 ∧ st_istop s1 = st_istop s
  ∧ (st_istart s1 = st_istart s ∨ st_istart s < st_istart s1 ≤ i).
Proof.
  intros Hb. induction i as [|i IH]; simpl; intros H.
  - injection H as <-. auto.
  - case_decide as Hi; [|injection H as <-; auto].
    apply bind_Ok in H as (x & _ & H). apply bind_Ok in H as (y & _ & H).
    destruct (negligible x y).
    + apply bind_Ok in H as (e1 & He1 & H). injection H as <-.
      apply write_Ok in He1 as [Hlen ->]. simpl.
      split; [|split; [reflexivity|right; lia]].
      intros _. simpl. rewrite Nat.sub_0_r.
      apply list_lookup_insert_eq, Hlen.
    + destruct (IH H) as (? & ? & [?|?]); auto with lia.
Qed.

Lemma block22_istart (s s' : state R) :
  block22 want_u want_vt s = Ok s' → st_istart s' = 0.
Proof.
  unfold block22. intros H.
  apply bind_Ok in H as (f & _ & H). apply bind_Ok in H as (g & _ & H).
  apply bind_Ok in H as (h & _ & H).
  destruct (svd22 f g h) as [[[[[sigmn sigmx] csl] snl] csr] snr].
  apply bind_Ok in H as (d1 & _ & H). apply bind_Ok in H as (d2 & _ & H).
  apply bind_Ok in H as (e1 & _ & H). apply bind_Ok in H as (U1 & _ & H).
  apply bind_Ok in H as (Vt1 & _ & H). injection H as <-. reflexivity.
Qed.

(** A pass keeps the invariant: a deflation resets [istart] to 0, a sweep
    keeps the block. *)
Lemma loop_body_block_invariant (s s' : state R) :
  1 < st_istop s → block_invariant s →
  loop_body want_u want_vt s = Ok s' → block_invariant s'.
Proof.
  intros Hstop [Hb Hsz] H. unfold loop_body in H.
  apply bind_Ok in H as (s1 & Hscan & H).
  apply find_active_block_boundary in Hscan as (Hb1 & Hsp1 & Hst1); [|exact Hb].
  unfold block_invariant, boundary.
  case_decide as H1; [injection H as <-; simpl; split; intros ?; lia|].
  case_decide as H2.
  - apply block22_istart in H. split; intros ?; lia.
  - assert (st_istart s1 + 3 ≤ st_istop s1) as Hsz1 by lia.
    apply qr_sweep_frame in H as Hfr; [|lia].
    split; [eapply sweep_frame_boundary; eassumption|].
    destruct Hfr as (-> & -> & _). intros _. exact Hsz1.
Qed.

Lemma after_passes_block_invariant (k : nat) (s s' : state R) :
  block_invariant s →
  after_passes want_u want_vt k s = Some s' → block_invariant s'.
Proof.
  revert s. induction k as [|k IH]; simpl; intros s Hinv H.
  - injection H as <-. exact Hinv.
  - case_decide as Hstop; [discriminate|].
    destruct (loop_body want_u want_vt s) as [s1|] eqn:Hbody; [|discriminate].
    apply (IH s1); [|exact H].
    eapply loop_body_block_invariant; [|exact Hinv|exact Hbody]. lia.
Qed.

(** C7: at the top of every pass of the main loop [e[istart - 1]] is exactly
    zero whenever [istart > 0]; it is so after the deflation scan, after
    every step of either sweep and after the whole sweep.  The sweeps keep
    [istart] and [istop] and leave every off-diagonal outside
    [istart, istop - 1) as it was. *)
Theorem boundary_invariant (d e : list R) (U Vt : matrix R) (n k : nat)
    (s : state R) :
  after_passes want_u want_vt k (State d e U Vt 0 n) = Some s →
  boundary s
  ∧ ∀ s1, find_active_block (st_istop s - 1) s = Ok s1 →
      boundary s1
      ∧ (st_istart s1 ≠ st_istop s1 - 1 →
         st_istart s1 + 1 ≠ st_istop s1 - 1 →
         (∀ c cr s2 cr',
            st_istart s1 + c ≤ st_istop s1 - 1 →
            for_range (st_istart s1) c
              (zero_shift_step want_u want_vt (st_istart s1)) (s1, cr)
              = Ok (s2, cr') →
            sweep_frame s1 s2 ∧ boundary s2)
         ∧ (∀ c cr s2 cr',
              st_istart s1 + c ≤ st_istop s1 - 1 →
              for_range (st_istart s1) c
                (shifted_step want_u want_vt (st_istart s1) (st_istop s1))
                (s1, cr) = Ok (s2, cr') →
              sweep_frame s1 s2 ∧ boundary s2)
         ∧ ∀ s2, qr_sweep want_u want_vt s1 = Ok s2 →
             sweep_frame s1 s2 ∧ boundary s2).
Proof.
  intros Hpass.
  apply after_passes_block_invariant in Hpass as [Hb Hsz].
  2:{ split; intros Hpos; simpl in *; lia. }
  split; [exact Hb|]. intros s1 Hscan.
  apply find_active_block_boundary in Hscan as (Hb1 & Hsp1 & Hst1); [|exact Hb].
  split; [exact Hb1|]. intros H1 H2.
  split; [|split].
  - intros c cr s2 cr' Hc Hrun.
    apply zero_shift_prefix_frame in Hrun; [|exact Hc].
    split; [exact Hrun|]. eapply sweep_frame_boundary; eassumption.
  - intros c cr s2 cr' Hc Hrun.
    apply shifted_prefix_frame in Hrun; [|exact Hc].
    split; [exact Hrun|]. eapply sweep_frame_boundary; eassumption.
  - intros s2 Hrun.
    assert (sweep_frame s1 s2) as Hfr.
    { apply qr_sweep_frame; [|exact Hrun].
      lia. }
    split; [exact Hfr|]. eapply sweep_frame_boundary; eassumption.
Qed.
End Boundary.

(** ** The frame of [U] and [Vt] *)

Section Frame.
Context {R : Type} `{!Scalar R, !Rotations R, !Blas1 R}.

Ltac frame_cases :=
  unfold mbind, result_bind, fmap, result_fmap;
  repeat (simpl; first [reflexivity | case_match; simplify_eq]).

(** With [want_u = false] every part of the routine commutes with the
    replacement of [U]. *)
Lemma find_active_block_put_U (U : matrix R) (i : nat) (s : state R) :
  find_active_block i (put_U U s) = put_U U <$> find_active_block i s.
Proof.
  induction i as [|i IH]; simpl; [reflexivity|].
  case_decide; [|reflexivity].
  destruct (read (st_e s) i) as [x|]; [|reflexivity]. simpl.
  destruct (read (st_d s) (S i)) as [y|]; [|reflexivity]. simpl.
  destruct (negligible x y); [|exact IH].
  destruct (write (st_e s) i zero); reflexivity.
Qed.

Lemma block22_put_U (wvt : bool) (U : matrix R) (s : state R) :
  block22 false wvt (put_U U s) = put_U U <$> block22 false wvt s.
Proof. unfold block22, update_U. frame_cases. Qed.

Lemma zero_shift_step_put_U (wvt : bool) (U : matrix R) (ist i : nat)
    (a : state R * (R * R * R * R)) :
  zero_shift_step false wvt ist i (put_U U a.1, a.2)
  = (λ b, (put_U U b.1, b.2)) <$> zero_shift_step false wvt ist i a.
Proof.
  destruct a as [s [[[cs sn] oldcs] oldsn]].
  unfold zero_shift_step, update_U. frame_cases.
Qed.

Lemma shifted_step_put_U (wvt : bool) (U : matrix R) (ist istop i : nat)
    (a : state R * (R * R)) :
  shifted_step false wvt ist istop i (put_U U a.1, a.2)
  = (λ b, (put_U U b.1, b.2)) <$> shifted_step false wvt ist istop i a.
Proof.
  destruct a as [s [f g]].
  unfold shifted_step, update_U. frame_cases.
Qed.

Lemma zero_shift_sweep_put_U (wvt : bool) (U : matrix R) (s : state R) :
  zero_shift_sweep false wvt (put_U U s) = put_U U <$> zero_shift_sweep false wvt s.
Proof.
  unfold zero_shift_sweep. cbn [put_U st_istart st_istop].
  match goal with |- context [for_range ?lo ?cnt ?body (_, ?c)] =>
    assert (for_range lo cnt body (put_U U s, c)
            = (λ b, (put_U U b.1, b.2)) <$> for_range lo cnt body (s, c))
      as -> by (apply (for_range_commute (λ b, (put_U U b.1, b.2))
                         body cnt lo (s, c) _ eq_refl);
                intros; apply zero_shift_step_put_U)
  end.
  destruct (for_range _ _ _ _) as [[s1 [[[cs sn] oldcs] oldsn]]|];
    [|reflexivity].
  frame_cases.
Qed.

Lemma shifted_sweep_put_U (wvt : bool) (shift : R) (U : matrix R) (s : state R) :
  shifted_sweep false wvt shift (put_U U s)
  = put_U U <$> shifted_sweep false wvt shift s.
Proof.
  unfold shifted_sweep. cbn [put_U st_istart st_istop st_d st_e].
  destruct (read (st_d s) (st_istart s)) as [d0|]; [|reflexivity].
  destruct (read (st_e s) (st_istart s)) as [g|]; [|reflexivity].
  cbn [mbind result_bind].
  match goal with |- context [for_range ?lo ?cnt ?body (_, ?c)] =>
    assert (for_range lo cnt body (put_U U s, c)
            = (λ b, (put_U U b.1, b.2)) <$> for_range lo cnt body (s, c))
      as -> by (apply (for_range_commute (λ b, (put_U U b.1, b.2))
                         body cnt lo (s, c) _ eq_refl);
                intros; apply shifted_step_put_U)
  end.
  destruct (for_range _ _ _ _) as [[s1 [f1 g1]]|]; [|reflexivity].
  frame_cases.
Qed.

Lemma loop_body_put_U (wvt : bool) (U : matrix R) (s : state R) :
  loop_body false wvt (put_U U s) = put_U U <$> loop_body false wvt s.
Proof.
  unfold loop_body. cbn [put_U st_istop].
  rewrite (find_active_block_put_U U).
  destruct (find_active_block _ s) as [s1|]; [|reflexivity].
  cbn [fmap result_fmap mbind result_bind put_U st_istart st_istop].
  case_decide; [reflexivity|]. case_decide; [apply block22_put_U|].
  unfold qr_sweep, compute_shift. cbn [put_U st_d st_e st_istart st_istop].
  destruct (read (st_d s1) (st_istart s1)) as [x|]; [|reflexivity].
  cbn [mbind result_bind].
  destruct (shift_block _ _ _) as [[[f g] h]|]; [|reflexivity].
  cbn [mbind result_bind].
  destruct (singularvalues22 f g h) as [shift temp].
  cbn [mbind result_bind].
  case_match; [apply zero_shift_sweep_put_U|apply shifted_sweep_put_U].
Qed.

Lemma main_loop_put_U (wvt : bool) (U : matrix R) (fuel : nat) (s : state R) :
  main_loop false wvt fuel (put_U U s)
  = outcome_map (put_U U) <$> main_loop false wvt fuel s.
Proof.
  revert s. induction fuel as [|fuel IH]; intros s; simpl; [reflexivity|].
  case_decide; [reflexivity|].
  rewrite loop_body_put_U.
  destruct (loop_body false wvt s) as [s1|]; [apply IH|reflexivity].
Qed.

Lemma lower_to_upper_put_U (uplo : Uplo) (n : nat) (d e : list R)
    (U U' : matrix R) :
  lower_to_upper false uplo n d e U
  = (λ a, (a.1, U)) <$> lower_to_upper false uplo n d e U'.
Proof.
  destruct uplo; [reflexivity|]. unfold lower_to_upper.
  apply (for_range_commute (λ a : list R * list R * matrix R, (a.1, U))
           _ _ _ (d, e, U') _ eq_refl).
  intros i [[d1 e1] U1]. unfold lower_to_upper_step, update_U. frame_cases.
Qed.

Lemma post_process_put_U (wvt : bool) (n : nat) (d e : list R)
    (U U' Vt : matrix R) :
  post_process false wvt n d e U Vt
  = with_U U <$> post_process false wvt n d e U' Vt.
Proof.
  unfold post_process.
  destruct (for_range 0 n _ _) as [[d1 Vt1]|]; [|reflexivity].
  cbn [mbind result_bind].
  rewrite (for_range_commute
             (λ a : list R * matrix R * matrix R, (a.1.1, U, a.2))
             (sort_step false wvt n) (n - 1) 0 (d1, U', Vt1) (d1, U, Vt1) eq_refl).
  - destruct (for_range _ _ _ _) as [[[d2 U2] Vt2]|]; reflexivity.
  - intros i [[d2 U2] Vt2]. unfold sort_step. frame_cases.
Qed.

Lemma svd_qr_put_U (wvt : bool) (uplo : Uplo) (d e : list R)
    (U U' Vt : matrix R) :
  svd_qr false wvt uplo d e U Vt = with_U U <$> svd_qr false wvt uplo d e U' Vt.
Proof.
  unfold svd_qr. case_decide; [reflexivity|].
  rewrite (lower_to_upper_put_U uplo _ d e U U').
  destruct (lower_to_upper _ _ _ _ _ U') as [[[d1 e1] U1]|]; [|reflexivity].
  cbn [fmap result_fmap mbind result_bind fst snd].
  change (State d1 e1 U Vt 0 (length d))
    with (put_U U (State d1 e1 U1 Vt 0 (length d))).
  rewrite main_loop_put_U.
  destruct (main_loop _ _ _ _) as [[code s|s]|]; [reflexivity| |reflexivity].
  cbn [fmap result_fmap mbind result_bind outcome_map put_U
       st_d st_e st_U st_Vt].
  apply post_process_put_U.
Qed.
(** With [want_vt = false] every part of the routine commutes with the
    replacement of [Vt]. *)
Lemma find_active_block_put_Vt (Vt : matrix R) (i : nat) (s : state R) :
  find_active_block i (put_Vt Vt s) = put_Vt Vt <$> find_active_block i s.
Proof.
  induction i as [|i IH]; simpl; [reflexivity|].
  case_decide; [|reflexivity].
  destruct (read (st_e s) i) as [x|]; [|reflexivity]. simpl.
  destruct (read (st_d s) (S i)) as [y|]; [|reflexivity]. simpl.
  destruct (negligible x y); [|exact IH].
  destruct (write (st_e s) i zero); reflexivity.
Qed.

Lemma block22_put_Vt (wu : bool) (Vt : matrix R) (s : state R) :
  block22 wu false (put_Vt Vt s) = put_Vt Vt <$> block22 wu false s.
Proof. unfold block22, update_Vt. frame_cases. Qed.

Lemma zero_shift_step_put_Vt (wu : bool) (Vt : matrix R) (ist i : nat)
    (a : state R * (R * R * R * R)) :
  zero_shift_step wu false ist i (put_Vt Vt a.1, a.2)
  = (λ b, (put_Vt Vt b.1, b.2)) <$> zero_shift_step wu false ist i a.
Proof.
  destruct a as [s [[[cs sn] oldcs] oldsn]].
  unfold zero_shift_step, update_Vt. frame_cases.
Qed.

Lemma shifted_step_put_Vt (wu : bool) (Vt : matrix R) (ist istop i : nat)
    (a : state R * (R * R)) :
  shifted_step wu false ist istop i (put_Vt Vt a.1, a.2)
  = (λ b, (put_Vt Vt b.1, b.2)) <$> shifted_step wu false ist istop i a.
Proof.
  destruct a as [s [f g]].
  unfold shifted_step, update_Vt. frame_cases.
Qed.

Lemma zero_shift_sweep_put_Vt (wu : bool) (Vt : matrix R) (s : state R) :
  zero_shift_sweep wu false (put_Vt Vt s) = put_Vt Vt <$> zero_shift_sweep wu false s.
Proof.
  unfold zero_shift_sweep. cbn [put_Vt st_istart st_istop].
  match goal with |- context [for_range ?lo ?cnt ?body (_, ?c)] =>
    assert (for_range lo cnt body (put_Vt Vt s, c)
            = (λ b, (put_Vt Vt b.1, b.2)) <$> for_range lo cnt body (s, c))
      as -> by (apply (for_range_commute (λ b, (put_Vt Vt b.1, b.2))
                         body cnt lo (s, c) _ eq_refl);
                intros; apply zero_shift_step_put_Vt)
  end.
  destruct (for_range _ _ _ _) as [[s1 [[[cs sn] oldcs] oldsn]]|];
    [|reflexivity].
  frame_cases.
Qed.

Lemma shifted_sweep_put_Vt (wu : bool) (shift : R) (Vt : matrix R) (s : state R) :
  shifted_sweep wu false shift (put_Vt Vt s)
  = put_Vt Vt <$> shifted_sweep wu false shift s.
Proof.
  unfold shifted_sweep. cbn [put_Vt st_istart st_istop st_d st_e].
  destruct (read (st_d s) (st_istart s)) as [d0|]; [|reflexivity].
  destruct (read (st_e s) (st_istart s)) as [g|]; [|reflexivity].
  cbn [mbind result_bind].
  match goal with |- context [for_range ?lo ?cnt ?body (_, ?c)] =>
    assert (for_range lo cnt body (put_Vt Vt s, c)
            = (λ b, (put_Vt Vt b.1, b.2)) <$> for_range lo cnt body (s, c))
      as -> by (apply (for_range_commute (λ b, (put_Vt Vt b.1, b.2))
                         body cnt lo (s, c) _ eq_refl);
                intros; apply shifted_step_put_Vt)
  end.
  destruct (for_range _ _ _ _) as [[s1 [f1 g1]]|]; [|reflexivity].
  frame_cases.
Qed.

Lemma loop_body_put_Vt (wu : bool) (Vt : matrix R) (s : state R) :
  loop_body wu false (put_Vt Vt s) = put_Vt Vt <$> loop_body wu false s.
Proof.
  unfold loop_body. cbn [put_Vt st_istop].
  rewrite (find_active_block_put_Vt Vt).
  destruct (find_active_block _ s) as [s1|]; [|reflexivity].
  cbn [fmap result_fmap mbind result_bind put_Vt st_istart st_istop].
  case_decide; [reflexivity|]. case_decide; [apply block22_put_Vt|].
  unfold qr_sweep, compute_shift. cbn [put_Vt st_d st_e st_istart st_istop].
  destruct (read (st_d s1) (st_istart s1)) as [x|]; [|reflexivity].
  cbn [mbind result_bind].
  destruct (shift_block _ _ _) as [[[f g] h]|]; [|reflexivity].
  cbn [mbind result_bind].
  destruct (singularvalues22 f g h) as [shift temp].
  cbn [mbind result_bind].
  case_match; [apply zero_shift_sweep_put_Vt|apply shifted_sweep_put_Vt].
Qed.

Lemma main_loop_put_Vt (wu : bool) (Vt : matrix R) (fuel : nat) (s : state R) :
  main_loop wu false fuel (put_Vt Vt s)
  = outcome_map (put_Vt Vt) <$> main_loop wu false fuel s.
Proof.
  revert s. induction fuel as [|fuel IH]; intros s; simpl; [reflexivity|].
  case_decide; [reflexivity|].
  rewrite loop_body_put_Vt.
  destruct (loop_body wu false s) as [s1|]; [apply IH|reflexivity].
Qed.


Lemma post_process_put_Vt (wu : bool) (n : nat) (d e : list R)
    (U Vt Vt' : matrix R) :
  post_process wu false n d e U Vt
  = with_Vt Vt <$> post_process wu false n d e U Vt'.
Proof.
  unfold post_process.
  rewrite (for_range_commute (λ a : list R * matrix R, (a.1, Vt))
             (make_positive_step false) n 0 (d, Vt') (d, Vt) eq_refl).
  2:{ intros i [d2 Vt2]. unfold make_positive_step. frame_cases. }
  destruct (for_range 0 n _ _) as [[d1 Vt1]|]; [|reflexivity].
  cbn [fmap result_fmap mbind result_bind fst].
  rewrite (for_range_commute
             (λ a : list R * matrix R * matrix R, (a.1, Vt))
             (sort_step wu false n) (n - 1) 0 (d1, U, Vt1) (d1, U, Vt) eq_refl).
  - destruct (for_range _ _ _ _) as [[[d2 U2] Vt2]|]; reflexivity.
  - intros i [[d2 U2] Vt2]. unfold sort_step. frame_cases.
Qed.

Lemma svd_qr_put_Vt (wu : bool) (uplo : Uplo) (d e : list R)
    (U Vt Vt' : matrix R) :
  svd_qr wu false uplo d e U Vt = with_Vt Vt <$> svd_qr wu false uplo d e U Vt'.
Proof.
  unfold svd_qr. case_decide; [reflexivity|].
  destruct (lower_to_upper _ _ _ _ _ U) as [[[d1 e1] U1]|]; [|reflexivity].
  cbn [fmap result_fmap mbind result_bind fst snd].
  change (State d1 e1 U1 Vt 0 (length d))
    with (put_Vt Vt (State d1 e1 U1 Vt' 0 (length d))).
  rewrite main_loop_put_Vt.
  destruct (main_loop _ _ _ _) as [[code s|s]|]; [reflexivity| |reflexivity].
  cbn [fmap result_fmap mbind result_bind outcome_map put_Vt
       st_d st_e st_U st_Vt].
  apply post_process_put_Vt.
Qed.

(** C8: with [want_u = false] the matrix [U] is returned as it was passed,
    and the status and the other buffers are the same for every [U]: it is
    neither written nor read.  Likewise for [Vt] with [want_vt = false]. *)
Theorem svd_qr_frame (wu wvt : bool) (uplo : Uplo) (d e : list R)
    (U U' Vt Vt' : matrix R) :
  svd_qr false wvt uplo d e U Vt = with_U U <$> svd_qr false wvt uplo d e U' Vt
  ∧ svd_qr wu false uplo d e U Vt
    = with_Vt Vt <$> svd_qr wu false uplo d e U Vt'.
Proof. split; [apply svd_qr_put_U|apply svd_qr_put_Vt]. Qed.
End Frame.

(** ** Sign normalisation and sort *)

Section SwapLemmas.
Context {A : Type}.
Implicit Types l : list A.

Lemma swap_list_length a b l : length (swap_list a b l) = length l.
Proof.
  unfold swap_list. destruct (l !! a), (l !! b); try reflexivity.
  rewrite !length_insert. reflexivity.
Qed.

Lemma swap_list_same a l : swap_list a a l = l.
Proof.
  unfold swap_list. destruct (l !! a) as [x|] eqn:Hx; [|reflexivity].
  rewrite list_insert_insert_eq. apply list_insert_id, Hx.
Qed.

Lemma insert_head_perm l b x y :
  l !! b = Some y → y :: <[b:=x]> l ≡ₚ x :: l.
Proof.
  revert b. induction l as [|z l IH]; intros [|b] Hb; simplify_eq/=.
  - apply perm_swap.
  - rewrite perm_swap, (IH b Hb). apply perm_swap.
Qed.

(** An exchange is a permutation. *)
Lemma swap_list_perm a b l : swap_list a b l ≡ₚ l.
Proof.
  unfold swap_list.
  destruct (l !! a) as [x|] eqn:Hx; [|reflexivity].
  destruct (l !! b) as [y|] eqn:Hy; [|reflexivity].
  revert a b Hx Hy. induction l as [|z l IH]; intros [|a] [|b] Hx Hy;
    simplify_eq/=.
  - reflexivity.
  - apply insert_head_perm, Hy.
  - apply insert_head_perm, Hx.
  - f_equiv. apply IH; assumption.
Qed.

Lemma swap_list_take lo a b l :
  lo ≤ a → lo ≤ b → take lo (swap_list a b l) = take lo l.
Proof.
  intros Ha Hb. unfold swap_list.
  destruct (l !! a), (l !! b); try reflexivity.
  rewrite !take_insert_ge by lia. reflexivity.
Qed.

Lemma swap_list_drop lo a b l :
  lo ≤ a → lo ≤ b →
  drop lo (swap_list a b l) = swap_list (a - lo) (b - lo) (drop lo l).
Proof.
  intros Ha Hb. unfold swap_list. rewrite !lookup_drop.
  replace (lo + (a - lo)) with a by lia. replace (lo + (b - lo)) with b by lia.
  destruct (l !! a), (l !! b); try reflexivity.
  rewrite !drop_insert_ge by lia. reflexivity.
Qed.

Lemma swap_list_lookup_r a b l x :
  l !! a = Some x → b < length l → swap_list a b l !! b = Some x.
Proof.
  intros Hx Hb. unfold swap_list. rewrite Hx.
  destruct (lookup_lt_is_Some_2 l b Hb) as [y ->].
  apply list_lookup_insert_eq. rewrite length_insert. exact Hb.
Qed.
End SwapLemmas.

Lemma take_eq_le {A} (l1 l2 : list A) (a b : nat) :
  a ≤ b → take b l1 = take b l2 → take a l1 = take a l2.
Proof.
  intros Hab Heq. rewrite <- (Nat.min_l a b Hab), <- !take_take, Heq.
  reflexivity.
Qed.

Section MatrixSwaps.
Context {R : Type}.

Lemma swap_entries_spec (l : list R) (a b : nat) :
  a < length l → b < length l → swap_entries l a b = Ok (swap_list a b l).
Proof.
  intros Ha Hb. unfold swap_entries, swap_list.
  destruct (lookup_lt_is_Some_2 l a Ha) as [x Hx].
  destruct (lookup_lt_is_Some_2 l b Hb) as [y Hy].
  rewrite Hx, Hy, (read_lookup _ _ _ Hx), (read_lookup _ _ _ Hy).
  cbn [mbind result_bind]. rewrite write_in_bounds by exact Ha.
  cbn [mbind result_bind]. apply write_in_bounds.
  rewrite length_insert. exact Hb.
Qed.

Lemma swap_rows_spec (M : matrix R) (a b : nat) :
  a < length M → b < length M → swap_rows M a b = Ok (swap_list a b M).
Proof.
  intros Ha Hb. unfold swap_rows, swap_list, row, set_row in *.
  destruct (lookup_lt_is_Some_2 M a Ha) as [x ->].
  destruct (lookup_lt_is_Some_2 M b Hb) as [y ->]. reflexivity.
Qed.

(** [tlapack::swap] on two columns exchanges two entries of every row. *)
Lemma swap_cols_spec (M : matrix R) (a b : nat) :
  Forall (λ r, a < length r ∧ b < length r) M →
  swap_cols M a b = Ok (swap_list a b <$> M).
Proof.
  intros HM. unfold swap_cols.
  assert (∃ u1 u2, col M a = Ok u1 ∧ col M b = Ok u2
            ∧ set_col (set_col M a u2) b u1 = swap_list a b <$> M)
    as (u1 & u2 & -> & -> & <-); [|reflexivity].
  induction HM as [|r M [Ha Hb] _ (u1 & u2 & Hu1 & Hu2 & Hset)].
  - exists [], []. auto.
  - destruct (lookup_lt_is_Some_2 r a Ha) as [x Hx].
    destruct (lookup_lt_is_Some_2 r b Hb) as [y Hy].
    exists (x :: u1), (y :: u2). simpl.
    rewrite (read_lookup _ _ _ Hx), (read_lookup _ _ _ Hy), Hu1, Hu2.
    repeat split. unfold set_col in *. simpl. rewrite Hset.
    unfold swap_list at 2. rewrite Hx, Hy. reflexivity.
Qed.
End MatrixSwaps.

Section Sort.
Context {R : Type} `{!Scalar R, !Blas1 R}.
Variables (want_u want_vt : bool) (n : nat) (T : list R).
Hypothesis abs_T : ∀ x, x ∈ T → abs x = x.
Hypothesis iamax_T : iamax_contract T.

(** A pass of the sort exchanges [d[i]] with a largest entry of [d[i..n)],
    and the columns of [U] and rows of [Vt] with it. *)
Lemma sort_step_spec (i : nat) (dc : list R) (U Vt : matrix R) :
  i < n - 1 → length dc = n → (∀ x, x ∈ dc → x ∈ T) →
  (want_u = true → cols_ok n U) → (want_vt = true → n ≤ length Vt) →
  ∃ imax m, i ≤ imax < n ∧ dc !! imax = Some m
    ∧ (∀ x, x ∈ drop i dc → leb x m = true)
    ∧ sort_step want_u want_vt n i (dc, U, Vt)
      = Ok (swap_list imax i dc,
            (if want_u then swap_list imax i <$> U else U),
            (if want_vt then swap_list imax i Vt else Vt)).
Proof.
  intros Hi Hlen HT HU HVt. unfold sort_step, slice.
  rewrite take_ge by (rewrite length_drop; lia).
  destruct (iamax_T (drop i dc)) as (m & Hm & Hmax).
  { intros Heq. apply (f_equal length) in Heq. rewrite length_drop in Heq.
    simpl in Heq. lia. }
  { intros x Hx. apply HT. eapply subseteq_drop, Hx. }
  rewrite lookup_drop in Hm.
  exists (i + iamax (drop i dc)), m.
  assert (i + iamax (drop i dc) < n) as Hlt
    by (rewrite <- Hlen; eapply lookup_lt_Some, Hm).
  split; [lia|]. split; [exact Hm|]. split.
  { intros x Hx. specialize (Hmax x Hx).
    rewrite (abs_T x), (abs_T m) in Hmax; [exact Hmax| |].
    - apply HT. eapply list_elem_of_lookup_2, Hm.
    - apply HT. eapply subseteq_drop, Hx. }
  case_decide as Hne.
  - rewrite swap_entries_spec by lia. cbn [mbind result_bind].
    assert ((if want_u then swap_cols U (i + iamax (drop i dc)) i else Ok U)
            = Ok (if want_u then swap_list (i + iamax (drop i dc)) i <$> U
                  else U)) as ->.
    { destruct want_u; [|reflexivity]. apply swap_cols_spec.
      eapply Forall_impl; [apply HU; reflexivity|]. simpl. intros r Hr. lia. }
    assert ((if want_vt then swap_rows Vt (i + iamax (drop i dc)) i else Ok Vt)
            = Ok (if want_vt then swap_list (i + iamax (drop i dc)) i Vt
                  else Vt)) as ->.
    { destruct want_vt; [|reflexivity]. apply swap_rows_spec.
      - specialize (HVt eq_refl). lia.
      - specialize (HVt eq_refl). lia. }
    reflexivity.
  - assert (i + iamax (drop i dc) = i) as ->
      by (destruct (decide (i + iamax (drop i dc) = i));
          [assumption|contradiction]).
    rewrite !swap_list_same.
    replace (swap_list i i <$> U) with U.
    + destruct want_u, want_vt; reflexivity.
    + symmetry. etrans; [|apply list_fmap_id].
      apply list_fmap_ext. intros ? r _. apply swap_list_same.
Qed.

Lemma cols_ok_swap (a b : nat) (U : matrix R) :
  cols_ok n U → cols_ok n (swap_list a b <$> U).
Proof.
  unfold cols_ok. rewrite Forall_fmap. intros HU.
  eapply Forall_impl; [exact HU|].
  intros r Hr. simpl. rewrite swap_list_length. exact Hr.
Qed.

(** The passes from [lo] on leave [d[0..lo)] alone, permute [d[lo..n)] and
    put it in descending order. *)
Lemma sort_loop (cnt lo : nat) (dc : list R) (U Vt : matrix R) :
  lo + cnt = n - 1 → length dc = n → (∀ x, x ∈ dc → x ∈ T) →
  (want_u = true → cols_ok n U) → (want_vt = true → n ≤ length Vt) →
  ∃ sw, for_range lo cnt (sort_step want_u want_vt n) (dc, U, Vt)
        = Ok (apply_swaps sw dc,
              (if want_u then apply_swaps sw <$> U else U),
              (if want_vt then apply_swaps sw Vt else Vt))
      ∧ take lo (apply_swaps sw dc) = take lo dc
      ∧ drop lo (apply_swaps sw dc) ≡ₚ drop lo dc
      ∧ ∀ a b x y, lo ≤ a → a < b →
          apply_swaps sw dc !! a = Some x → apply_swaps sw dc !! b = Some y →
          leb y x = true.
Proof.
  revert lo dc U Vt. induction cnt as [|cnt IH];
    intros lo dc U Vt Hcnt Hlen HT HU HVt.
  - exists []. simpl. split; [|split; [reflexivity|split; [reflexivity|]]].
    + rewrite list_fmap_id. destruct want_u, want_vt; reflexivity.
    + intros a b x y Ha Hab _ Hy. apply lookup_lt_Some in Hy. lia.
  - destruct (sort_step_spec lo dc U Vt) as (imax & m & Himax & Hm & Hmax & Hstep);
      [lia|assumption..|].
    destruct (IH (S lo) (swap_list imax lo dc)
                (if want_u then swap_list imax lo <$> U else U)
                (if want_vt then swap_list imax lo Vt else Vt))
      as (sw & Hrun & Htake & Hdrop & Hsorted).
    { lia. }
    { rewrite swap_list_length. exact Hlen. }
    { intros x Hx. apply HT. rewrite <- (swap_list_perm imax lo dc). exact Hx. }
    { intros Hu. rewrite Hu. apply cols_ok_swap, HU, Hu. }
    { intros Hv. rewrite Hv, swap_list_length. apply HVt, Hv. }
    exists ((imax, lo) :: sw). cbn [for_range apply_swaps foldl fst snd].
    rewrite Hstep. cbn [mbind result_bind].
    fold (apply_swaps sw (swap_list imax lo dc)).
    assert (apply_swaps sw (swap_list imax lo dc) !! lo = Some m) as Hlo.
    { rewrite <- (lookup_take_lt _ (S lo)) by lia. rewrite Htake.
      rewrite lookup_take_lt by lia.
      apply swap_list_lookup_r; [exact Hm|lia]. }
    split; [|split; [|split]].
    + etrans; [exact Hrun|]. f_equal. f_equal; [f_equal|].
      * destruct want_u; [|reflexivity].
        rewrite <- list_fmap_compose. reflexivity.
      * destruct want_vt; reflexivity.
    + rewrite <- (swap_list_take lo imax lo dc) by lia.
      apply (take_eq_le _ _ lo (S lo)); [lia|exact Htake].
    + assert (swap_list imax lo dc !! lo = Some m) as Hlo1
        by (apply swap_list_lookup_r; [exact Hm|lia]).
      rewrite (drop_S _ _ _ Hlo), Hdrop, <- (drop_S _ _ _ Hlo1).
      rewrite swap_list_drop by lia. apply swap_list_perm.
    + intros a b x y Ha Hab Hx Hy.
      destruct (decide (a = lo)) as [->|Hne].
      * rewrite Hlo in Hx. injection Hx as <-. apply Hmax.
        assert (y ∈ drop (S lo) (apply_swaps sw (swap_list imax lo dc))) as Hin.
        { apply list_elem_of_lookup. exists (b - S lo).
          rewrite lookup_drop, <- Hy. f_equal. lia. }
        rewrite Hdrop in Hin.
        rewrite <- (swap_list_perm (imax - lo) (lo - lo) (drop lo dc)).
        rewrite <- swap_list_drop by lia.
        replace (S lo) with (lo + 1) in Hin by lia.
        rewrite <- drop_drop in Hin. eapply subseteq_drop, Hin.
      * apply (Hsorted a b x y); [lia|assumption..].
Qed.
End Sort.

Section MakePositive.
Context {R : Type} `{!Scalar R, !Blas1 R}.
Variable want_vt : bool.

Lemma negate_rows_length (d : list R) (Vt : matrix R) :
  length (negate_rows d Vt) = length Vt.
Proof.
  revert Vt. induction d as [|x d IH]; intros [|r Vt]; simpl; auto.
Qed.

Lemma make_positive_step_spec (i : nat) (d : list R) (Vt : matrix R)
    (x : R) (r : list R) :
  d !! i = Some x → (want_vt = true → Vt !! i = Some r) →
  make_positive_step want_vt i (d, Vt)
  = Ok (<[i:=made_positive x]> d,
        if want_vt
        then <[i:=if ltb x zero then scal (neg one) r else r]> Vt
        else Vt).
Proof.
  intros Hx Hr. unfold make_positive_step, made_positive.
  rewrite (read_lookup _ _ _ Hx). cbn [mbind result_bind].
  destruct (ltb x zero).
  - rewrite write_in_bounds by (eapply lookup_lt_Some, Hx).
    cbn [mbind result_bind]. destruct want_vt; [|reflexivity].
    unfold row, set_row in *. rewrite (Hr eq_refl). reflexivity.
  - rewrite (list_insert_id _ _ _ Hx). destruct want_vt; [|reflexivity].
     rewrite (list_insert_id _ _ _ (Hr eq_refl)).
    reflexivity.
Qed.

(** The sign loop from [lo] on. *)
Lemma make_positive_loop (cnt lo : nat) (d : list R) (Vt : matrix R) :
  lo + cnt = length d →
  (want_vt = true → length d ≤ length Vt) →
  for_range lo cnt (make_positive_step want_vt) (d, Vt)
  = Ok (take lo d ++ (made_positive <$> drop lo d),
        if want_vt then take lo Vt ++ negate_rows (drop lo d) (drop lo Vt)
        else Vt).
Proof.
  revert lo d Vt. induction cnt as [|cnt IH]; intros lo d Vt Hcnt HVt.
  - simpl. rewrite (drop_ge d) by lia. simpl.
    rewrite take_drop, app_nil_r, take_ge by lia.
    destruct want_vt; reflexivity.
  - destruct (lookup_lt_is_Some_2 d lo) as [x Hx]; [lia|].
    assert (∃ r, want_vt = true → Vt !! lo = Some r) as [r Hr].
    { destruct want_vt.
      - destruct (lookup_lt_is_Some_2 Vt lo) as [r Hr];
          [specialize (HVt eq_refl); lia|].
        exists r. intros _. exact Hr.
      - exists []. discriminate. }
    cbn [for_range]. rewrite (make_positive_step_spec lo d Vt x r Hx Hr).
    cbn [mbind result_bind].
    rewrite IH.
    2:{ rewrite length_insert. lia. }
    2:{ intros Hw. rewrite Hw. 
        rewrite !length_insert. apply HVt, Hw. }
    rewrite (drop_S d _ _ Hx). cbn [fmap list_fmap].
    rewrite drop_insert_lt by lia.
    rewrite (take_S_r (<[lo:=made_positive x]> d) lo (made_positive x))
      by (apply list_lookup_insert_eq; lia).
    rewrite take_insert_ge by lia. rewrite <- app_assoc. f_equal.
    destruct want_vt; [|reflexivity].
    specialize (Hr eq_refl). 
    rewrite (drop_S Vt _ _ Hr). cbn [negate_rows].
    rewrite drop_insert_lt by lia.
    erewrite take_S_r
      by (apply list_lookup_insert_eq; eapply lookup_lt_Some, Hr).
    rewrite take_insert_ge by lia. rewrite <- app_assoc. reflexivity.
Qed.
End MakePositive.

Section Diagonal.
Context {R : Type} `{!Scalar R, !Rotations R, !Blas1 R}.
Variables (want_u want_vt : bool).

(** The off-diagonals below [k] as on entry, the others set to zero. *)
Lemma zero_from_step (e : list R) (k : nat) :
  k < length e →
  <[k:=zero]> (take (S k) e ++ replicate (length e - S k) zero)
  = take k e ++ replicate (length e - k) zero.
Proof.
  intros Hk. destruct (lookup_lt_is_Some_2 e k Hk) as [x Hx].
  rewrite (take_S_r e k x Hx), <- app_assoc.
  rewrite insert_app_r_alt by (rewrite length_take; lia).
  rewrite length_take, Nat.min_l, Nat.sub_diag by lia. simpl.
  replace (length e - k) with (S (length e - S k)) by lia. reflexivity.
Qed.

(** With every off-diagonal negligible against every diagonal entry, every
    pass splits off one singular value: it sets one off-diagonal to zero
    and touches nothing else. *)
Lemma main_loop_diagonal (d e : list R) (U Vt : matrix R) (k fuel : nat) :
  length e = length d - 1 →
  (∀ x y, x ∈ e → y ∈ d → negligible x y = true) →
  S k ≤ fuel → S k ≤ length d →
  main_loop want_u want_vt fuel
    (State d (take k e ++ replicate (length e - k) zero) U Vt 0 (S k))
  = Ok (Broke (State d (replicate (length e) zero) U Vt 0 1)).
Proof.
  intros Hlen Hneg. revert fuel. induction k as [|k IH]; intros fuel Hf Hk.
  - destruct fuel as [|fuel]; [lia|].
    rewrite take_0, Nat.sub_0_r. reflexivity.
  - destruct fuel as [|fuel]; [lia|].
    cbn [main_loop st_istop]. rewrite decide_False by lia.
    assert (loop_body want_u want_vt
              (State d (take (S k) e ++ replicate (length e - S k) zero)
                 U Vt 0 (S (S k)))
            = Ok (State d (take k e ++ replicate (length e - k) zero)
                    U Vt 0 (S k))) as ->; [|apply IH; lia].
    unfold loop_body. cbn [st_istop Nat.sub find_active_block st_istart].
    rewrite decide_True by lia. cbn [st_e st_d].
    destruct (lookup_lt_is_Some_2 e k) as [x Hx]; [lia|].
    destruct (lookup_lt_is_Some_2 d (S k)) as [y Hy]; [lia|].
    assert ((take (S k) e ++ replicate (length e - S k) zero) !! k = Some x)
      as Hx'.
    { rewrite lookup_app_l by (rewrite length_take; lia).
      rewrite lookup_take_lt by lia. exact Hx. }
    rewrite (read_lookup _ _ _ Hx'), (read_lookup _ _ _ Hy).
    cbn [mbind result_bind].
    rewrite (Hneg x y) by (eapply list_elem_of_lookup_2; eassumption).
    rewrite write_in_bounds by (eapply lookup_lt_Some, Hx').
    rewrite zero_from_step by lia.
    cbn [mbind result_bind st_istart st_istop Nat.sub].
    rewrite decide_True by reflexivity. reflexivity.
Qed.
End Diagonal.

(** ** Diagonal input *)

Section Iamax.
Context {R : Type} `{!Scalar R}.
Variable M : list R.
Hypothesis total_M : ∀ a b, a ∈ M → b ∈ M → ltb a b = false → leb b a = true.
Hypothesis trans_M : ∀ a b c, a ∈ M → b ∈ M → c ∈ M →
  leb c a = true → ltb a b = true → leb c b = true.
Hypothesis refl_M : ∀ a, a ∈ M → leb a a = true.

(** The reference [iamax] meets its contract on vectors whose magnitudes
    lie in a set [M] that [ltb] and [leb] order totally. *)
Lemma iamax_from_spec (x pre : list R) (i best : nat) (mb : R) :
  (∀ y, y ∈ pre ++ x → abs y ∈ M) →
  i = length pre →
  (pre ++ x) !! best = Some mb →
  (∀ y, y ∈ pre → leb (abs y) (abs mb) = true) →
  ∃ m, (pre ++ x) !! iamax_from x i best (abs mb) = Some m
       ∧ ∀ y, y ∈ pre ++ x → leb (abs y) (abs m) = true.
Proof.
  revert pre i best mb.
  induction x as [|a x IH]; intros pre i best mb HM Hi Hb Hmax.
  - exists mb. simpl. split; [exact Hb|]. rewrite app_nil_r. exact Hmax.
  - assert (a ∈ pre ++ a :: x) as Hin
      by (apply elem_of_app; right; apply elem_of_cons; left; reflexivity).
    assert (abs a ∈ M) as Ha by (apply HM, Hin).
    assert (abs mb ∈ M) as Hmb
      by (apply HM; eapply list_elem_of_lookup_2, Hb).
    assert ((pre ++ a :: x) !! i = Some a) as Hnew
      by (apply list_lookup_middle; exact Hi).
    simpl. revert HM Hb Hnew.
    replace (pre ++ a :: x) with ((pre ++ [a]) ++ x)
      by (rewrite <- app_assoc; reflexivity).
    intros HM Hb Hnew.
    destruct (ltb (abs mb) (abs a)) eqn:Hcmp.
    + apply (IH (pre ++ [a]) (S i) i a); try assumption.
      * rewrite length_app. simpl. lia.
      * intros y [Hy| ->%list_elem_of_singleton]%elem_of_app.
        -- apply (trans_M (abs mb)); try assumption.
           ++ apply HM, elem_of_app. left. apply elem_of_app. left. exact Hy.
           ++ apply Hmax, Hy.
        -- apply refl_M, Ha.
    + apply (IH (pre ++ [a]) (S i) best mb); try assumption.
      * rewrite length_app. simpl. lia.
      * intros y [Hy| ->%list_elem_of_singleton]%elem_of_app.
        -- apply Hmax, Hy.
        -- apply total_M; assumption.
Qed.

Lemma iamax_ref_spec (l : list R) :
  l ≠ [] → (∀ y, y ∈ l → abs y ∈ M) →
  ∃ m, l !! iamax_ref l = Some m ∧ ∀ y, y ∈ l → leb (abs y) (abs m) = true.
Proof.
  destruct l as [|a x]; [congruence|]. intros _ HM.
  unfold iamax_ref.
  apply (iamax_from_spec x [a] 1 0 a); [exact HM|reflexivity|reflexivity|].
  intros y ->%list_elem_of_singleton. apply refl_M, HM.
  apply elem_of_cons. left. reflexivity.
Qed.
End Iamax.

Section PostProcess.
Context {R : Type} `{!Scalar R, !Rotations R, !Blas1 R}.
Variables (want_u want_vt : bool).

(** The post-processing on buffers of the right dimensions. *)
Lemma post_process_spec (d e : list R) (U Vt : matrix R) :
  (∀ x, x ∈ d → abs (made_positive x) = made_positive x) →
  iamax_contract (made_positive <$> d) →
  (want_u = true → cols_ok (length d) U) →
  (want_vt = true → length d ≤ length Vt) →
  ∃ sw, post_process want_u want_vt (length d) d e U Vt
        = Ok (0, (apply_swaps sw (made_positive <$> d), e,
                  (if want_u then apply_swaps sw <$> U else U),
                  (if want_vt then apply_swaps sw (negate_rows d Vt) else Vt)))
      ∧ apply_swaps sw (made_positive <$> d) ≡ₚ made_positive <$> d
      ∧ descending (apply_swaps sw (made_positive <$> d)).
Proof.
  intros Habs Hiamax HU HVt. unfold post_process.
  rewrite make_positive_loop by (try lia; exact HVt).
  cbn [take drop app mbind result_bind].
  assert (∀ x, x ∈ made_positive <$> d → abs x = x) as HT
    by (intros x (y & -> & Hy)%list_elem_of_fmap; apply Habs, Hy).
  assert (want_vt = true →
          length d ≤ length (if want_vt then negate_rows d Vt else Vt))
    as HVt' by (intros Hw; rewrite Hw, negate_rows_length; apply HVt, Hw).
  destruct (sort_loop want_u want_vt (length d) (made_positive <$> d)
              HT Hiamax (length d - 1) 0 (made_positive <$> d) U
              (if want_vt then negate_rows d Vt else Vt)
              ltac:(lia) (length_fmap _ _) (λ x Hx, Hx) HU HVt')
    as (sw & Hrun & _ & Hperm & Hsorted).
  exists sw. split; [|split].
  - etrans; [apply (f_equal (λ m, m ≫= _) Hrun)|].
    cbn [mbind result_bind]. destruct want_vt; reflexivity.
  - exact Hperm.
  - intros i j x y Hij. apply Hsorted; lia.
Qed.

(** C9: on an upper bidiagonal input whose off-diagonal entries are zero
    (of either sign: [abs x = zero]) and whose diagonal entries compare like
    ordinary numbers, the routine is the post-processing alone, which has no
    access to the plane rotations: it returns 0, [e] is zero on exit, and
    [d] holds the absolute values of the entry diagonal in descending
    order.  The exchanges [sw] of the sort are applied in lock-step to the
    columns of [U] and to the rows of [Vt], after the rows of [Vt] that face
    a negative [d[i]] were negated. *)
Theorem diagonal_input (d e : list R) (U Vt : matrix R) :
  length e = length d - 1 →
  (∀ x, x ∈ e → abs x = zero) →
  (∀ y, y ∈ d → leb zero (mul (mul ten eps) (abs y)) = true) →
  (∀ x, x ∈ d → (if ltb x zero then neg x else x) = abs x) →
  (∀ x, x ∈ d → abs (abs x) = abs x) →
  iamax_contract (abs <$> d) →
  (want_u = true → cols_ok (length d) U) →
  (want_vt = true → length d ≤ length Vt) →
  svd_qr want_u want_vt Upper d e U Vt
    = post_process want_u want_vt (length d) d (replicate (length e) zero)
        U Vt
  ∧ ∃ sw, svd_qr want_u want_vt Upper d e U Vt
          = Ok (0, (apply_swaps sw (abs <$> d), replicate (length e) zero,
                    (if want_u then apply_swaps sw <$> U else U),
                    (if want_vt then apply_swaps sw (negate_rows d Vt)
                     else Vt)))
        ∧ apply_swaps sw (abs <$> d) ≡ₚ abs <$> d
        ∧ descending (apply_swaps sw (abs <$> d)).
Proof.
  intros Hlen He Hd Hpos Habs Hiamax HU HVt.
  assert (made_positive <$> d = abs <$> d) as Hmp
    by (apply list_fmap_ext; intros i x Hx; apply Hpos;
        eapply list_elem_of_lookup_2, Hx).
  assert (svd_qr want_u want_vt Upper d e U Vt
          = post_process want_u want_vt (length d) d
              (replicate (length e) zero) U Vt) as Heq.
  { unfold svd_qr. case_decide as Hn.
    - rewrite Hn in *. destruct e; [reflexivity|simpl in Hlen; lia].
    - cbn [lower_to_upper mbind result_bind].
      destruct (length d) as [|k] eqn:Hk; [contradiction|].
      assert (k = length e) as -> by lia.
      pose proof (main_loop_diagonal want_u want_vt d e U Vt (length e)
                    (30 * S (length e))) as Hloop.
      rewrite firstn_all, Nat.sub_diag, app_nil_r in Hloop.
      rewrite Hloop; [reflexivity|lia| |lia|lia].
      intros x y Hx Hy. unfold negligible, tol.
      rewrite (He x Hx). apply Hd, Hy. }
  split; [exact Heq|].
  destruct (post_process_spec d (replicate (length e) zero) U Vt)
    as (sw & Hrun & Hperm & Hsorted).
  - intros x Hx. unfold made_positive. rewrite (Hpos x Hx). apply Habs, Hx.
  - rewrite Hmp. exact Hiamax.
  - exact HU.
  - exact HVt.
  - exists sw. rewrite Heq, <- Hmp. auto.
Qed.
End PostProcess.

(** The same, with the order of [S] given as finite checks. *)
Lemma iamax_ref_on {R : Type} `{!Scalar R} (M : list R) :
  Forall (λ a, Forall (λ b, ltb a b = false → leb b a = true) M) M →
  Forall (λ a, Forall (λ b, Forall (λ c,
    leb c a = true → ltb a b = true → leb c b = true) M) M) M →
  Forall (λ a, leb a a = true) M →
  Forall (λ y, abs y ∈ M) M →
  ∀ l : list R, l ≠ [] → (∀ x, x ∈ l → x ∈ M) →
    ∃ m, l !! iamax_ref l = Some m ∧ ∀ x, x ∈ l → leb (abs x) (abs m) = true.
Proof.
  rewrite !Forall_forall. intros Htot Htrans Hrefl Habs l Hne Hl.
  apply (iamax_ref_spec M); [| | |exact Hne|].
  - intros a b Ha Hb. specialize (Htot a Ha). rewrite Forall_forall in Htot.
    apply Htot, Hb.
  - intros a b c Ha Hb Hc. specialize (Htrans a Ha).
    rewrite Forall_forall in Htrans. specialize (Htrans b Hb).
    rewrite Forall_forall in Htrans. apply Htrans, Hc.
  - exact Hrefl.
  - intros y Hy. apply Habs, Hl, Hy.
Qed.


(** ** The normal exit *)

Section NormalExit.
Context {R : Type} `{!Scalar R, !Rotations R, !Blas1 R}.
Variables (want_u want_vt : bool).

Lemma zero_shift_step_length_d (ist i : nat) (s s' : state R)
    (cr cr' : R * R * R * R) :
  zero_shift_step want_u want_vt ist i (s, cr) = Ok (s', cr') →
  length (st_d s') = length (st_d s).
Proof.
  unfold zero_shift_step. destruct cr as [[[cs sn] oldcs] oldsn]. intros H.
  apply bind_Ok in H as (di & _ & H). apply bind_Ok in H as (ei & _ & H).
  destruct (lartg (mul di cs) ei) as [[cs1 sn1] r].
  apply bind_Ok in H as (e1 & _ & H). apply bind_Ok in H as (di1 & _ & H).
  destruct (lartg (mul oldcs r) (mul di1 sn1)) as [[oldcs1 oldsn1] r'].
  apply bind_Ok in H as (d1 & Hd1 & H). apply bind_Ok in H as (U1 & _ & H).
  apply bind_Ok in H as (Vt1 & _ & H). injection H as <- <-. simpl.
  eapply write_length, Hd1.
Qed.

Lemma shifted_step_length_d (ist istop i : nat) (s s' : state R)
    (cr cr' : R * R) :
  shifted_step want_u want_vt ist istop i (s, cr) = Ok (s', cr') →
  length (st_d s') = length (st_d s).
Proof.
  unfold shifted_step. destruct cr as [f g]. intros H.
  destruct (lartg f g) as [[csr snr] r].
  apply bind_Ok in H as (e1 & _ & H). apply bind_Ok in H as (di & _ & H).
  apply bind_Ok in H as (ei & _ & H). apply bind_Ok in H as (e2 & _ & H).
  apply bind_Ok in H as (di1 & _ & H). apply bind_Ok in H as (d1 & Hd1 & H).
  destruct (lartg _ _) as [[csl snl] r1].
  apply bind_Ok in H as (d2 & Hd2 & H). apply bind_Ok in H as (ei' & _ & H).
  apply bind_Ok in H as (di1' & _ & H). apply bind_Ok in H as (d3 & Hd3 & H).
  apply bind_Ok in H as ([e3 g3] & _ & H).
  apply bind_Ok in H as (U1 & _ & H).
  apply bind_Ok in H as (Vt1 & _ & H). injection H as <- <-. simpl.
  apply write_length in Hd1, Hd2, Hd3. congruence.
Qed.

Lemma qr_sweep_length_d (s s' : state R) :
  qr_sweep want_u want_vt s = Ok s' → length (st_d s') = length (st_d s).
Proof.
  unfold qr_sweep. intros H. apply bind_Ok in H as (shift & _ & H).
  destruct (eqb shift zero).
  - unfold zero_shift_sweep in H.
    apply bind_Ok in H as ([s1 [[[cs sn] oldcs] oldsn]] & Hloop & H).
    apply (for_range_invariant
             (λ _ a, length (st_d a.1) = length (st_d s))) in Hloop;
      [|intros i [sa ca] [sb cb] _ Ha Hstep; simpl in *;
        apply zero_shift_step_length_d in Hstep; congruence|reflexivity].
    apply bind_Ok in H as (x & _ & H). apply bind_Ok in H as (d1 & Hd1 & H).
    apply bind_Ok in H as (e1 & _ & H). injection H as <-. simpl in *.
    apply write_length in Hd1. congruence.
  - unfold shifted_sweep in H.
    apply bind_Ok in H as (d0 & _ & H). apply bind_Ok in H as (g & _ & H).
    apply bind_Ok in H as ([s1 [f1 g1]] & Hloop & H).
    apply (for_range_invariant
             (λ _ a, length (st_d a.1) = length (st_d s))) in Hloop;
      [|intros i [sa ca] [sb cb] _ Ha Hstep; simpl in *;
        apply shifted_step_length_d in Hstep; congruence|reflexivity].
    apply bind_Ok in H as (e1 & _ & H). injection H as <-. simpl in *.
    exact Hloop.
Qed.

(** The scan leaves [d], and the off-diagonals from [istop - 1] on. *)
Lemma find_active_block_tail (i : nat) (s s1 : state R) :
  i ≤ st_istop s - 1 →
  find_active_block i s = Ok s1 →
  st_d s1 = st_d s
  ∧ ∀ j, st_istop s - 1 ≤ j → st_e s1 !! j = st_e s !! j.
Proof.
  induction i as [|i IH]; simpl; intros Hi H.
  - injection H as <-. auto.
  - case_decide; [|injection H as <-; auto].
    apply bind_Ok in H as (x & _ & H). apply bind_Ok in H as (y & _ & H).
    destruct (negligible x y).
    + apply bind_Ok in H as (e1 & He1 & H). injection H as <-.
      apply write_Ok in He1 as [_ ->]. simpl. split; [reflexivity|].
      intros j Hj. apply list_lookup_insert_ne. lia.
    + apply IH; [lia|exact H].
Qed.

Lemma block22_spec (s s' : state R) :
  block22 want_u want_vt s = Ok s' →
  length (st_d s') = length (st_d s)
  ∧ st_istop s' = st_istop s - 2
  ∧ st_e s' !! st_istart s = Some zero
  ∧ ∀ j, j ≠ st_istart s → st_e s' !! j = st_e s !! j.
Proof.
  unfold block22. intros H.
  apply bind_Ok in H as (f & _ & H). apply bind_Ok in H as (g & _ & H).
  apply bind_Ok in H as (h & _ & H).
  destruct (svd22 f g h) as [[[[[sigmn sigmx] csl] snl] csr] snr].
  apply bind_Ok in H as (d1 & Hd1 & H). apply bind_Ok in H as (d2 & Hd2 & H).
  apply bind_Ok in H as (e1 & He1 & H). apply bind_Ok in H as (U1 & _ & H).
  apply bind_Ok in H as (Vt1 & _ & H). injection H as <-. simpl.
  apply write_length in Hd1, Hd2. apply write_Ok in He1 as [Hlt ->].
  split; [congruence|]. split; [reflexivity|]. split.
  - apply list_lookup_insert_eq, Hlt.
  - intros j Hj. apply list_lookup_insert_ne. lia.
Qed.

(** A pass keeps the tail of [e] zero, and the length of [d]. *)
Lemma loop_body_deflated_tail (s s' : state R) :
  1 < st_istop s → block_invariant s → deflated_tail s →
  loop_body want_u want_vt s = Ok s' →
  deflated_tail s' ∧ length (st_d s') = length (st_d s).
Proof.
  intros Hstop [Hb Hsz] Htail H. unfold loop_body in H.
  apply bind_Ok in H as (s1 & Hscan & H).
  pose proof (find_active_block_boundary _ _ _ Hb Hscan) as (Hb1 & Hsp1 & Hst1).
  apply find_active_block_tail in Hscan as [Hd1 He1]; [|lia].
  unfold deflated_tail, boundary in *.
  case_decide as H1.
  - injection H as <-. simpl. split; [|congruence]. intros j x Hj Hx.
    destruct (decide (j = st_istart s1 - 1)) as [->|Hne].
    + rewrite Hb1 in Hx by lia. congruence.
    + apply (Htail j); [lia|]. rewrite <- He1 by lia. exact Hx.
  - case_decide as H2.
    + apply block22_spec in H as (Hlen & Hsp & Hz & He).
      split; [|congruence]. intros j x Hj Hx.
      destruct (decide (j = st_istart s1)) as [->|Hne1]; [congruence|].
      rewrite He in Hx by exact Hne1.
      destruct (decide (j = st_istart s1 - 1)) as [->|Hne2].
      * rewrite Hb1 in Hx by lia. congruence.
      * apply (Htail j); [lia|]. rewrite <- He1 by lia. exact Hx.
    + pose proof (qr_sweep_length_d _ _ H) as Hlen.
      apply qr_sweep_frame in H as (_ & Hsp & He); [|lia].
      split; [|congruence]. intros j x Hj Hx.
      apply (Htail j); [lia|]. rewrite <- He1, <- He by lia. exact Hx.
Qed.

(** When the loop is left by [break], [e] is all zero. *)
Lemma main_loop_break (fuel : nat) (s s' : state R) :
  block_invariant s → deflated_tail s →
  main_loop want_u want_vt fuel s = Ok (Broke s') →
  length (st_d s') = length (st_d s) ∧ ∀ x, x ∈ st_e s' → x = zero.
Proof.
  revert s. induction fuel as [|fuel IH]; intros s Hinv Htail H; simpl in H.
  - discriminate.
  - case_decide as Hstop.
    + injection H as <-. split; [reflexivity|].
      intros x (j & Hj)%list_elem_of_lookup_1. apply (Htail j x); [lia|exact Hj].
    + apply bind_Ok in H as (s1 & Hbody & H).
      destruct (loop_body_deflated_tail s s1) as [Htail1 Hlen1];
        [lia|assumption..|].
      destruct (IH s1) as [Hlen He]; [|exact Htail1|exact H|].
      * eapply loop_body_block_invariant; [|exact Hinv|exact Hbody]. lia.
      * split; [congruence|exact He].
Qed.

(** X1: on the normal exit (the loop left by [break]) the routine returns
    0 with every off-diagonal zero and [d] non-negative and descending, as
    long as the values the loop leaves in [d] compare like ordinary
    numbers. *)
Theorem svd_qr_normal_exit (uplo : Uplo) (d e : list R) (U Vt : matrix R)
    (d1 e1 : list R) (U1 : matrix R) (s : state R) :
  length e = length d - 1 →
  lower_to_upper want_u uplo (length d) d e U = Ok (d1, e1, U1) →
  main_loop want_u want_vt (30 * length d) (State d1 e1 U1 Vt 0 (length d))
    = Ok (Broke s) →
  (∀ x, x ∈ st_d s → abs (made_positive x) = made_positive x) →
  (∀ x, x ∈ st_d s → leb zero (made_positive x) = true) →
  iamax_contract (made_positive <$> st_d s) →
  (want_u = true → cols_ok (length d) (st_U s)) →
  (want_vt = true → length d ≤ length (st_Vt s)) →
  ∃ d' U' Vt',
    svd_qr want_u want_vt uplo d e U Vt = Ok (0, (d', st_e s, U', Vt'))
    ∧ descending d'
    ∧ (∀ x, x ∈ d' → leb zero x = true)
    ∧ (∀ x, x ∈ st_e s → x = zero).
Proof.
  intros Hlen Hlow Hloop Habs Hpos Hiamax HU HVt.
  destruct (lower_to_upper_length _ _ _ _ _ _ _ _ _ Hlow) as [Hd1 He1].
  assert (block_invariant (State d1 e1 U1 Vt 0 (length d))) as Hinv
    by (unfold block_invariant, boundary; simpl; split; intros; lia).
  assert (deflated_tail (State d1 e1 U1 Vt 0 (length d))) as Htail
    by (intros j x Hj Hx; simpl in *; apply lookup_lt_Some in Hx; lia).
  destruct (main_loop_break _ _ _ Hinv Htail Hloop) as [Hlens Hzero].
  simpl in Hlens. rewrite Hd1 in Hlens.
  rewrite <- Hlens in HU, HVt.
  destruct (post_process_spec want_u want_vt (st_d s) (st_e s) (st_U s)
              (st_Vt s) Habs Hiamax HU HVt) as (sw & Hrun & Hperm & Hdesc).
  eexists _, _, _. split; [|split; [exact Hdesc|split; [|exact Hzero]]].
  - unfold svd_qr. case_decide as Hn.
    { rewrite Hn in Hloop. discriminate. }
    rewrite Hlow. cbn [mbind result_bind]. rewrite Hloop, <- Hlens.
    exact Hrun.
  - intros x Hx. rewrite Hperm in Hx.
    apply list_elem_of_fmap in Hx as (y & -> & Hy). apply Hpos, Hy.
Qed.
End NormalExit.

(** ** In-bounds runs *)

(** A counted loop whose passes all succeed on states with [P] succeeds. *)
Lemma for_range_ok {St} (P : St → Prop) (body : nat → St → result St)
    (cnt lo : nat) (s : St) :
  (∀ i a, lo ≤ i < lo + cnt → P a → ∃ a', body i a = Ok a' ∧ P a') →
  P s → ∃ s', for_range lo cnt body s = Ok s' ∧ P s'.
Proof.
  revert lo s. induction cnt as [|cnt IH]; intros lo s Hstep Hs.
  - exists s. auto.
  - destruct (Hstep lo s) as (a & Ha & HPa); [lia|exact Hs|].
    destruct (IH (S lo) a) as (s' & Hs' & HP'); [|exact HPa|].
    + intros i b Hi. apply Hstep. lia.
    + exists s'. simpl. rewrite Ha. auto.
Qed.

Section Views.
Context {R : Type}.

Lemma col_ok (M : matrix R) (j : nat) :
  Forall (λ r : list R, j < length r) M → ∃ v, col M j = Ok v.
Proof.
  induction 1 as [|r M Hr _ [v Hv]]; [exists []; reflexivity|].
  destruct (lookup_lt_is_Some_2 r j Hr) as [x Hx].
  exists (x :: v). simpl. rewrite (read_lookup _ _ _ Hx), Hv. reflexivity.
Qed.

Lemma set_col_cols_ok (n j : nat) (M : matrix R) (v : list R) :
  Forall (λ r : list R, n ≤ length r) M →
  Forall (λ r : list R, n ≤ length r) (set_col M j v).
Proof.
  intros HM. revert v. induction HM as [|r M Hr _ IH]; intros [|x v];
    unfold set_col; simpl; constructor.
  - rewrite length_insert. exact Hr.
  - apply IH.
Qed.

Lemma row_ok (M : matrix R) (i : nat) :
  i < length M → ∃ v, row M i = Ok v.
Proof.
  intros Hi. destruct (lookup_lt_is_Some_2 M i Hi) as [v Hv].
  exists v. unfold row. rewrite Hv. reflexivity.
Qed.
End Views.

Section InBounds.
Context {R : Type} `{!Scalar R, !Rotations R, !Blas1 R}.
Variables (want_u want_vt : bool) (n : nat).

Lemma update_U_ok (M : matrix R) (i : nat) (c sn : R) :
  (want_u = true → Forall (λ r : list R, n ≤ length r) M) → i + 1 < n →
  ∃ M', update_U want_u M i c sn = Ok M'
        ∧ (want_u = true → Forall (λ r : list R, n ≤ length r) M').
Proof.
  intros HM Hi. unfold update_U. destruct want_u; [|exists M; auto].
  specialize (HM eq_refl). unfold rot_cols.
  destruct (col_ok M i) as [u1 ->].
  { eapply Forall_impl; [exact HM|]. simpl. intros r Hr. lia. }
  destruct (col_ok M (i + 1)) as [u2 ->].
  { eapply Forall_impl; [exact HM|]. simpl. intros r Hr. lia. }
  cbn [mbind result_bind]. destruct (rot u1 u2 c sn) as [x y].
  eexists. split; [reflexivity|]. intros _.
  apply set_col_cols_ok, set_col_cols_ok, HM.
Qed.

Lemma update_Vt_ok (M : matrix R) (i : nat) (c sn : R) :
  (want_vt = true → n ≤ length M) → i + 1 < n →
  ∃ M', update_Vt want_vt M i c sn = Ok M'
        ∧ (want_vt = true → n ≤ length M').
Proof.
  intros HM Hi. unfold update_Vt. destruct want_vt; [|exists M; auto].
  specialize (HM eq_refl). unfold rot_rows.
  destruct (row_ok M i) as [v1 ->]; [lia|].
  destruct (row_ok M (i + 1)) as [v2 ->]; [lia|].
  cbn [mbind result_bind]. destruct (rot v1 v2 c sn) as [x y].
  eexists. split; [reflexivity|]. intros _.
  unfold set_row. rewrite !length_insert. exact HM.
Qed.

Ltac get_read l i :=
  let x := fresh "x" in
  let H := fresh "Hx" in
  destruct (lookup_lt_is_Some_2 l i) as [x H];
  [rewrite ?length_insert; try lia
  |rewrite (read_lookup _ _ _ H); cbn [mbind result_bind]].

Ltac next_read :=
  match goal with
  | |- ∃ _, (read ?l ?j ≫= _) = _ ∧ _ => get_read l j
  end.

Ltac do_write :=
  rewrite write_in_bounds by (rewrite ?length_insert; lia);
  cbn [mbind result_bind].

Lemma find_active_block_ok (i : nat) (s : state R) :
  buffers_ok want_u want_vt n s → i < n →
  ∃ s1, find_active_block i s = Ok s1
        ∧ buffers_ok want_u want_vt n s1 ∧ st_istop s1 = st_istop s
        ∧ (st_istart s1 = st_istart s ∨ st_istart s < st_istart s1 ≤ i).
Proof.
  intros Hs Hi. pose proof Hs as (Hd & He & Hdims).
  induction i as [|i IH]; simpl.
  - exists s. auto.
  - case_decide as Hlt; [|exists s; auto].
    get_read (st_e s) i. get_read (st_d s) (S i).
    destruct (negligible x x0).
    + do_write. eexists. split; [reflexivity|]. simpl.
      split; [|split; [reflexivity|right; lia]].
      split; [|split]; simpl; rewrite ?length_insert; auto.
    + destruct IH as (s1 & -> & Hs1 & Hstop & Hst); [lia|].
      exists s1. split; [reflexivity|]. split; [exact Hs1|]. split; [exact Hstop|].
      destruct Hst; [auto|right; lia].
Qed.

Lemma block22_ok (s : state R) :
  buffers_ok want_u want_vt n s → st_istart s + 1 < n →
  ∃ s', block22 want_u want_vt s = Ok s' ∧ buffers_ok want_u want_vt n s'
        ∧ st_istart s' = 0 ∧ st_istop s' = st_istop s - 2.
Proof.
  intros (Hd & He & HU & HVt) Hi. unfold block22.
  get_read (st_d s) (st_istart s). get_read (st_e s) (st_istart s).
  get_read (st_d s) (st_istart s + 1).
  destruct (svd22 x x0 x1) as [[[[[sigmn sigmx] csl] snl] csr] snr].
  do_write. do_write. do_write.
  destruct (update_U_ok (st_U s) (st_istart s) csl snl HU Hi) as (U' & -> & HU').
  destruct (update_Vt_ok (st_Vt s) (st_istart s) csr snr HVt Hi)
    as (Vt' & -> & HVt').
  cbn [mbind result_bind]. eexists. split; [reflexivity|].
  repeat split; simpl; rewrite ?length_insert; auto.
Qed.

Lemma compute_shift_ok (s : state R) :
  buffers_ok want_u want_vt n s → st_istart s < n → 0 < st_istop s < n →
  ∃ x, compute_shift s = Ok x.
Proof.
  intros (Hd & He & _) Hst Hsp. unfold compute_shift, shift_block.
  get_read (st_d s) (st_istart s). get_read (st_d s) (st_istop s - 1).
  get_read (st_e s) (st_istop s - 1). get_read (st_d s) (st_istop s).
  destruct (singularvalues22 x0 x1 x2). eexists. reflexivity.
Qed.

(** The shift of a block that ends at the last row reads [e[n - 1]]. *)
Lemma compute_shift_out_of_bounds (s : state R) :
  length (st_e s) < st_istop s →
  compute_shift s = OutOfBounds.
Proof.
  intros Hsp. unfold compute_shift, shift_block.
  destruct (read (st_d s) (st_istart s)); [|reflexivity].
  cbn [mbind result_bind].
  destruct (read (st_d s) (st_istop s - 1)); [|reflexivity].
  cbn [mbind result_bind]. rewrite (read_out_of_bounds (st_e s)) by lia. reflexivity.
Qed.

Lemma zero_shift_step_ok (s0 : state R) (ist i : nat)
    (a : state R * (R * R * R * R)) :
  same_block want_u want_vt n s0 a.1 → i + 1 < n →
  ∃ a', zero_shift_step want_u want_vt ist i a = Ok a' ∧ same_block want_u want_vt n s0 a'.1.
Proof.
  destruct a as [s [[[cs sn] oldcs] oldsn]].
  intros ((Hd & He & HU & HVt) & Hst & Hsp) Hi. simpl in *.
  unfold zero_shift_step.
  get_read (st_d s) i. get_read (st_e s) i.
  destruct (lartg (mul x cs) x0) as [[cs1 sn1] r].
  assert (∃ e1, (if decide (ist < i) then write (st_e s) (i - 1) (mul oldsn r)
                 else Ok (st_e s)) = Ok e1 ∧ length e1 = n - 1)
    as (e1 & -> & He1).
  { case_decide; [|eauto]. do_write. eexists. split; [reflexivity|].
    rewrite length_insert. exact He. }
  cbn [mbind result_bind]. get_read (st_d s) (i + 1).
  destruct (lartg _ _) as [[oldcs1 oldsn1] r'].
  do_write.
  destruct (update_U_ok (st_U s) i oldcs1 oldsn1 HU Hi) as (U' & -> & HU').
  destruct (update_Vt_ok (st_Vt s) i cs1 sn1 HVt Hi) as (Vt' & -> & HVt').
  cbn [mbind result_bind]. eexists. split; [reflexivity|].
  repeat split; simpl; rewrite ?length_insert; auto.
Qed.

Lemma shifted_step_ok (s0 : state R) (ist istop i : nat)
    (a : state R * (R * R)) :
  same_block want_u want_vt n s0 a.1 → i + 1 < n → istop ≤ n →
  ∃ a', shifted_step want_u want_vt ist istop i a = Ok a'
        ∧ same_block want_u want_vt n s0 a'.1.
Proof.
  destruct a as [s [f g]].
  intros ((Hd & He & HU & HVt) & Hst & Hsp) Hi Hstop. simpl in *.
  unfold shifted_step.
  destruct (lartg f g) as [[csr snr] r].
  assert (∃ e1, (if decide (ist < i) then write (st_e s) (i - 1) r
                 else Ok (st_e s)) = Ok e1 ∧ length e1 = n - 1)
    as (e1 & -> & He1).
  { case_decide; [|eauto]. do_write. eexists. split; [reflexivity|].
    rewrite length_insert. exact He. }
  cbn [mbind result_bind].
  get_read (st_d s) i. get_read e1 i. do_write.
  get_read (st_d s) (i + 1). do_write.
  destruct (lartg _ _) as [[csl snl] r1].
  do_write.
  next_read. next_read. do_write.
  match goal with
  | |- context [if decide (i + 1 < istop - 1) then ?t else Ok (?e2, ?g2)] =>
    assert (∃ e3 g3, (if decide (i + 1 < istop - 1) then t else Ok (e2, g2))
                     = Ok (e3, g3) ∧ length e3 = n - 1) as (e3 & g3 & -> & He3)
  end.
  { case_decide as Hn; [|eexists _, _; split; [reflexivity|];
                         rewrite length_insert; exact He1].
    match goal with |- context [read ?l (i + 1)] => get_read l (i + 1) end.
    do_write. eexists _, _. split; [reflexivity|].
    rewrite !length_insert. exact He1. }
  cbn [mbind result_bind].
  destruct (update_U_ok (st_U s) i csl snl HU Hi) as (U' & -> & HU').
  destruct (update_Vt_ok (st_Vt s) i csr snr HVt Hi) as (Vt' & -> & HVt').
  cbn [mbind result_bind]. eexists. split; [reflexivity|].
  repeat split; simpl; rewrite ?length_insert; auto.
Qed.

Lemma zero_shift_sweep_ok (s : state R) :
  buffers_ok want_u want_vt n s → st_istart s + 2 < st_istop s → st_istop s ≤ n →
  ∃ s', zero_shift_sweep want_u want_vt s = Ok s' ∧ same_block want_u want_vt n s s'.
Proof.
  intros Hs Hst Hsp. unfold zero_shift_sweep.
  destruct (for_range_ok (λ a : state R * (R * R * R * R), same_block want_u want_vt n s a.1)
              (zero_shift_step want_u want_vt (st_istart s))
              (st_istop s - 1 - st_istart s) (st_istart s)
              (s, (one, zero, one, zero)))
    as ([s1 [[[cs sn] oldcs] oldsn]] & -> & (Hd & He & HU & HVt) & Hst1 & Hsp1).
  { intros i a Hi Ha. apply zero_shift_step_ok; [exact Ha|lia]. }
  { split; [exact Hs|auto]. }
  simpl in *. cbn [mbind result_bind].
  get_read (st_d s1) (st_istop s - 1). do_write. do_write.
  eexists. split; [reflexivity|].
  repeat split; simpl; rewrite ?length_insert; auto.
Qed.

Lemma shifted_sweep_ok (shift : R) (s : state R) :
  buffers_ok want_u want_vt n s → st_istart s + 2 < st_istop s → st_istop s ≤ n →
  ∃ s', shifted_sweep want_u want_vt shift s = Ok s' ∧ same_block want_u want_vt n s s'.
Proof.
  intros Hs Hst Hsp. pose proof Hs as (Hd0 & He0 & _). unfold shifted_sweep.
  get_read (st_d s) (st_istart s). get_read (st_e s) (st_istart s).
  match goal with
  | |- context [for_range _ _ _ (s, ?fg)] =>
    destruct (for_range_ok (λ a : state R * (R * R), same_block want_u want_vt n s a.1)
                (shifted_step want_u want_vt (st_istart s) (st_istop s))
                (st_istop s - 1 - st_istart s) (st_istart s) (s, fg))
      as ([s1 [f g]] & -> & (Hd & He & HU & HVt) & Hst1 & Hsp1)
  end.
  { intros i a Hi Ha. apply shifted_step_ok; [exact Ha|lia|lia]. }
  { split; [exact Hs|auto]. }
  simpl in *. cbn [mbind result_bind]. do_write.
  eexists. split; [reflexivity|].
  repeat split; simpl; rewrite ?length_insert; auto.
Qed.

Lemma qr_sweep_ok (s : state R) :
  buffers_ok want_u want_vt n s → st_istart s + 2 < st_istop s → st_istop s < n →
  ∃ s', qr_sweep want_u want_vt s = Ok s' ∧ same_block want_u want_vt n s s'.
Proof.
  intros Hs Hst Hsp. unfold qr_sweep.
  destruct (compute_shift_ok s Hs) as (shift & ->); [lia|lia|].
  cbn [mbind result_bind]. destruct (eqb shift zero).
  - apply zero_shift_sweep_ok; [exact Hs|lia|lia].
  - apply shifted_sweep_ok; [exact Hs|lia|lia].
Qed.

Lemma qr_sweep_out_of_bounds (s : state R) :
  buffers_ok want_u want_vt n s → st_istop s = n → 0 < n →
  qr_sweep want_u want_vt s = OutOfBounds.
Proof.
  intros (_ & He & _) Hsp Hn. unfold qr_sweep.
  rewrite compute_shift_out_of_bounds by lia. reflexivity.
Qed.

Lemma loop_body_ok (s : state R) :
  buffers_ok want_u want_vt n s → 2 ≤ st_istop s → st_istop s ≤ n →
  st_istart s < st_istop s →
  ∃ s1, find_active_block (st_istop s - 1) s = Ok s1
        ∧ st_istart s1 < st_istop s
        ∧ (st_istart s1 + 3 ≤ st_istop s → st_istop s = n →
           loop_body want_u want_vt s = OutOfBounds)
        ∧ (st_istop s < n ∨ st_istop s < st_istart s1 + 3 →
           ∃ s', loop_body want_u want_vt s = Ok s' ∧ inner_block want_u want_vt n s').
Proof.
  intros Hs H2 Hn Hst. unfold loop_body.
  destruct (find_active_block_ok (st_istop s - 1) s Hs)
    as (s1 & Hscan & Hs1 & Hsp1 & Hst1); [lia|].
  exists s1. rewrite Hscan. cbn [mbind result_bind]. rewrite Hsp1.
  split; [reflexivity|]. split; [lia|]. split.
  - intros H3 Hlast. rewrite !decide_False by lia.
    apply qr_sweep_out_of_bounds; [exact Hs1|lia|lia].
  - intros Hin. pose proof Hs1 as (Hd & He & Hdims).
    case_decide as H1; [|case_decide as H22].
    + eexists. split; [reflexivity|].
      split; [exact Hs1|]. simpl. lia.
    + destruct (block22_ok s1 Hs1) as (s' & -> & Hs' & Hst' & Hsp'); [lia|].
      exists s'. split; [reflexivity|]. split; [exact Hs'|]. lia.
    + destruct (qr_sweep_ok s1 Hs1) as (s' & -> & Hs' & Hst' & Hsp'); [lia|lia|].
      exists s'. split; [reflexivity|]. split; [exact Hs'|]. lia.
Qed.

Lemma loop_body_inner (s : state R) :
  inner_block want_u want_vt n s → 2 ≤ st_istop s →
  ∃ s', loop_body want_u want_vt s = Ok s' ∧ inner_block want_u want_vt n s'.
Proof.
  intros (Hs & Hn & Hst) H2.
  destruct (loop_body_ok s Hs) as (s1 & _ & _ & _ & Hok); [lia..|].
  apply Hok. lia.
Qed.

Lemma main_loop_ok (fuel : nat) (s : state R) :
  inner_block want_u want_vt n s →
  ∃ o, main_loop want_u want_vt fuel s = Ok o ∧ buffers_ok want_u want_vt n (outcome_state o).
Proof.
  revert s. induction fuel as [|fuel IH]; intros s Hs; simpl.
  - eexists. split; [reflexivity|]. apply Hs.
  - case_decide as H1.
    + eexists. split; [reflexivity|]. apply Hs.
    + destruct (loop_body_inner s Hs) as (s' & -> & Hs'); [lia|].
      cbn [mbind result_bind]. apply IH, Hs'.
Qed.

Lemma lower_to_upper_ok (uplo : Uplo) (d e : list R) (U : matrix R) :
  length d = n → length e = n - 1 → (want_u = true → cols_ok n U) →
  ∃ d1 e1 U1, lower_to_upper want_u uplo n d e U = Ok (d1, e1, U1)
              ∧ length d1 = n ∧ length e1 = n - 1
              ∧ (want_u = true → cols_ok n U1).
Proof.
  intros Hd He HU. destruct uplo; simpl; [eexists _, _, _; eauto|].
  destruct (for_range_ok
              (λ a : list R * list R * matrix R,
                 length a.1.1 = n ∧ length a.1.2 = n - 1
                 ∧ (want_u = true → cols_ok n a.2))
              (lower_to_upper_step want_u) (n - 1) 0 (d, e, U))
    as ([[d1 e1] U1] & Hrun & Hinv); [|simpl; auto|eexists _, _, _; eauto].
  intros i [[d0 e0] U0] Hi (Hd0 & He0 & HU0). simpl in *.
  unfold lower_to_upper_step.
  get_read d0 i. get_read e0 i.
  destruct (lartg x x0) as [[c sn] r]. do_write. next_read. do_write. do_write.
  destruct (update_U_ok U0 i c sn HU0) as (U' & -> & HU'); [lia|].
  cbn [mbind result_bind]. eexists. split; [reflexivity|].
  simpl. rewrite ?length_insert. auto.
Qed.

Hypothesis iamax_in_range : ∀ l : list R, l ≠ [] → iamax l < length l.

Lemma make_positive_step_ok (i : nat) (a : list R * matrix R) :
  length a.1 = n → (want_vt = true → n ≤ length a.2) → i < n →
  ∃ a', make_positive_step want_vt i a = Ok a'
        ∧ length a'.1 = n ∧ (want_vt = true → n ≤ length a'.2).
Proof.
  destruct a as [d Vt]. simpl. intros Hd HVt Hi. unfold make_positive_step.
  get_read d i. destruct (ltb x zero); [|eexists; split; [reflexivity|auto]].
  do_write. destruct want_vt.
  - destruct (row_ok Vt i) as (v & ->); [specialize (HVt eq_refl); lia|].
    cbn [mbind result_bind]. eexists. split; [reflexivity|]. simpl.
    unfold set_row. rewrite !length_insert. auto.
  - cbn [mbind result_bind]. eexists. split; [reflexivity|]. simpl.
    rewrite length_insert. auto.
Qed.

Lemma sort_step_ok (i : nat) (a : list R * matrix R * matrix R) :
  length a.1.1 = n → dims_ok want_u want_vt n a.1.2 a.2 → i < n →
  ∃ a', sort_step want_u want_vt n i a = Ok a'
        ∧ length a'.1.1 = n ∧ dims_ok want_u want_vt n a'.1.2 a'.2.
Proof.
  destruct a as [[d U] Vt]. simpl. intros Hd [HU HVt] Hi. unfold sort_step.
  assert (iamax (slice d i n) < n - i) as Hmax.
  { assert (length (slice d i n) = n - i) as Hlen.
    { unfold slice. rewrite length_take, length_drop. lia. }
    rewrite <- Hlen. apply iamax_in_range. intros Hnil.
    rewrite Hnil in Hlen. simpl in Hlen. lia. }
  set (imax := i + iamax (slice d i n)) in *.
  assert (imax < n) as Himax by (unfold imax; lia). clearbody imax.
  case_decide as Hne; [|eexists; split; [reflexivity|split; [auto|split; auto]]].
  unfold swap_entries. get_read d imax. get_read d i. do_write. do_write.
  assert (∃ U', (if want_u then swap_cols U imax i else Ok U) = Ok U'
                ∧ (want_u = true → cols_ok n U')) as (U' & -> & HU').
  { destruct want_u; [|eauto]. specialize (HU eq_refl). unfold swap_cols.
    destruct (col_ok U imax) as (u1 & ->).
    { eapply Forall_impl; [exact HU|]. simpl. intros; lia. }
    destruct (col_ok U i) as (u2 & ->).
    { eapply Forall_impl; [exact HU|]. simpl. intros; lia. }
    cbn [mbind result_bind]. eexists. split; [reflexivity|]. intros _.
    apply set_col_cols_ok, set_col_cols_ok, HU. }
  assert (∃ Vt', (if want_vt then swap_rows Vt imax i else Ok Vt) = Ok Vt'
                 ∧ (want_vt = true → n ≤ length Vt')) as (Vt' & -> & HVt').
  { destruct want_vt; [|eauto]. specialize (HVt eq_refl). unfold swap_rows.
    destruct (row_ok Vt imax) as (v1 & ->); [lia|].
    destruct (row_ok Vt i) as (v2 & ->); [lia|].
    cbn [mbind result_bind]. eexists. split; [reflexivity|]. intros _.
    unfold set_row. rewrite !length_insert. exact HVt. }
  cbn [mbind result_bind]. eexists. split; [reflexivity|]. simpl.
  rewrite !length_insert. split; [exact Hd|split; auto].
Qed.

Lemma post_process_ok (d e : list R) (U Vt : matrix R) :
  length d = n → dims_ok want_u want_vt n U Vt →
  ∃ d' U' Vt', post_process want_u want_vt n d e U Vt
               = Ok (0, (d', e, U', Vt')).
Proof.
  intros Hd [HU HVt]. unfold post_process.
  destruct (for_range_ok
              (λ a : list R * matrix R,
                 length a.1 = n ∧ (want_vt = true → n ≤ length a.2))
              (make_positive_step want_vt) n 0 (d, Vt))
    as ([d1 Vt1] & -> & Hd1 & HVt1); [|simpl; auto|].
  { intros i a Hi [Ha1 Ha2]. apply make_positive_step_ok; [auto|auto|lia]. }
  simpl in *. cbn [mbind result_bind].
  destruct (for_range_ok
              (λ a : list R * matrix R * matrix R,
                 length a.1.1 = n ∧ dims_ok want_u want_vt n a.1.2 a.2)
              (sort_step want_u want_vt n) (n - 1) 0 (d1, U, Vt1))
    as ([[d2 U2] Vt2] & -> & _); [|simpl; split; [auto|split; auto]|].
  { intros i a Hi [Ha1 Ha2]. apply sort_step_ok; [auto|auto|lia]. }
  cbn [mbind result_bind]. eexists _, _, _. reflexivity.
Qed.
End InBounds.

Section MemorySafety.
Context {R : Type} `{!Scalar R, !Rotations R, !Blas1 R}.
Variables (want_u want_vt : bool).

Lemma first_scan_tail (s s1 : state R) :
  buffers_ok want_u want_vt (length (st_d s)) s → st_istart s = 0 →
  3 ≤ length (st_d s) →
  find_active_block (length (st_d s) - 1) s = Ok s1 →
  st_istart s1 + 3 ≤ length (st_d s) ↔ tail_coupled (st_d s) (st_e s) = true.
Proof.
  intros Hs Hst Hn. pose proof Hs as (_ & He & _).
  unfold tail_coupled. rewrite bool_decide_true by lia.
  destruct (length (st_d s)) as [|[|[|k]]] eqn:Hlen; [lia..|].
  replace (S (S (S k)) - 1) with (S (S k)) in * by lia.
  replace (S (S (S k)) - 2) with (S k) by lia.
  replace (S (S (S k)) - 3) with k by lia.
  destruct (lookup_lt_is_Some_2 (st_e s) (S k)) as [x Hx]; [lia|].
  destruct (lookup_lt_is_Some_2 (st_d s) (S (S k))) as [y Hy]; [lia|].
  destruct (lookup_lt_is_Some_2 (st_e s) k) as [z Hz]; [lia|].
  destruct (lookup_lt_is_Some_2 (st_d s) (S k)) as [w Hw]; [lia|].
  rewrite Hx, Hy, Hz, Hw.
  cbn [find_active_block]. rewrite !decide_True by lia.
  rewrite (read_lookup _ _ _ Hx), (read_lookup _ _ _ Hy).
  cbn [mbind result_bind]. destruct (negligible x y).
  { rewrite write_in_bounds by lia. cbn [mbind result_bind].
    intros [= <-]. simpl. split; [lia|discriminate]. }
  rewrite (read_lookup _ _ _ Hz), (read_lookup _ _ _ Hw).
  cbn [mbind result_bind]. destruct (negligible z w).
  { rewrite write_in_bounds by lia. cbn [mbind result_bind].
    intros [= <-]. simpl. split; [lia|discriminate]. }
  intros Hscan.
  destruct (find_active_block_ok want_u want_vt (S (S (S k))) k s Hs)
    as (s1' & Hscan' & _ & _ & Hst1); [lia|].
  rewrite Hscan in Hscan'. injection Hscan' as <-.
  simpl. split; [reflexivity|lia].
Qed.

(** X4: for buffers of the documented dimensions, and an [iamax] that
    returns an index of its argument, [svd_qr] leaves the arrays exactly when
    the matrix (brought to upper bidiagonal form) has at least three rows and
    neither of its last two off-diagonals passes the deflation test of the
    first pass; on every other input every read and write of every pass, of
    the sign loop and of the sort is in bounds. *)
Theorem svd_qr_out_of_bounds_iff (uplo : Uplo) (d e : list R)
    (U Vt : matrix R) :
  length e = length d - 1 →
  dims_ok want_u want_vt (length d) U Vt →
  (∀ l : list R, l ≠ [] → iamax l < length l) →
  ∃ d1 e1 U1,
    lower_to_upper want_u uplo (length d) d e U = Ok (d1, e1, U1)
    ∧ (svd_qr want_u want_vt uplo d e U Vt = OutOfBounds
       ↔ tail_coupled d1 e1 = true).
Proof.
  intros He [HU HVt] Hiamax.
  destruct (lower_to_upper_ok want_u (length d) uplo d e U eq_refl He HU)
    as (d1 & e1 & U1 & Hlow & Hd1 & He1 & HU1).
  exists d1, e1, U1. split; [exact Hlow|].
  unfold svd_qr. case_decide as Hn.
  { split; [discriminate|]. unfold tail_coupled.
    rewrite bool_decide_false by lia. discriminate. }
  rewrite Hlow. cbn [mbind result_bind].
  set (s0 := State d1 e1 U1 Vt 0 (length d)).
  assert (buffers_ok want_u want_vt (length d) s0) as Hs0.
  { split; [exact Hd1|split; [exact He1|split; [exact HU1|exact HVt]]]. }
  destruct (30 * length d) as [|fuel] eqn:Hfuel; [lia|].
  cbn [main_loop]. case_decide as H1; cbn [mbind result_bind].
  { destruct (post_process_ok want_u want_vt (length d) Hiamax d1 e1 U1 Vt Hd1)
      as (d' & U' & Vt' & Hpost); [split; [exact HU1|exact HVt]|].
    simpl in *. rewrite Hpost. split; [discriminate|].
    unfold tail_coupled. rewrite bool_decide_false by lia. discriminate. }
  simpl in H1.
  destruct (loop_body_ok want_u want_vt (length d) s0 Hs0)
    as (s1 & Hscan & _ & Hoob & Hok); [simpl; lia..|].
  simpl in Hscan, Hoob, Hok.
  destruct (decide (st_istart s1 + 3 ≤ length d)) as [H3|H3].
  - rewrite Hoob by auto. cbn [mbind result_bind].
    split; [intros _|reflexivity].
    rewrite <- Hd1 in Hscan, H3.
    apply (first_scan_tail s0 s1); simpl; auto; try lia.
    rewrite Hd1. exact Hs0.
  - destruct Hok as (s' & -> & Hs'); [lia|]. cbn [mbind result_bind].
    destruct (main_loop_ok want_u want_vt (length d) fuel s' Hs')
      as (o & -> & Ho).
    cbn [mbind result_bind].
    assert (tail_coupled d1 e1 = false) as ->.
    { destruct (decide (3 ≤ length d)) as [Hn3|Hn3].
      - apply not_true_is_false. intros Htc. apply H3.
        rewrite <- Hd1 in Hscan |- *.
        apply (first_scan_tail s0 s1); simpl; auto; try lia.
        rewrite Hd1. exact Hs0.
      - unfold tail_coupled. rewrite bool_decide_false by lia. reflexivity. }
    destruct o as [code s2|s2]; simpl in Ho.
    + split; discriminate.
    + destruct Ho as (Hd2 & _ & Hdims2).
      destruct (post_process_ok want_u want_vt (length d) Hiamax
                  (st_d s2) (st_e s2) (st_U s2) (st_Vt s2) Hd2 Hdims2)
        as (d' & U' & Vt' & ->).
      split; discriminate.
Qed.
End MemorySafety.

(** ** The returned status *)

Section Status.
Context {R : Type} `{!Scalar R, !Rotations R, !Blas1 R}.
Variables (want_u want_vt : bool).

(** A pass never moves [istop] up. *)
Lemma loop_body_istop (s s' : state R) :
  1 < st_istop s → block_invariant s →
  loop_body want_u want_vt s = Ok s' →
  st_istop s' ≤ st_istop s.
Proof.
  intros Hstop [Hb Hsz] H. unfold loop_body in H.
  apply bind_Ok in H as (s1 & Hscan & H).
  apply find_active_block_boundary in Hscan as (Hb1 & Hsp1 & Hst1); [|exact Hb].
  case_decide as H1; [injection H as <-; simpl; lia|].
  case_decide as H2.
  - apply block22_spec in H as (_ & -> & _). lia.
  - apply qr_sweep_frame in H as (_ & -> & _); lia.
Qed.

Lemma main_loop_outcome (fuel : nat) (s : state R) (o : outcome R) :
  block_invariant s → deflated_tail s →
  main_loop want_u want_vt fuel s = Ok o →
  st_istop (outcome_state o) ≤ st_istop s
  ∧ deflated_tail (outcome_state o)
  ∧ length (st_d (outcome_state o)) = length (st_d s)
  ∧ match o with
    | Returned code s' =>
        code = st_istop s' ∧ after_passes want_u want_vt fuel s = Some s'
    | Broke s' => st_istop s' ≤ 1
    end.
Proof.
  revert s. induction fuel as [|fuel IH]; intros s Hinv Htail H; simpl in H.
  - injection H as <-. simpl. repeat split; auto; lia.
  - simpl. case_decide as Hstop.
    + injection H as <-. simpl. repeat split; auto; lia.
    + apply bind_Ok in H as (s1 & Hbody & H). rewrite Hbody.
      destruct (loop_body_deflated_tail want_u want_vt s s1)
        as [Htail1 Hlen1]; [lia|assumption..|].
      pose proof (loop_body_istop s s1) as Hle.
      destruct (IH s1) as (Hle' & Htail' & Hlen' & Ho);
        [|exact Htail1|exact H|].
      { eapply loop_body_block_invariant; [|exact Hinv|exact Hbody]. lia. }
      split; [|split; [exact Htail'|split; [congruence|exact Ho]]].
      specialize (Hle ltac:(lia) Hinv Hbody). lia.
Qed.

Lemma make_positive_step_length (i : nat) (a a' : list R * matrix R) :
  make_positive_step want_vt i a = Ok a' → length a'.1 = length a.1.
Proof.
  destruct a as [d Vt]. unfold make_positive_step. intros H.
  apply bind_Ok in H as (x & _ & H).
  destruct (ltb x zero); [|injection H as <-; reflexivity].
  apply bind_Ok in H as (d1 & Hd1 & H). apply bind_Ok in H as (Vt1 & _ & H).
  injection H as <-. simpl. eapply write_length, Hd1.
Qed.

Lemma sort_step_length (n i : nat) (a a' : list R * matrix R * matrix R) :
  sort_step want_u want_vt n i a = Ok a' → length a'.1.1 = length a.1.1.
Proof.
  destruct a as [[d U] Vt]. unfold sort_step. intros H.
  case_decide; [|injection H as <-; reflexivity].
  apply bind_Ok in H as (d1 & Hd1 & H). apply bind_Ok in H as (U1 & _ & H).
  apply bind_Ok in H as (Vt1 & _ & H). injection H as <-. simpl.
  unfold swap_entries in Hd1.
  apply bind_Ok in Hd1 as (x & _ & Hd1). apply bind_Ok in Hd1 as (y & _ & Hd1).
  apply bind_Ok in Hd1 as (d2 & Hd2 & Hd1).
  apply write_length in Hd1, Hd2. congruence.
Qed.

(** The post-processing returns 0, keeps [e] and the length of [d]. *)
Lemma post_process_status (n code : nat) (d e d' e' : list R)
    (U Vt U' Vt' : matrix R) :
  post_process want_u want_vt n d e U Vt = Ok (code, (d', e', U', Vt')) →
  code = 0 ∧ e' = e ∧ length d' = length d.
Proof.
  unfold post_process. intros H.
  apply bind_Ok in H as ([d1 Vt1] & H1 & H).
  apply bind_Ok in H as ([[d2 U2] Vt2] & H2 & H).
  injection H as <- <- <- <- <-.
  apply (for_range_invariant (λ _ a, length a.1 = length d)) in H1;
    [|intros i a a' _ Ha Hstep;
      apply make_positive_step_length in Hstep; congruence|reflexivity].
  apply (for_range_invariant (λ _ a, length a.1.1 = length d)) in H2;
    [|intros i a a' _ Ha Hstep;
      apply sort_step_length in Hstep; congruence|exact H1].
  auto.
Qed.

(** The state the main loop starts from. *)
Lemma initial_state_invariant (d e : list R) (U Vt : matrix R) :
  length e = length d - 1 →
  block_invariant (State d e U Vt 0 (length d))
  ∧ deflated_tail (State d e U Vt 0 (length d)).
Proof.
  intros He. split.
  - unfold block_invariant, boundary; simpl; split; intros; lia.
  - intros j x Hj Hx. simpl in *. apply lookup_lt_Some in Hx. lia.
Qed.

(** X2: in a run of [svd_qr] that returns, the status is at most [n] (no
    pass moves [istop] up), and on exit every off-diagonal [e[j]] with
    [j >= status - 1] is exactly zero: at most [status - 1] off-diagonals
    are left non-zero, and none when the status is 0 or 1.  The length of
    [d] is kept. *)
Theorem svd_qr_status_bounds_nonzero_offdiagonals (uplo : Uplo)
    (d e d' e' : list R) (U Vt U' Vt' : matrix R) (code : nat) :
  length e = length d - 1 →
  svd_qr want_u want_vt uplo d e U Vt = Ok (code, (d', e', U', Vt')) →
  code ≤ length d
  ∧ (∀ j x, code - 1 ≤ j → e' !! j = Some x → x = zero)
  ∧ length d' = length d.
Proof.
  intros He H. unfold svd_qr in H. case_decide as Hn.
  { injection H as <- <- <- <- <-. split; [lia|]. split; [|reflexivity].
    intros j x _ Hx. apply lookup_lt_Some in Hx. lia. }
  apply bind_Ok in H as ([[d1 e1] U1] & Hlow & H).
  apply lower_to_upper_length in Hlow as [Hd1 He1].
  apply bind_Ok in H as (o & Hloop & H).
  destruct (initial_state_invariant d1 e1 U1 Vt) as [Hinv Htail]; [lia|].
  rewrite Hd1 in Hinv, Htail.
  destruct (main_loop_outcome _ _ _ Hinv Htail Hloop)
    as (Hle & Htail' & Hlen' & Ho).
  simpl in Hle, Hlen'.
  destruct o as [c s|s]; simpl in *.
  - destruct Ho as [-> _]. injection H as <- <- <- <- <-.
    split; [exact Hle|]. split; [exact Htail'|congruence].
  - apply post_process_status in H as (-> & -> & Hlen).
    split; [lia|]. split; [|congruence].
    intros j x _ Hx. apply (Htail' j x); [lia|exact Hx].
Qed.

(** X3: a non-zero status comes from the budget check alone: all [30 * n]
    passes of the loop body have run, the status is the [istop] they leave,
    and the buffers are returned as the last pass left them, without sign
    normalisation or sort. *)
Theorem svd_qr_nonzero_status_spent_budget (uplo : Uplo)
    (d e d' e' : list R) (U Vt U' Vt' : matrix R) (code : nat) :
  svd_qr want_u want_vt uplo d e U Vt = Ok (code, (d', e', U', Vt')) →
  code ≠ 0 →
  ∃ d1 e1 U1 s,
    lower_to_upper want_u uplo (length d) d e U = Ok (d1, e1, U1)
    ∧ after_passes want_u want_vt (30 * length d)
        (State d1 e1 U1 Vt 0 (length d)) = Some s
    ∧ st_istop s = code
    ∧ (d', e', U', Vt') = (st_d s, st_e s, st_U s, st_Vt s).
Proof.
  intros H Hcode. unfold svd_qr in H. case_decide as Hn.
  { injection H as <- <- <- <- <-. congruence. }
  apply bind_Ok in H as ([[d1 e1] U1] & Hlow & H).
  apply bind_Ok in H as (o & Hloop & H).
  exists d1, e1, U1. destruct o as [c s|s].
  - injection H as <- <- <- <- <-. exists s. split; [exact Hlow|].
    revert Hloop. generalize (30 * length d). generalize (State d1 e1 U1 Vt 0 (length d)).
    intros s0 fuel. revert s0. induction fuel as [|fuel IH]; intros s0 Hloop.
    + simpl in Hloop. injection Hloop as <- <-. auto.
    + simpl in *. case_decide; [discriminate|].
      apply bind_Ok in Hloop as (s1 & -> & Hloop). apply IH, Hloop.
  - apply post_process_status in H as (-> & _). congruence.
Qed.
End Status.

(** ** Small matrices *)

Section Small.
Context {R : Type} `{!Scalar R, !Rotations R, !Blas1 R}.
Variables (want_u want_vt : bool).

Lemma main_loop_S (fuel : nat) (s : state R) :
  main_loop want_u want_vt (S fuel) s
  = if decide (st_istop s ≤ 1) then Ok (Broke s)
    else s' ← loop_body want_u want_vt s; main_loop want_u want_vt fuel s'.
Proof. reflexivity. Qed.

(** X5: a 2-by-2 matrix always converges: with buffers of the documented
    dimensions the status is 0 and the off-diagonal is exactly zero on
    exit, whatever the entries (no iteration is involved: one pass either
    splits the block or solves it in closed form). *)
Theorem svd_qr_two_by_two (uplo : Uplo) (x y g : R) (U Vt : matrix R) :
  dims_ok want_u want_vt 2 U Vt →
  (∀ l : list R, l ≠ [] → iamax l < length l) →
  ∃ d' U' Vt',
    svd_qr want_u want_vt uplo [x; y] [g] U Vt = Ok (0, (d', [zero], U', Vt')).
Proof.
  intros [HU HVt] Hiamax.
  destruct (lower_to_upper_ok want_u 2 uplo [x; y] [g] U eq_refl eq_refl HU)
    as (d1 & e1 & U1 & Hlow & Hd1 & He1 & HU1).
  unfold svd_qr. simpl length. rewrite decide_False by lia.
  rewrite Hlow. cbn [mbind result_bind].
  set (s0 := State d1 e1 U1 Vt 0 2).
  assert (buffers_ok want_u want_vt 2 s0) as Hs0.
  { split; [exact Hd1|split; [exact He1|split; [exact HU1|exact HVt]]]. }
  assert (∃ s, main_loop want_u want_vt (30 * 2) s0 = Ok (Broke s)
               ∧ buffers_ok want_u want_vt 2 s) as (s & Hloop & Hs).
  { change (30 * 2) with (S (S 58)). generalize 58. intros fuel.
    rewrite main_loop_S, decide_False by (simpl; lia).
    unfold loop_body.
    destruct (find_active_block_ok want_u want_vt 2 1 s0 Hs0)
      as (s1 & Hscan & Hs1 & Hsp1 & Hst1); [lia|].
    change (st_istop s0 - 1) with 1. rewrite Hscan.
    cbn [mbind result_bind]. rewrite Hsp1. change (st_istop s0) with 2.
    change (st_istart s0) with 0 in Hst1.
    case_decide as H1.
    - cbn [mbind result_bind].
      rewrite main_loop_S, decide_True by (simpl; lia).
      eexists. split; [reflexivity|]. exact Hs1.
    - rewrite decide_True by lia.
      destruct (block22_ok want_u want_vt 2 s1 Hs1)
        as (s' & -> & Hs' & Hst' & Hsp'); [lia|].
      cbn [mbind result_bind].
      rewrite main_loop_S, decide_True by (rewrite Hsp', Hsp1; simpl; lia).
      eexists. split; [reflexivity|]. exact Hs'. }
  rewrite Hloop. cbn [mbind result_bind].
  destruct Hs as (Hd & He & Hdims).
  destruct (post_process_ok want_u want_vt 2 Hiamax (st_d s) (st_e s)
              (st_U s) (st_Vt s) Hd Hdims) as (d' & U' & Vt' & ->).
  destruct (initial_state_invariant d1 e1 U1 Vt) as [Hinv Htail]; [lia|].
  rewrite Hd1 in Hinv, Htail.
  destruct (main_loop_break want_u want_vt _ _ _ Hinv Htail Hloop)
    as [_ Hzero].
  destruct (st_e s) as [|z [|? ?]]; simpl in He; try lia.
  rewrite (Hzero z) by apply list_elem_of_here.
  eexists _, _, _. reflexivity.
Qed.

(** X7: a 1-by-1 matrix: no rotation is computed and [U] is returned as
    passed; [d[0]] becomes non-negative, and row 0 of [Vt] is negated with
    it when [want_vt]. *)
Theorem svd_qr_one_by_one (uplo : Uplo) (x : R) (e : list R)
    (U Vt : matrix R) :
  (want_vt = true → Vt ≠ []) →
  svd_qr want_u want_vt uplo [x] e U Vt
  = Ok (0, ([made_positive x], e, U,
            if want_vt then negate_rows [x] Vt else Vt)).
Proof.
  intros HVt. unfold svd_qr. simpl length. rewrite decide_False by lia.
  assert (lower_to_upper want_u uplo 1 [x] e U = Ok ([x], e, U)) as ->
    by (destruct uplo; reflexivity).
  cbn [mbind result_bind]. change (30 * 1) with (S 29). cbn [main_loop].
  rewrite decide_True by (simpl; lia). cbn [mbind result_bind].
  unfold post_process. cbn [for_range]. unfold make_positive_step.
  simpl. unfold made_positive. destruct (ltb x zero); [|destruct want_vt, Vt; reflexivity].
  simpl. destruct want_vt; [|reflexivity].
  destruct Vt as [|r Vt]; [destruct (HVt eq_refl eq_refl)|]. reflexivity.
Qed.
End Small.

Section IamaxRange.
Context {R : Type} `{!Scalar R}.

Lemma iamax_from_lt (x : list R) (i best : nat) (bmax : R) :
  best < i → iamax_from x i best bmax < i + length x.
Proof.
  revert i best bmax. induction x as [|a x IH]; intros i best bmax Hb; simpl.
  - lia.
  - destruct (ltb bmax (abs a)).
    + specialize (IH (S i) i (abs a)). lia.
    + specialize (IH (S i) best bmax). lia.
Qed.

(** The reference [iamax] returns an index of its argument. *)
Lemma iamax_ref_lt (l : list R) : l ≠ [] → iamax_ref l < length l.
Proof.
  destruct l as [|a x]; [congruence|]. intros _. simpl.
  apply (iamax_from_lt x 1 0). lia.
Qed.
End IamaxRange.

(** ** blas::her2 *)

(** A counted loop whose passes all succeed and keep [P] succeeds. *)
Lemma for_range_run {St} (P : nat → St → Prop) (body : nat → St → result St)
    (cnt lo : nat) (s : St) :
  (∀ i a, lo ≤ i < lo + cnt → P i a → ∃ a', body i a = Ok a' ∧ P (S i) a') →
  P lo s → ∃ s', for_range lo cnt body s = Ok s' ∧ P (lo + cnt) s'.
Proof.
  revert lo s. induction cnt as [|cnt IH]; intros lo s Hstep Hs.
  - exists s. rewrite Nat.add_0_r. auto.
  - destruct (Hstep lo s) as (a & Ha & HPa); [lia|exact Hs|].
    destruct (IH (S lo) a) as (s' & Hs' & HP'); [|exact HPa|].
    + intros i b Hi. apply Hstep. lia.
    + exists s'. simpl. rewrite Ha. replace (lo + S cnt) with (S lo + cnt) by lia.
      auto.
Qed.

(** ** Unsigned index arithmetic *)

Lemma wrap_small (z : Z) : (0 ≤ z < 2 ^ 64)%Z → wrap z = z.
Proof. intros Hz. unfold wrap. apply Z.mod_small, Hz. Qed.

Lemma wrap_add (a b : Z) : wrap (wrap a + wrap b) = wrap (a + b).
Proof. unfold wrap. rewrite <- Zplus_mod. reflexivity. Qed.

Lemma wrap_mul (a b : Z) : wrap (wrap a * wrap b) = wrap (a * b).
Proof. unfold wrap. rewrite <- Zmult_mod. reflexivity. Qed.

Lemma wrap_wrap (a : Z) : wrap (wrap a) = wrap a.
Proof. unfold wrap. apply Zmod_mod. Qed.

Lemma wrap_add_l (a b : Z) : wrap (wrap a + b) = wrap (a + b).
Proof. unfold wrap. apply Zplus_mod_idemp_l. Qed.

Lemma advance_stride_index (n : nat) (inc : Z) (i : nat) :
  advance (wrap (stride_index n inc i)) inc
  = wrap (stride_index n inc (S i)).
Proof.
  unfold advance. rewrite wrap_add. f_equal. unfold stride_index. lia.
Qed.

Lemma start_index_stride_index (n : nat) (inc : Z) :
  start_index n inc = wrap (stride_index n inc 0).
Proof.
  unfold start_index, stride_index. destruct (0 <? inc)%Z; [reflexivity|].
  rewrite wrap_add_l, wrap_mul. f_equal. lia.
Qed.

Lemma stride_index_nonneg (n : nat) (inc : Z) (i : nat) :
  i < n → (0 ≤ stride_index n inc i)%Z.
Proof.
  intros Hi. unfold stride_index. destruct (Z.ltb_spec 0 inc); nia.
Qed.

Lemma a_index_in_bounds (n lda len i j : nat) :
  n ≤ lda → (n - 1) * lda + n ≤ len → (Z.of_nat len < 2 ^ 64)%Z →
  i < n → j < n →
  Z.to_nat (a_index lda i j) = i + j * lda ∧ i + j * lda < len.
Proof.
  intros Hlda Hsize Hfit Hi Hj. assert (i + j * lda < len) as Hlt by nia.
  split; [|exact Hlt]. unfold a_index.
  rewrite (wrap_small (Z.of_nat j * Z.of_nat lda)) by nia.
  rewrite wrap_small by nia. lia.
Qed.

Lemma entry_coords (n lda i j : nat) :
  n ≤ lda → i < n →
  (i + j * lda) mod lda = i ∧ (i + j * lda) / lda = j.
Proof.
  intros Hlda Hi. assert (lda ≠ 0) by lia. split.
  - rewrite Nat.Div0.mod_add. apply Nat.mod_small. lia.
  - rewrite Nat.div_add by lia. rewrite Nat.div_small by lia. reflexivity.
Qed.

Section Her2Steps.
Context {T Re : Type} `{!HerScalar T Re}.
Variables (alpha : T) (xs ys : list T) (n lda : nat) (A0 : list T).
Hypothesis Hxs : length xs = n.
Hypothesis Hys : length ys = n.
Hypothesis Hlda : n ≤ lda.
Hypothesis Hsize : (n - 1) * lda + n ≤ length A0.
Hypothesis Hfit : (Z.of_nat (length A0) < 2 ^ 64)%Z.

Lemma applied_length (D : nat → nat → bool) (uplo : Uplo) :
  length (applied D uplo alpha xs ys lda A0) = length A0.
Proof. apply length_imap. Qed.

(** Outside the triangle and the diagonal an entry is kept. *)
Lemma her2_entry_outside (uplo : Uplo) (k : nat) (a : T) :
  ¬ (k mod lda < n ∧ k / lda < n
     ∧ (k mod lda = k / lda ∨ in_triangle uplo (k mod lda) (k / lda) = true)) →
  her2_entry uplo alpha xs ys lda k a = a.
Proof.
  intros Hout. unfold her2_entry.
  destruct (xs !! (k mod lda)) as [xi|] eqn:Hxi; [|reflexivity].
  destruct (ys !! (k mod lda)) as [yi|]; [|reflexivity].
  destruct (xs !! (k / lda)) as [xj|] eqn:Hxj; [|reflexivity].
  destruct (ys !! (k / lda)) as [yj|]; [|reflexivity].
  apply lookup_lt_Some in Hxi, Hxj. rewrite Hxs in Hxi, Hxj.
  destruct (Nat.eqb_spec (k mod lda) (k / lda)) as [Heq|Hne].
  { destruct Hout. auto. }
  destruct (in_triangle uplo (k mod lda) (k / lda)) eqn:Htri; [|reflexivity].
  destruct Hout. auto.
Qed.

Lemma applied_ext (D D' : nat → nat → bool) (uplo : Uplo) :
  (∀ i j, i < n → j < n → i = j ∨ in_triangle uplo i j = true →
          D i j = D' i j) →
  applied D uplo alpha xs ys lda A0 = applied D' uplo alpha xs ys lda A0.
Proof.
  intros HD. unfold applied. apply imap_ext. intros k a _. simpl.
  destruct (decide (k mod lda < n ∧ k / lda < n
                    ∧ (k mod lda = k / lda
                       ∨ in_triangle uplo (k mod lda) (k / lda) = true)))
    as [(Hi & Hj & Htri)|Hout].
  - rewrite (HD _ _ Hi Hj Htri). reflexivity.
  - rewrite (her2_entry_outside uplo k a Hout).
    destruct (D _ _), (D' _ _); reflexivity.
Qed.

Lemma applied_none (uplo : Uplo) :
  applied (λ _ _, false) uplo alpha xs ys lda A0 = A0.
Proof.
  unfold applied. apply list_eq. intros k. rewrite list_lookup_imap.
  destruct (A0 !! k); reflexivity.
Qed.

Lemma applied_all (uplo : Uplo) :
  applied (λ _ _, true) uplo alpha xs ys lda A0
  = her2_ref uplo alpha xs ys lda A0.
Proof. reflexivity. Qed.

(** One more entry. *)
Lemma applied_step (D : nat → nat → bool) (uplo : Uplo) (i j : nat) (a : T) :
  i < n → j < n → D i j = false → A0 !! (i + j * lda) = Some a →
  applied D uplo alpha xs ys lda A0 !! (i + j * lda) = Some a
  ∧ <[i + j * lda := her2_entry uplo alpha xs ys lda (i + j * lda) a]>
      (applied D uplo alpha xs ys lda A0)
    = applied (λ i' j', D i' j' || ((i' =? i) && (j' =? j)))
        uplo alpha xs ys lda A0.
Proof.
  intros Hi Hj HD Ha. destruct (entry_coords n lda i j Hlda Hi) as [Hmod Hdiv].
  assert (lda ≠ 0) as Hlda0 by lia.
  split.
  - unfold applied. rewrite list_lookup_imap, Ha. simpl.
    rewrite Hmod, Hdiv, HD. reflexivity.
  - apply list_eq. intros k. unfold applied at 2.
    rewrite list_lookup_imap.
    destruct (decide (k = i + j * lda)) as [->|Hne].
    + rewrite list_lookup_insert_eq
        by (rewrite applied_length; apply lookup_lt_Some in Ha; exact Ha).
      rewrite Ha. simpl. rewrite Hmod, Hdiv, !Nat.eqb_refl, orb_true_r.
      reflexivity.
    + rewrite list_lookup_insert_ne by congruence.
      unfold applied. rewrite list_lookup_imap.
      destruct (A0 !! k) as [b|]; [|reflexivity]. simpl.
      destruct (Nat.eqb_spec (k mod lda) i) as [Hki|Hki];
        [|rewrite orb_false_r; reflexivity].
      destruct (Nat.eqb_spec (k / lda) j) as [Hkj|Hkj];
        [|rewrite orb_false_r; reflexivity].
      destruct Hne. rewrite (Nat.div_mod_eq k lda). lia.
Qed.

Section Entries.
Variables (uplo : Uplo) (D : nat → nat → bool) (i j : nat) (xi yi xj yj : T).
Hypothesis Hi : i < n.
Hypothesis Hj : j < n.
Hypothesis HD : D i j = false.
Hypothesis Hxi : xs !! i = Some xi.
Hypothesis Hyi : ys !! i = Some yi.
Hypothesis Hxj : xs !! j = Some xj.
Hypothesis Hyj : ys !! j = Some yj.

Lemma add_entry_step :
  in_triangle uplo i j = true → i ≠ j →
  add_entry (applied D uplo alpha xs ys lda A0) lda i j xi yi
    (cmul alpha (conj yj)) (conj (cmul alpha xj))
  = Ok (applied (λ i' j', D i' j' || ((i' =? i) && (j' =? j)))
          uplo alpha xs ys lda A0).
Proof.
  intros Htri Hne. unfold add_entry, at_index.
  destruct (a_index_in_bounds n lda (length A0) i j Hlda Hsize Hfit Hi Hj) as [-> Hlt].
  destruct (lookup_lt_is_Some_2 A0 _ Hlt) as [a Ha].
  destruct (applied_step D uplo i j a Hi Hj HD Ha) as [Hread <-].
  rewrite (read_lookup _ _ _ Hread). cbn [mbind result_bind].
  rewrite write_in_bounds by (rewrite applied_length; exact Hlt).
  do 2 f_equal. unfold her2_entry.
  destruct (entry_coords n lda i j Hlda Hi) as [-> ->].
  rewrite Hxi, Hyi, Hxj, Hyj, Htri.
  destruct (Nat.eqb_spec i j); [congruence|reflexivity].
Qed.

Lemma set_diagonal_step :
  i = j →
  set_diagonal (applied D uplo alpha xs ys lda A0) lda j xj yj
    (cmul alpha (conj yj)) (conj (cmul alpha xj))
  = Ok (applied (λ i' j', D i' j' || ((i' =? j) && (j' =? j)))
          uplo alpha xs ys lda A0).
Proof.
  intros Heq. subst i. unfold set_diagonal, at_index.
  destruct (a_index_in_bounds n lda (length A0) j j Hlda Hsize Hfit Hj Hj) as [-> Hlt].
  destruct (lookup_lt_is_Some_2 A0 _ Hlt) as [a Ha].
  destruct (applied_step D uplo j j a Hj Hj HD Ha) as [Hread <-].
  rewrite (read_lookup _ _ _ Hread). cbn [mbind result_bind].
  rewrite write_in_bounds by (rewrite applied_length; exact Hlt).
  do 2 f_equal. unfold her2_entry.
  destruct (entry_coords n lda j j Hlda Hj) as [-> ->].
  rewrite Hxj, Hyj, Nat.eqb_refl. reflexivity.
Qed.
End Entries.
End Her2Steps.

Ltac bool_arith :=
  repeat match goal with
         | |- context [?a <? ?b] => destruct (Nat.ltb_spec a b)
         | |- context [?a =? ?b] => destruct (Nat.eqb_spec a b)
         end;
  simpl; try reflexivity; try lia.

Ltac run_loop P A' Hrun HP :=
  match goal with
  | |- context [for_range ?lo ?cnt ?body ?s] =>
      destruct (for_range_run P body cnt lo s) as (A' & Hrun & HP);
      [ | | rewrite Hrun; cbn [mbind result_bind] ]
  end.

Section Her2Branches.
Context {T Re : Type} `{!HerScalar T Re}.
Variables (alpha : T) (x : list T) (incx : Z) (y : list T) (incy : Z).
Variables (xs ys : list T) (n lda : nat) (A0 : list T).
Hypothesis Hx : strided x incx n xs.
Hypothesis Hy : strided y incy n ys.
Hypothesis Hxfit : (Z.of_nat (length x) < 2 ^ 64)%Z.
Hypothesis Hyfit : (Z.of_nat (length y) < 2 ^ 64)%Z.
Hypothesis Hlda : n ≤ lda.
Hypothesis Hsize : (n - 1) * lda + n ≤ length A0.
Hypothesis Hfit : (Z.of_nat (length A0) < 2 ^ 64)%Z.

Lemma strided_entry (i : nat) :
  i < n → ∃ xi yi, xs !! i = Some xi ∧ ys !! i = Some yi.
Proof.
  intros Hi. destruct Hx as [Hxs _], Hy as [Hys _].
  destruct (lookup_lt_is_Some_2 xs i) as [xi Hxi]; [lia|].
  destruct (lookup_lt_is_Some_2 ys i) as [yi Hyi]; [lia|].
  eauto.
Qed.

Lemma strided_read (z : list T) (inc : Z) (zs : list T) (i : nat) (zi : T) :
  strided z inc n zs → (Z.of_nat (length z) < 2 ^ 64)%Z →
  i < n → zs !! i = Some zi →
  at_index z (wrap (stride_index n inc i)) = Ok zi.
Proof.
  intros [_ Hz] Hzfit Hi Hzi. unfold at_index.
  pose proof (stride_index_nonneg n inc i Hi) as H0.
  specialize (Hz i Hi). rewrite Hzi in Hz.
  pose proof (lookup_lt_Some _ _ _ Hz) as Hlt.
  rewrite wrap_small by lia. apply read_lookup, Hz.
Qed.

Lemma unit_read (z : list T) (zs : list T) (i : nat) (zi : T) :
  strided z 1 n zs → i < n → zs !! i = Some zi → read z i = Ok zi.
Proof.
  intros [_ Hz] Hi Hzi. specialize (Hz i Hi). rewrite Hzi in Hz.
  unfold stride_index in Hz. simpl in Hz.
  replace (Z.to_nat (0 + Z.of_nat i * 1)) with i in Hz by lia.
  apply read_lookup, Hz.
Qed.

#[local] Abbreviation App D uplo := (applied D uplo alpha xs ys lda A0).

Lemma upper_unit_run :
  incx = 1%Z → incy = 1%Z →
  upper_unit n alpha x y lda A0 = Ok (her2_ref Upper alpha xs ys lda A0).
Proof.
  intros Hix Hiy. pose proof Hx as Hx1. pose proof Hy as Hy1.
  rewrite Hix in Hx1. rewrite Hiy in Hy1.
  pose proof Hx as [Hxs _]. pose proof Hy as [Hys _].
  unfold upper_unit.
  run_loop (λ j A, A = App (λ _ j', j' <? j) Upper) A' Hrun HA'.
  - intros j A [_ Hj] ->. simpl in Hj.
    destruct (strided_entry j Hj) as (xj & yj & Hxj & Hyj).
    rewrite (unit_read y ys j yj Hy1 Hj Hyj), (unit_read x xs j xj Hx1 Hj Hxj).
    cbn [mbind result_bind].
    run_loop (λ i A, A = App (λ i' j', (j' <? j) || ((j' =? j) && (i' <? i)))
                         Upper) A1 Hrun1 HA1.
    + intros i A [_ Hi] ->. simpl in Hi.
      destruct (strided_entry i) as (xi & yi & Hxi & Hyi); [lia|].
      rewrite (unit_read x xs i xi Hx1), (unit_read y ys i yi Hy1)
        by (auto; lia).
      cbn [mbind result_bind].
      rewrite (add_entry_step alpha xs ys n lda A0 Hxs Hys Hlda Hsize Hfit Upper
                 _ i j xi yi xj yj) by (auto; try lia; simpl; bool_arith).
      eexists. split; [reflexivity|].
      apply (applied_ext alpha xs ys n lda A0 Hxs). intros i' j' _ _ _. bool_arith.
    + apply (applied_ext alpha xs ys n lda A0 Hxs). intros i' j' _ _ _. bool_arith.
    + subst A1. simpl.
      rewrite (set_diagonal_step alpha xs ys n lda A0 Hxs Hys Hlda Hsize Hfit
                 Upper _ j j xj yj xj yj) by (auto; bool_arith).
      eexists. split; [reflexivity|].
      apply (applied_ext alpha xs ys n lda A0 Hxs). intros i' j' _ _ Htri. simpl in Htri.
      destruct Htri as [->|Htri]; [bool_arith|].
      apply Nat.ltb_lt in Htri. bool_arith.
  - symmetry. apply applied_none.
  - subst A'. simpl. rewrite <- applied_all. f_equal.
    apply (applied_ext alpha xs ys n lda A0 Hxs). intros i' j' _ Hj' _. bool_arith.
Qed.
#[local] Abbreviation Pos i :=
  (wrap (stride_index n incx i), wrap (stride_index n incy i)).

Lemma upper_strided_run :
  upper_strided n alpha x incx y incy lda A0
  = Ok (her2_ref Upper alpha xs ys lda A0).
Proof.
  pose proof Hx as [Hxs _]. pose proof Hy as [Hys _].
  unfold upper_strided. rewrite !start_index_stride_index.
  run_loop (λ j (a : list T * (Z * Z)),
              a.1 = App (λ _ j', j' <? j) Upper ∧ a.2 = Pos j) a' Hrun Ha'.
  - intros j [A [jx jy]] [_ Hj] [HA Hpos]. simpl in Hj, HA, Hpos.
    injection Hpos as -> ->. subst A.
    destruct (strided_entry j Hj) as (xj & yj & Hxj & Hyj).
    rewrite (strided_read y incy ys j yj Hy Hyfit Hj Hyj),
      (strided_read x incx xs j xj Hx Hxfit Hj Hxj).
    cbn [mbind result_bind].
    run_loop (λ i (a : list T * (Z * Z)),
                a.1 = App (λ i' j', (j' <? j) || ((j' =? j) && (i' <? i)))
                        Upper
                ∧ a.2 = Pos i) a1 Hrun1 Ha1.
    + intros i [A [ix iy]] [_ Hi] [HA Hpos]. simpl in Hi, HA, Hpos.
      injection Hpos as -> ->. subst A.
      destruct (strided_entry i) as (xi & yi & Hxi & Hyi); [lia|].
      rewrite (strided_read x incx xs i xi Hx Hxfit),
        (strided_read y incy ys i yi Hy Hyfit) by (auto; lia).
      cbn [mbind result_bind].
      rewrite (add_entry_step alpha xs ys n lda A0 Hxs Hys Hlda Hsize Hfit Upper
                 _ i j xi yi xj yj) by (auto; try lia; simpl; bool_arith).
      cbn [mbind result_bind]. eexists. split; [reflexivity|]. simpl.
      split; [|rewrite !advance_stride_index; reflexivity].
      apply (applied_ext alpha xs ys n lda A0 Hxs). intros i' j' _ _ _.
      bool_arith.
    + simpl. split; [|reflexivity].
      apply (applied_ext alpha xs ys n lda A0 Hxs). intros i' j' _ _ _.
      bool_arith.
    + destruct a1 as [A1 [ix iy]]. destruct Ha1 as [HA1 _]. simpl in HA1.
      subst A1.
      rewrite (set_diagonal_step alpha xs ys n lda A0 Hxs Hys Hlda Hsize Hfit
                 Upper _ j j xj yj xj yj) by (auto; bool_arith).
      cbn [mbind result_bind]. eexists. split; [reflexivity|]. simpl.
      split; [|rewrite !advance_stride_index; reflexivity].
      apply (applied_ext alpha xs ys n lda A0 Hxs). intros i' j' _ _ Htri.
      simpl in Htri. destruct Htri as [->|Htri]; [bool_arith|].
      apply Nat.ltb_lt in Htri. bool_arith.
  - simpl. split; [|reflexivity]. symmetry. apply applied_none.
  - destruct a' as [A' [jx jy]]. destruct Ha' as [HA' _]. simpl in HA'.
    subst A'. rewrite <- applied_all. f_equal.
    apply (applied_ext alpha xs ys n lda A0 Hxs). intros i' j' _ Hj' _.
    bool_arith.
Qed.

Lemma lower_unit_run :
  incx = 1%Z → incy = 1%Z →
  lower_unit n alpha x y lda A0 = Ok (her2_ref Lower alpha xs ys lda A0).
Proof.
  intros Hix Hiy. pose proof Hx as Hx1. pose proof Hy as Hy1.
  rewrite Hix in Hx1. rewrite Hiy in Hy1.
  pose proof Hx as [Hxs _]. pose proof Hy as [Hys _].
  unfold lower_unit.
  run_loop (λ j A, A = App (λ _ j', j' <? j) Lower) A' Hrun HA'.
  - intros j A [_ Hj] ->. simpl in Hj.
    destruct (strided_entry j Hj) as (xj & yj & Hxj & Hyj).
    rewrite (unit_read y ys j yj Hy1 Hj Hyj), (unit_read x xs j xj Hx1 Hj Hxj).
    cbn [mbind result_bind].
    rewrite (set_diagonal_step alpha xs ys n lda A0 Hxs Hys Hlda Hsize Hfit
               Lower _ j j xj yj xj yj) by (auto; bool_arith).
    cbn [mbind result_bind].
    run_loop (λ i A, A = App (λ i' j', (j' <? j) || ((j' =? j) && (i' <? i)))
                         Lower) A1 Hrun1 HA1.
    + intros i A [Hji Hi] ->.
      destruct (strided_entry i) as (xi & yi & Hxi & Hyi); [lia|].
      rewrite (unit_read x xs i xi Hx1), (unit_read y ys i yi Hy1)
        by (auto; lia).
      cbn [mbind result_bind].
      rewrite (add_entry_step alpha xs ys n lda A0 Hxs Hys Hlda Hsize Hfit Lower
                 _ i j xi yi xj yj) by (auto; try lia; simpl; bool_arith).
      eexists. split; [reflexivity|].
      apply (applied_ext alpha xs ys n lda A0 Hxs). intros i' j' _ _ _.
      bool_arith.
    + apply (applied_ext alpha xs ys n lda A0 Hxs). intros i' j' _ _ Htri.
      simpl in Htri. destruct Htri as [->|Htri]; [bool_arith|].
      apply Nat.ltb_lt in Htri. bool_arith.
    + subst A1. eexists. split; [reflexivity|].
      apply (applied_ext alpha xs ys n lda A0 Hxs). intros i' j' Hi' _ _.
      replace (j + 1 + (n - (j + 1))) with n by lia. bool_arith.
  - symmetry. apply applied_none.
  - subst A'. simpl. rewrite <- applied_all. f_equal.
    apply (applied_ext alpha xs ys n lda A0 Hxs). intros i' j' _ Hj' _.
    bool_arith.
Qed.

Lemma lower_strided_run :
  lower_strided n alpha x incx y incy lda A0
  = Ok (her2_ref Lower alpha xs ys lda A0).
Proof.
  pose proof Hx as [Hxs _]. pose proof Hy as [Hys _].
  unfold lower_strided. rewrite !start_index_stride_index.
  run_loop (λ j (a : list T * (Z * Z)),
              a.1 = App (λ _ j', j' <? j) Lower ∧ a.2 = Pos j) a' Hrun Ha'.
  - intros j [A [jx jy]] [_ Hj] [HA Hpos]. simpl in Hj, HA, Hpos.
    injection Hpos as -> ->. subst A.
    destruct (strided_entry j Hj) as (xj & yj & Hxj & Hyj).
    rewrite (strided_read y incy ys j yj Hy Hyfit Hj Hyj),
      (strided_read x incx xs j xj Hx Hxfit Hj Hxj).
    cbn [mbind result_bind].
    rewrite (set_diagonal_step alpha xs ys n lda A0 Hxs Hys Hlda Hsize Hfit
               Lower _ j j xj yj xj yj) by (auto; bool_arith).
    cbn [mbind result_bind].
    run_loop (λ i (a : list T * (Z * Z)),
                a.1 = App (λ i' j', (j' <? j) || ((j' =? j) && (i' <? i)))
                        Lower
                ∧ a.2 = Pos (i - 1)) a1 Hrun1 Ha1.
    + intros i [A [ix iy]] [Hji Hi] [HA Hpos]. simpl in HA, Hpos.
      injection Hpos as -> ->. subst A.
      destruct (strided_entry i) as (xi & yi & Hxi & Hyi); [lia|].
      rewrite !advance_stride_index.
      replace (S (i - 1)) with i by lia.
      rewrite (strided_read x incx xs i xi Hx Hxfit),
        (strided_read y incy ys i yi Hy Hyfit) by (auto; lia).
      cbn [mbind result_bind].
      rewrite (add_entry_step alpha xs ys n lda A0 Hxs Hys Hlda Hsize Hfit Lower
                 _ i j xi yi xj yj) by (auto; try lia; simpl; bool_arith).
      cbn [mbind result_bind]. eexists. split; [reflexivity|]. simpl.
      split; [|rewrite Nat.sub_0_r; reflexivity].
      apply (applied_ext alpha xs ys n lda A0 Hxs). intros i' j' _ _ _.
      bool_arith.
    + simpl. split; [|replace (j + 1 - 1) with j by lia; reflexivity].
      apply (applied_ext alpha xs ys n lda A0 Hxs). intros i' j' _ _ Htri.
      simpl in Htri. destruct Htri as [->|Htri]; [bool_arith|].
      apply Nat.ltb_lt in Htri. bool_arith.
    + destruct a1 as [A1 [ix iy]]. destruct Ha1 as [HA1 _]. simpl in HA1.
      subst A1. eexists. split; [reflexivity|]. simpl.
      split; [|rewrite !advance_stride_index; reflexivity].
      apply (applied_ext alpha xs ys n lda A0 Hxs). intros i' j' Hi' _ _.
      replace (j + 1 + (n - (j + 1))) with n by lia. bool_arith.
  - simpl. split; [|reflexivity]. symmetry. apply applied_none.
  - destruct a' as [A' [jx jy]]. destruct Ha' as [HA' _]. simpl in HA'.
    subst A'. rewrite <- applied_all. f_equal.
    apply (applied_ext alpha xs ys n lda A0 Hxs). intros i' j' _ Hj' _.
    bool_arith.
Qed.
End Her2Branches.

(** The vector itself, with stride 1. *)
Lemma strided_unit {T} (zs : list T) (m : nat) :
  length zs = m → strided zs 1 m zs.
Proof.
  intros Hm. split; [exact Hm|]. intros i _. f_equal.
  unfold stride_index. simpl. lia.
Qed.

Section Her2Theorems.
Context {T Re : Type} `{!HerScalar T Re}.
Variables (layout : Layout) (uplo : Uplo) (n : nat) (alpha : T).
Variables (x : list T) (incx : Z) (y : list T) (incy : Z).
Variables (A : list T) (lda : nat) (xs ys : list T).
Hypothesis Hincx : incx ≠ 0%Z.
Hypothesis Hincy : incy ≠ 0%Z.
Hypothesis Hlda : n ≤ lda.
Hypothesis Hx : strided x incx n xs.
Hypothesis Hy : strided y incy n ys.
Hypothesis Hsize : (n - 1) * lda + n ≤ length A.
Hypothesis Hxfit : (Z.of_nat (length x) < 2 ^ 64)%Z.
Hypothesis Hyfit : (Z.of_nat (length y) < 2 ^ 64)%Z.
Hypothesis Hfit : (Z.of_nat (length A) < 2 ^ 64)%Z.

(** The run of [her2] on valid arguments. *)
Lemma her2_run :
  her2 layout uplo n alpha x incx y incy A lda
  = Ran (Ok (if ceqb alpha czero then A
             else her2_ref (effective_uplo layout uplo) alpha xs ys lda A)).
Proof.
  pose proof Hx as [Hxs _].
  unfold her2.
  destruct (Z.eqb_spec incx 0) as [|_]; [congruence|].
  destruct (Z.eqb_spec incy 0) as [|_]; [congruence|].
  destruct (Nat.ltb_spec lda n) as [|_]; [lia|].
  do 2 f_equal. destruct (Nat.eqb_spec n 0) as [Hn|Hn]; simpl.
  - destruct (ceqb alpha czero); [reflexivity|].
    rewrite <- applied_all.
    rewrite (applied_ext alpha xs ys n lda A Hxs (λ _ _, true) (λ _ _, false))
      by (intros; lia).
    rewrite applied_none. reflexivity.
  - destruct (ceqb alpha czero); [reflexivity|].
    destruct (effective_uplo layout uplo).
    + destruct (Z.eqb_spec incx 1) as [Hix|_];
        [destruct (Z.eqb_spec incy 1) as [Hiy|_]|]; simpl.
      * eapply upper_unit_run; eassumption.
      * eapply upper_strided_run; eassumption.
      * eapply upper_strided_run; eassumption.
    + destruct (Z.eqb_spec incx 1) as [Hix|_];
        [destruct (Z.eqb_spec incy 1) as [Hiy|_]|]; simpl.
      * eapply lower_unit_run; eassumption.
      * eapply lower_strided_run; eassumption.
      * eapply lower_strided_run; eassumption.
Qed.

(** X8: on valid arguments ([incx], [incy] non-zero, [lda >= n], [x] and [y]
    holding the [n]-vectors [xs] and [ys] with their strides, [A] holding
    the [n] columns, all arrays within the address space) [her2] stays in
    bounds and, unless [alpha] is zero, leaves in [A] exactly this: the entry
    of row [i] and column [j] strictly inside the triangle has
    [xs[i]*(alpha*conj(ys[j])) + ys[i]*conj(alpha*xs[j])] added, a diagonal
    entry becomes the real part of that sum, and every other entry is as
    before.  With [alpha] zero, [A] is returned as passed. *)
Theorem her2_rank2_update :
  her2 layout uplo n alpha x incx y incy A lda
  = Ran (Ok (if ceqb alpha czero then A
             else her2_ref (effective_uplo layout uplo) alpha xs ys lda A)).
Proof. exact her2_run. Qed.
End Her2Theorems.

Section Her2Corollaries.
Context {T Re : Type} `{!HerScalar T Re}.
Variables (layout : Layout) (uplo : Uplo) (n : nat) (alpha : T).
Variables (x : list T) (incx : Z) (y : list T) (incy : Z).
Variables (A : list T) (lda : nat) (xs ys : list T).
Hypothesis Hincx : incx ≠ 0%Z.
Hypothesis Hincy : incy ≠ 0%Z.
Hypothesis Hlda : n ≤ lda.
Hypothesis Hx : strided x incx n xs.
Hypothesis Hy : strided y incy n ys.
Hypothesis Hsize : (n - 1) * lda + n ≤ length A.
Hypothesis Hxfit : (Z.of_nat (length x) < 2 ^ 64)%Z.
Hypothesis Hyfit : (Z.of_nat (length y) < 2 ^ 64)%Z.
Hypothesis Hfit : (Z.of_nat (length A) < 2 ^ 64)%Z.

(** X9: the strides only select the elements: a call with the vectors held
    at strides [incx] and [incy] (negative ones counting back from the end,
    through the wrap-around of the unsigned indices) gives what the
    unit-stride branch gives on the two vectors stored contiguously. *)
Theorem her2_strides_select :
  her2 layout uplo n alpha x incx y incy A lda
  = her2 layout uplo n alpha xs 1 ys 1 A lda.
Proof.
  pose proof Hx as [Hlx _]. pose proof Hy as [Hly _].
  assert (n ≤ length A) as Hn
    by (etrans; [apply (Nat.le_add_l n ((n - 1) * lda))|exact Hsize]).
  rewrite (her2_run layout uplo n alpha x incx y incy A lda xs ys) by auto.
  rewrite (her2_run layout uplo n alpha xs 1 ys 1 A lda xs ys);
    [reflexivity|try (apply strided_unit; assumption); try assumption; lia..].
Qed.

(** X10: the frame of the update: [A] keeps its length, and every entry
    outside the referenced triangle and the diagonal of the leading
    [n]-by-[n] block (the opposite triangle, the rows from [n] to [lda], and
    whatever follows the last column) is as before. *)
Theorem her2_frame (k : nat) :
  ¬ (k mod lda < n ∧ k / lda < n
     ∧ (k mod lda = k / lda
        ∨ in_triangle (effective_uplo layout uplo) (k mod lda) (k / lda)
          = true)) →
  ∃ A', her2 layout uplo n alpha x incx y incy A lda = Ran (Ok A')
        ∧ length A' = length A ∧ A' !! k = A !! k.
Proof.
  intros Hout. pose proof Hx as [Hlx _].
  rewrite (her2_run layout uplo n alpha x incx y incy A lda xs ys) by auto.
  eexists. split; [reflexivity|].
  destruct (ceqb alpha czero); [auto|]. unfold her2_ref.
  rewrite length_imap, list_lookup_imap. split; [reflexivity|].
  destruct (A !! k) as [a|]; [|reflexivity]. simpl.
  rewrite (her2_entry_outside alpha xs ys n lda Hlx _ k a Hout). reflexivity.
Qed.

(** X11: unless [alpha] is zero, every diagonal entry of the leading block
    is a real number on exit: the value of the conversion from the real
    type. *)
Theorem her2_diagonal_real (j : nat) :
  ceqb alpha czero = false → j < n →
  ∃ A' r, her2 layout uplo n alpha x incx y incy A lda = Ran (Ok A')
          ∧ A' !! (j + j * lda) = Some (of_real r).
Proof.
  intros Halpha Hj. pose proof Hx as [Hlx _]. pose proof Hy as [Hly _].
  rewrite (her2_run layout uplo n alpha x incx y incy A lda xs ys) by auto.
  rewrite Halpha.
  destruct (lookup_lt_is_Some_2 A (j + j * lda)) as [a Ha]; [nia|].
  destruct (lookup_lt_is_Some_2 xs j) as [xj Hxj]; [lia|].
  destruct (lookup_lt_is_Some_2 ys j) as [yj Hyj]; [lia|].
  eexists _, _. split; [reflexivity|]. unfold her2_ref.
  rewrite list_lookup_imap, Ha. simpl. unfold her2_entry.
  destruct (entry_coords n lda j j Hlda Hj) as [-> ->].
  rewrite Hxj, Hyj, Nat.eqb_refl. reflexivity.
Qed.
End Her2Corollaries.

Section Her2Layouts.
Context {T Re : Type} `{!HerScalar T Re}.
Variables (uplo : Uplo) (n : nat) (alpha : T).
Variables (x : list T) (incx : Z) (y : list T) (incy : Z).
Variables (A : list T) (lda : nat) (xs ys : list T).
Hypothesis Hincx : incx ≠ 0%Z.
Hypothesis Hincy : incy ≠ 0%Z.
Hypothesis Hlda : n ≤ lda.
Hypothesis Hx : strided x incx n xs.
Hypothesis Hy : strided y incy n ys.
Hypothesis Hsize : (n - 1) * lda + n ≤ length A.
Hypothesis Hxfit : (Z.of_nat (length x) < 2 ^ 64)%Z.
Hypothesis Hyfit : (Z.of_nat (length y) < 2 ^ 64)%Z.
Hypothesis Hfit : (Z.of_nat (length A) < 2 ^ 64)%Z.

(** X12: the two layouts, entry by entry, over any entry type.  For the
    entry of row [r] and column [c] strictly inside the referenced
    triangle, a column-major call adds
    [xs[r]*(alpha*conj(ys[c])) + ys[r]*conj(alpha*xs[c])] at [A[r + c*lda]],
    and a row-major call, which only swaps [uplo], adds the sum with the two
    indices exchanged, [xs[c]*(alpha*conj(ys[r])) + ys[c]*conj(alpha*xs[r])],
    at [A[r*lda + c]]. *)
Theorem her2_layout_entries (r c : nat) (a a' xr yr xc yc : T) :
  ceqb alpha czero = false →
  r < n → c < n → in_triangle uplo r c = true →
  xs !! r = Some xr → ys !! r = Some yr →
  xs !! c = Some xc → ys !! c = Some yc →
  A !! (r + c * lda) = Some a →
  A !! (r * lda + c) = Some a' →
  (∃ A1, her2 ColMajor uplo n alpha x incx y incy A lda = Ran (Ok A1)
         ∧ A1 !! (r + c * lda)
           = Some (cadd a (rank2_entry alpha xr yr xc yc)))
  ∧ (∃ A2, her2 RowMajor uplo n alpha x incx y incy A lda = Ran (Ok A2)
           ∧ A2 !! (r * lda + c)
             = Some (cadd a' (rank2_entry alpha xc yc xr yr))).
Proof.
  intros Halpha Hr Hc Htri Hxr Hyr Hxc Hyc Ha Ha'.
  assert (r ≠ c) as Hne by (destruct uplo; simpl in Htri;
                            apply Nat.ltb_lt in Htri; lia).
  split.
  - rewrite (her2_run ColMajor uplo n alpha x incx y incy A lda xs ys)
      by auto.
    rewrite Halpha. eexists. split; [reflexivity|].
    unfold her2_ref. rewrite list_lookup_imap, Ha. simpl. f_equal.
    unfold her2_entry.
    destruct (entry_coords n lda r c Hlda Hr) as [-> ->].
    rewrite Hxr, Hyr, Hxc, Hyc, Htri.
    destruct (Nat.eqb_spec r c) as [|_]; [congruence|reflexivity].
  - rewrite (her2_run RowMajor uplo n alpha x incx y incy A lda xs ys)
      by auto.
    rewrite Halpha. eexists. split; [reflexivity|].
    unfold her2_ref. rewrite list_lookup_imap, Ha'. simpl. f_equal.
    unfold her2_entry. replace (r * lda + c) with (c + r * lda) by lia.
    destruct (entry_coords n lda c r Hlda Hc) as [-> ->].
    rewrite Hxc, Hyc, Hxr, Hyr.
    destruct (Nat.eqb_spec c r) as [|_]; [congruence|].
    assert (in_triangle (flip_uplo uplo) c r = true) as ->
      by (destruct uplo; exact Htri).
    reflexivity.
Qed.
End Her2Layouts.

(** ** tlapack::starpu::Matrix *)

Module StarpuViews.
Import Starpu.
Open Scope Z_scope.

Lemma u32_small (z : Z) : 0 ≤ z < 2 ^ 32 → u32 z = z.
Proof. intros Hz. unfold u32. apply Z.mod_small, Hz. Qed.

Lemma u32_add_l (a b : Z) : u32 (u32 a + b) = u32 (a + b).
Proof. unfold u32. apply Zplus_mod_idemp_l. Qed.

Lemma u32_sub_l (a b : Z) : u32 (u32 a - b) = u32 (a - b).
Proof. unfold u32. apply Zminus_mod_idemp_l. Qed.

(** The tile count of an aligned range of [k] tiles. *)
Lemma tile_count (k b : Z) :
  0 < b → 0 ≤ k →
  (if k * b =? 0 then 0 else Z.max k 1) = k.
Proof.
  intros Hb Hk.
  destruct (Z.eqb_spec (k * b) 0) as [H0|H0]; nia.
Qed.

Section Aligned.
Context {H : Type} `{!StarpuData H}.
Variables (A : Matrix H) (a k b l : Z).
Hypothesis Hpart : is_partitioned A = true.
Hypothesis Hmb : 0 < nblockrows A.
Hypothesis Hnb : 0 < nblockcols A.
Hypothesis Ha : 0 ≤ a.
Hypothesis Hk : 0 ≤ k.
Hypothesis Hb : 0 ≤ b.
Hypothesis Hl : 0 ≤ l.
Hypothesis Hrows : (a + k) * nblockrows A < 2 ^ 32.
Hypothesis Hcols : (b + l) * nblockcols A < 2 ^ 32.
Hypothesis Hnx : a + k ≤ nx A.
Hypothesis Hny : b + l ≤ ny A.

(** The view that an aligned slice returns. *)
Lemma slice_aligned_view :
  slice A (a * nblockrows A, (a + k) * nblockrows A)
          (b * nblockcols A, (b + l) * nblockcols A)
  = View (MkMatrix (handle A) (u32 (ix A + a)) (u32 (iy A + b)) k l).
Proof.
  unfold slice. cbn [fst snd].
  set (mb := nblockrows A) in *. set (nb := nblockcols A) in *.
  replace ((a + k) * mb - a * mb) with (k * mb) by lia.
  replace ((b + l) * nb - b * nb) with (l * nb) by lia.
  rewrite (u32_small (k * mb)), (u32_small (l * nb)) by nia.
  destruct (Z.eqb_spec mb 0) as [|_]; [lia|].
  destruct (Z.eqb_spec nb 0) as [|_]; [lia|].
  rewrite !Z_mod_mult, !Z.div_mul by lia. simpl.
  rewrite !tile_count by lia.
  unfold get_tiles. rewrite Hpart. simpl.
  rewrite (u32_small (a + k)), (u32_small (b + l)) by nia.
  destruct (Z.leb_spec (a + k) (nx A)) as [_|]; [|lia].
  destruct (Z.leb_spec (b + l) (ny A)) as [_|]; [|lia].
  reflexivity.
Qed.

(** X13: a slice on tile boundaries (rows [a*mb, (a + k)*mb), columns
    [b*nb, (b + l)*nb), inside the window of a partitioned matrix) passes
    the checks and is the window of [k] by [l] tiles that starts [a] tiles
    down and [b] tiles right; the entry [(i, j)] of the slice is in the same
    tile, at the same position, as the entry [(a*mb + i, b*nb + j)] of the
    matrix. *)
Theorem slice_aligned (i j : Z) :
  ∃ B, slice A (a * nblockrows A, (a + k) * nblockrows A)
               (b * nblockcols A, (b + l) * nblockcols A) = View B
       ∧ (nx B, ny B) = (k, l)
       ∧ tile_position B i j
         = tile_position A (a * nblockrows A + i) (b * nblockcols A + j).
Proof.
  eexists. split; [exact slice_aligned_view|]. split; [reflexivity|].
  unfold tile_position, nblockrows, nblockcols, is_partitioned,
    get_tile_handle. simpl.
  fold (is_partitioned A). fold (nblockrows A). fold (nblockcols A).
  set (mb := nblockrows A) in *. set (nb := nblockcols A) in *.
  destruct (Z.eqb_spec mb 0) as [|_]; [lia|].
  destruct (Z.eqb_spec nb 0) as [|_]; [lia|]. simpl.
  rewrite Hpart, !u32_add_l.
  rewrite (Z.add_comm (a * mb) i), (Z.add_comm (b * nb) j).
  rewrite !Z.div_add, !Z_mod_plus_full by lia.
  change (is_partitioned _) with (is_partitioned A). rewrite Hpart.
  do 3 f_equal; f_equal; lia.
Qed.
End Aligned.

Section LastRow.
Context {H : Type} `{!StarpuData H}.
Variables (A : Matrix H) (NX mb b l : Z).
Hypothesis HNXdef : starpu_data_get_nb_children (handle A) = NX.
Hypothesis Hmbdef :
  starpu_matrix_get_nx (starpu_data_get_child (handle A) 0) = mb.
Hypothesis HNX : 2 ≤ NX.
Hypothesis Hmb : 2 ≤ mb.
Hypothesis Hlast :
  starpu_matrix_get_nx (starpu_data_get_child (handle A) (NX - 1)) = 1.
Hypothesis Hix : ix A = 0.
Hypothesis Hnx : nx A = NX.
Hypothesis Hfit : (NX - 1) * mb + 1 < 2 ^ 32.
Hypothesis Hnb : 0 < nblockcols A.
Hypothesis Hb : 0 ≤ b.
Hypothesis Hl : 0 ≤ l.
Hypothesis Hcols : (b + l) * nblockcols A < 2 ^ 32.
Hypothesis Hny : b + l ≤ ny A.

(** X14: when the last row block of a partitioned matrix holds one row and
    the others [mb >= 2], the slice of all the rows [0, A.nrows())] passes
    the checks (by the clause [(nrows - 1) % mb == 0]) and has one row
    fewer than the matrix: it is given [nrows / mb] row blocks, which
    leaves the last block out. *)
Theorem slice_of_all_rows_loses_the_last :
  ∃ B, nrows A = (NX - 1) * mb + 1
       ∧ slice A (0, nrows A)
                 (b * nblockcols A, (b + l) * nblockcols A) = View B
       ∧ nrows B = nrows A - 1.
Proof.
  assert (is_partitioned A = true) as Hpart.
  { unfold is_partitioned. rewrite HNXdef. apply Z.ltb_lt. lia. }
  assert (nblockrows A = mb) as Hmbr.
  { unfold nblockrows. rewrite Hpart. exact Hmbdef. }
  assert (NX < 2 ^ 32) as HNX32 by nia.
  assert (nrows A = (NX - 1) * mb + 1) as Hrows.
  { unfold nrows. rewrite HNXdef, Hmbdef, (u32_small NX) by lia.
    destruct (Z.leb_spec NX 1) as [|_]; [lia|].
    rewrite Hix, Hnx, Z.add_0_l, (u32_small NX) by lia.
    destruct (Z.ltb_spec NX NX) as [|_]; [lia|].
    rewrite (u32_small (NX - 1)) by lia. rewrite Hlast.
    rewrite (u32_small ((NX - 1) * mb)) by nia.
    apply u32_small. nia. }
  eexists. split; [exact Hrows|].
  assert (((NX - 1) * mb + 1) / mb = NX - 1) as Hdiv.
  { rewrite Z.add_comm, Z.div_add by lia. rewrite Z.div_small by lia. lia. }
  assert (((NX - 1) * mb + 1) mod mb = 1) as Hmod.
  { rewrite Z.add_comm, Z_mod_plus_full. apply Z.mod_small. lia. }
  unfold slice. cbn [fst snd]. rewrite Hmbr, Hrows.
  set (nb := nblockcols A) in *.
  replace ((b + l) * nb - b * nb) with (l * nb) by lia.
  rewrite Z.sub_0_r.
  rewrite (u32_small ((NX - 1) * mb + 1)), (u32_small (l * nb)) by nia.
  replace ((NX - 1) * mb + 1 - 1) with ((NX - 1) * mb) by lia.
  rewrite (u32_small ((NX - 1) * mb)) by nia.
  destruct (Z.eqb_spec mb 0) as [|_]; [lia|].
  destruct (Z.eqb_spec nb 0) as [|_]; [lia|].
  rewrite Zmod_0_l, Hmod, Hdiv, !Z_mod_mult, !Z.eqb_refl.
  rewrite !Z.div_mul, Z.div_0_l by lia.
  rewrite tile_count by lia.
  destruct (Z.eqb_spec ((NX - 1) * mb + 1) 0) as [|_]; [nia|].
  destruct (Z.eqb_spec 1 0) as [|_]; [lia|].
  rewrite Z.max_l by lia. cbn [negb andb orb].
  unfold get_tiles. rewrite Hpart, Hnx. cbn [negb].
  rewrite Z.add_0_l, (u32_small (NX - 1)), (u32_small (b + l)) by nia.
  destruct (Z.leb_spec (NX - 1) NX) as [_|]; [|lia].
  destruct (Z.leb_spec (b + l) (ny A)) as [_|]; [|lia].
  cbn [negb]. split; [reflexivity|].
  unfold nrows. cbn [ix nx handle].
  rewrite HNXdef, Hmbdef, (u32_small NX) by lia.
  destruct (Z.leb_spec NX 1) as [|_]; [lia|].
  rewrite Hix, !Z.add_0_l, (u32_small (NX - 1)) by lia.
  destruct (Z.ltb_spec (NX - 1) NX) as [_|]; [|lia].
  rewrite u32_small by nia. lia.
Qed.
End LastRow.

Section Vectors.
Context {H : Type} `{!StarpuData H}.
Variable A : Matrix H.

Lemma u32_succ_sub (j : Z) : u32 (u32 (j + 1) - j) = 1.
Proof.
  rewrite u32_sub_l. replace (j + 1 - j) with 1 by lia. reflexivity.
Qed.

(** X15: with tiles of two or more columns, [col(A, j)] fails a
    [tlapack_check] for every column [j] but the last of the matrix: a
    single column is accepted only when the tiles are one column wide (or
    the column is the last one, alone in its tile). *)
Theorem col_needs_unit_tiles (j : Z) :
  2 ≤ nblockcols A → nblockrows A ≠ 0 → u32 (j + 1) ≠ ncols A →
  col A j = CheckFailed.
Proof.
  intros Hwide Hother Hlast.
  unfold col, slice. cbn [fst snd]. rewrite u32_succ_sub.
  destruct (Z.eqb_spec (nblockrows A) 0) as [|_]; [lia|].
  rewrite Zmod_0_l. simpl.
  destruct (Z.eqb_spec (nblockcols A) 0) as [|_]; [lia|].
  destruct (negb (j mod nblockcols A =? 0)); [reflexivity|].
  destruct (negb _); [reflexivity|].
  rewrite (Z.mod_small 1) by lia.
  destruct (Z.eqb_spec (u32 (j + 1)) (ncols A)) as [|_]; [lia|].
  reflexivity.
Qed.

(** X16: with row blocks of two or more rows, [row(A, i)] fails a
    [tlapack_check] for every row [i] but the last of the matrix. *)
Theorem row_needs_unit_tiles (i : Z) :
  2 ≤ nblockrows A → nblockcols A ≠ 0 → u32 (i + 1) ≠ nrows A →
  row A i = CheckFailed.
Proof.
  intros Hwide Hother Hlast.
  unfold row, slice. cbn [fst snd]. rewrite u32_succ_sub.
  destruct (Z.eqb_spec (nblockrows A) 0) as [|_]; [lia|].
  destruct (negb (i mod nblockrows A =? 0)); [reflexivity|].
  destruct (Z.eqb_spec (nblockcols A) 0) as [|_]; [lia|].
  rewrite Zmod_0_l. simpl.
  rewrite (Z.mod_small 1) by lia.
  destruct (Z.eqb_spec (u32 (i + 1)) (nrows A)) as [|_]; [lia|].
  reflexivity.
Qed.
End Vectors.

(** X17: [to_string] gives the five operations five different names, none
    of them the name of the fall-through [return]. *)
Theorem to_string_injective (v w : Operation) :
  (to_string v = to_string w → v = w) ∧ to_string v ≠ "unknown"%string.
Proof. split; [destruct v, w|destruct v]; simpl; congruence. Qed.
End StarpuViews.

(** ** Runs on binary64 *)

Module Runs.
Import Float64 Inputs.
Open Scope float_scope.

(** Witness of C5: on [d_slow], [e_slow0] the 120th pass is the one that
    deflates the last 2x2 block. *)
Lemma budget_check_precedes_convergence_witness :
  ∃ s, after_passes false false 120 (State d_slow e_slow0 [] [] 0 4) = Some s
       ∧ st_istop s = 0%nat
       ∧ svd_qr false false Upper d_slow e_slow0 [] []
           = Ok (st_istop s, (st_d s, st_e s, st_U s, st_Vt s)).
Proof.
  eexists. split; [vm_compute; reflexivity|]. split; [reflexivity|].
  refine (proj1 (budget_check_precedes_convergence false false Upper
                   d_slow e_slow0 [] [] d_slow e_slow0 [] _ _ _ _ _)).
  - discriminate.
  - reflexivity.
  - vm_compute. reflexivity.
  - vm_compute. lia.
Defined.

(** C3 at the failing input: the routine returns 0, the success status, but
    [d] was neither made positive nor sorted: its last entry is still
    [-2^-30]. *)
Lemma svd_qr_returns_0_without_postprocessing :
  ∃ d', svd_qr false false Upper d_slow e_slow0 [] []
          = Ok (0%nat, (d', [0; 0; 0], [], []))
        ∧ d' !! 3%nat = Some (-0x1p-30)
        ∧ PrimFloat.ltb (-0x1p-30) 0 = true
        ∧ sorted_nonneg d' = false.
Proof.
  eexists. split; [vm_compute; reflexivity|].
  split; [reflexivity|]. split; vm_compute; reflexivity.
Qed.

(** C4 at the failing input: the 120th pass finds [e[0]] negligible and
    solves the 2x2 block [1, 3), so the whole matrix has deflated
    ([istop = 1], [e] all zero), and the routine still returns the failure
    status 1. *)
Lemma svd_qr_reports_failure_after_convergence :
  ∃ s, after_passes false false 120 (State d_slow e_slow1 [] [] 0 4) = Some s
       ∧ st_istop s = 1%nat
       ∧ st_e s = [0; 0; 0]
       ∧ svd_qr false false Upper d_slow e_slow1 [] []
           = Ok (1%nat, (st_d s, st_e s, [], [])).
Proof.
  eexists. split; [vm_compute; reflexivity|].
  repeat split; vm_compute; reflexivity.
Qed.

(** C1 at the failing input: after the first pass the block is [0, 3), and
    the shift is taken from [(d[2], e[2], d[3])], not from the trailing 2x2
    block [(d[1], e[1], d[2])] of the active block; the two give different
    shifts. *)
Lemma shift_block_is_off_by_one :
  ∃ s, loop_body false false (State d_slow e_slow0 [] [] 0 4) = Ok s
       ∧ (st_istart s, st_istop s) = (0%nat, 3%nat)
       ∧ shift_block (st_d s) (st_e s) (st_istop s) = Ok (1, 0, -0x1p-30)
       ∧ (st_d s !! 1%nat, st_e s !! 1%nat, st_d s !! 2%nat)
           = (Some 1, Some 0.203125, Some 1)
       ∧ compute_shift s = Ok 0
       ∧ PrimFloat.ltb 0.5 (singularvalues22 1 0.203125 1).1 = true.
Proof.
  eexists. split; [vm_compute; reflexivity|].
  repeat split; vm_compute; reflexivity.
Qed.

(** Witness of C2: a 3x3 matrix with no negligible off-diagonal. *)
Lemma shift_reads_past_the_end_witness :
  shift_block [1; 2; 3] [1; 1] 3 = OutOfBounds
  ∧ svd_qr false false Upper [1; 2; 3] [1; 1] [] [] = OutOfBounds.
Proof.
  refine (proj2 (proj2 (shift_reads_past_the_end false false Upper
                          [1; 2; 3] [1; 1] [] [] [1; 2; 3] [1; 1] [] _ _ _ _))).
  - simpl. lia.
  - reflexivity.
  - reflexivity.
  - intros i Hi. simpl in Hi.
    destruct i as [|[|[|i]]]; [lia| | |lia]; eexists _, _;
      (split; [reflexivity|split; [reflexivity|vm_compute; reflexivity]]).
Defined.

(** Witness of C6: the scan of the block [0, 4) passes [e[2]] and stops at
    [e[1]]. *)
Lemma find_active_block_first_negligible_witness :
  ∃ e', find_active_block 3 (State [4; 3; 2; 1] [1; 0x1p-70; 1] [] [] 0 4)
          = Ok (State [4; 3; 2; 1] e' [] [] 2 4)
        ∧ e' !! 1%nat = Some 0
        ∧ ∀ j, j ≠ 1%nat → e' !! j = [1; 0x1p-70; 1] !! j.
Proof.
  refine (find_active_block_first_negligible
            (State [4; 3; 2; 1] [1; 0x1p-70; 1] [] [] 0 4) 2 0x1p-70 2
            _ _ _ _ _).
  - simpl. lia.
  - reflexivity.
  - reflexivity.
  - vm_compute. reflexivity.
  - intros j Hj. simpl in Hj. assert (j = 3%nat) as -> by lia.
    eexists _, _.
    split; [reflexivity|split; [reflexivity|vm_compute; reflexivity]].
Defined.

(** Witness of C9: the diagonal matrix [diag(3, -1, 2)] with identity [U]
    and [Vt], and a negative zero among the off-diagonals; the entries of
    [d] are ordinary numbers, and the reference [iamax] meets its contract
    on them. *)
Lemma diagonal_input_witness :
  svd_qr true true Upper d_diag [0; -0] I3 I3
    = post_process true true (length d_diag) d_diag
        (replicate (length [0; -0]) zero) I3 I3
  ∧ ∃ sw, svd_qr true true Upper d_diag [0; -0] I3 I3
          = Ok (0%nat, (apply_swaps sw (abs <$> d_diag),
                    replicate (length [0; -0]) zero,
                    apply_swaps sw <$> I3,
                    apply_swaps sw (negate_rows d_diag I3)))
        ∧ apply_swaps sw (abs <$> d_diag) ≡ₚ abs <$> d_diag
        ∧ descending (apply_swaps sw (abs <$> d_diag)).
Proof.
  apply (diagonal_input true true d_diag [0; -0] I3 I3).
  - reflexivity.
  - apply Forall_forall. repeat constructor.
  - apply Forall_forall. repeat constructor.
  - apply Forall_forall. repeat constructor.
  - apply Forall_forall. repeat constructor.
  - intros l. apply (iamax_ref_on [3; 1; 2]).
    + repeat constructor; intros; vm_compute in *; congruence.
    + repeat constructor; intros; vm_compute in *; congruence.
    + repeat constructor.
    + repeat constructor.
  - intros _. repeat constructor.
  - intros _. simpl. lia.
Defined.

(** Where C9 needs its conditions on [d].  A negative zero on the diagonal
    stays negative ([-0 < 0] is false), so [d] on exit is not the list of the
    absolute values in either order; and a NaN on the diagonal is never
    negligible ([0 <= tol * NaN] is false), so no singular value splits off:
    on [diag(1, NaN, NaN)] the first pass goes on to the shift of a QR sweep,
    whose reads leave the arrays. *)
Lemma diagonal_input_needs_ordinary_numbers :
  svd_qr false false Upper [1; -0] [0] [] []
  = Ok (0%nat, ([1; -0], [0], [], []))
  ∧ abs <$> [1; -0] = [1; 0]
  ∧ [1; -0] ≠ [1; 0]
  ∧ [1; -0] ≠ [0; 1]
  ∧ svd_qr false false Upper [1; nan; nan] [0; 0] [] [] = OutOfBounds.
Proof.
  split; [vm_compute; reflexivity|]. split; [reflexivity|].
  split.
  { intros H.
    apply (f_equal (λ l, get_sign (default 0 (l !! 1%nat)))) in H.
    vm_compute in H. discriminate. }
  split.
  { intros H.
    apply (f_equal (λ l, PrimFloat.eqb (default 0 (l !! 0%nat)) 1)) in H.
    vm_compute in H. discriminate. }
  vm_compute. reflexivity.
Qed.

(** The same run, evaluated: [d] becomes [3, 2, 1], the second row of [Vt]
    is negated, and columns (rows) 1 and 2 of [U] ([Vt]) are exchanged. *)
Lemma diagonal_input_run :
  svd_qr true true Upper d_diag e_diag I3 I3
  = Ok (0%nat, ([3; 2; 1], [0; 0], [[1; 0; 0]; [0; 0; 1]; [0; 1; 0]],
                [[1; 0; 0]; [0; 0; 1]; [-0; -1; -0]])).
Proof. vm_compute. reflexivity. Qed.

(** The 2x2 case of the 3-4-5 triangle: singular values 5 and 0, status 0. *)
Lemma known_2x2_run :
  svd_qr false false Upper d_345 e_345 [] [] = Ok (0%nat, ([5; 0], [0], [], [])).
Proof. vm_compute. reflexivity. Qed.

(** The normal exit on the 3-4-5 matrix: its hypotheses hold there. *)
Lemma known_2x2_normal_exit :
  ∃ d' U' Vt',
    svd_qr false false Upper d_345 e_345 [] [] = Ok (0%nat, (d', [0], U', Vt'))
    ∧ descending d'
    ∧ (∀ x, x ∈ d' → leb zero x = true)
    ∧ (∀ x, x ∈ [0] → x = zero).
Proof.
  apply (svd_qr_normal_exit false false Upper d_345 e_345 [] []
           d_345 e_345 [] (State [5; 0] [0] [] [] 0 0)).
  - reflexivity.
  - reflexivity.
  - vm_compute. reflexivity.
  - apply Forall_forall. repeat constructor.
  - apply Forall_forall. repeat constructor.
  - intros l. apply (iamax_ref_on [5; 0]).
    + repeat constructor; intros; vm_compute in *; congruence.
    + repeat constructor; intros; vm_compute in *; congruence.
    + repeat constructor.
    + repeat constructor.
  - discriminate.
  - discriminate.
Defined.

(** The budget runs out on a slower block: the status is [istop = 3]. *)
Lemma non_convergence_run :
  ∃ d' e', svd_qr false false Upper d_slow [0.125; 0.125; 0] [] []
           = Ok (3%nat, (d', e', [], []))
         ∧ e' !! 0%nat ≠ Some 0.
Proof.
  eexists _, _. split; [vm_compute; reflexivity|]. vm_compute. congruence.
Qed.

(** Witness of C7: after two passes the active block is [1, 4), past a
    sweep, and [e[0]] is zero. *)
Lemma boundary_invariant_witness :
  ∃ s, after_passes false false 2 (State d_split e_split [] [] 0 5) = Some s
       ∧ (st_istart s, st_istop s) = (1%nat, 4%nat)
       ∧ boundary s.
Proof.
  eexists. split; [vm_compute; reflexivity|]. split; [reflexivity|].
  refine (proj1 (boundary_invariant false false d_split e_split [] [] 5 2
                   _ _)).
  vm_compute. reflexivity.
Defined.
End Runs.

(** ** Instances of the further properties *)

Module Checks.
Import Float64 Inputs.
Open Scope float_scope.

Lemma svd_qr_status_bounds_nonzero_offdiagonals_witness :
  ∃ d' e',
    svd_qr false false Upper d_slow [0.125; 0.125; 0] [] []
    = Ok (3%nat, (d', e', [], []))
    ∧ (3 ≤ length d_slow)%nat
    ∧ (∀ j x, (3 - 1 ≤ j)%nat → e' !! j = Some x → x = zero)
    ∧ length d' = length d_slow.
Proof.
  eexists _, _. split; [vm_compute; reflexivity|].
  apply (svd_qr_status_bounds_nonzero_offdiagonals false false Upper d_slow
           [0.125; 0.125; 0] _ _ [] [] [] [] 3).
  - reflexivity.
  - vm_compute. reflexivity.
Defined.

Lemma svd_qr_nonzero_status_spent_budget_witness :
  ∃ d' e' d1 e1 U1 s,
    svd_qr false false Upper d_slow [0.15625; 0.15625; 0] [] []
    = Ok (3%nat, (d', e', [], []))
    ∧ lower_to_upper false Upper (length d_slow) d_slow [0.15625; 0.15625; 0] []
      = Ok (d1, e1, U1)
    ∧ after_passes false false (30 * length d_slow)
        (State d1 e1 U1 [] 0 (length d_slow)) = Some s
    ∧ st_istop s = 3%nat
    ∧ (d', e', [], []) = (st_d s, st_e s, st_U s, st_Vt s).
Proof.
  eexists _, _.
  assert (svd_qr false false Upper d_slow [0.15625; 0.15625; 0] [] []
          = Ok (3%nat, (_, _, [], []))) as Hrun by (vm_compute; reflexivity).
  destruct (svd_qr_nonzero_status_spent_budget false false Upper d_slow
              [0.15625; 0.15625; 0] _ _ [] [] [] [] 3 Hrun)
    as (d1 & e1 & U1 & s & H); [discriminate|].
  exists d1, e1, U1, s. split; [exact Hrun|exact H].
Defined.

Lemma svd_qr_out_of_bounds_iff_witness :
  ∃ d1 e1 U1,
    lower_to_upper false Lower (length [1; 2; 3]) [1; 2; 3] [1; 1] []
    = Ok (d1, e1, U1)
    ∧ (svd_qr false true Lower [1; 2; 3] [1; 1] [] I3 = OutOfBounds
       ↔ tail_coupled d1 e1 = true).
Proof.
  apply (svd_qr_out_of_bounds_iff false true Lower [1; 2; 3] [1; 1] [] I3).
  - reflexivity.
  - split; [discriminate|]. intros _. simpl. lia.
  - apply iamax_ref_lt.
Defined.

Lemma svd_qr_two_by_two_witness :
  ∃ d' U' Vt',
    svd_qr true true Lower [3; 1] [4] [[1; 0]; [0; 1]] [[1; 0]; [0; 1]]
    = Ok (0%nat, (d', [zero], U', Vt')).
Proof.
  apply (svd_qr_two_by_two true true Lower 3 1 4).
  - split; intros _; [repeat constructor|simpl; lia].
  - apply iamax_ref_lt.
Defined.

Lemma svd_qr_one_by_one_witness :
  svd_qr false true Upper [-2] [] [] [[1]]
  = Ok (0%nat, ([made_positive (-2)], [], [],
                negate_rows [-2] [[1]])).
Proof.
  apply (svd_qr_one_by_one false true Upper (-2) [] [] [[1]]).
  discriminate.
Defined.
End Checks.

(** ** Runs of [her2] on the Gaussian integers *)

Module Her2Runs.
Import Gauss Her2Inputs.
Open Scope Z_scope.

Lemma x_back_strided : strided x_back (-2) 2 x_vec.
Proof.
  split; [reflexivity|]. intros [|[|i]] Hi; [reflexivity|reflexivity|].
  simpl in Hi. lia.
Qed.

Lemma y_vec_strided : strided y_vec 1 2 y_vec.
Proof. apply strided_unit. reflexivity. Qed.

Lemma her2_rank2_update_witness :
  her2 ColMajor Upper 2 alpha_1 x_back (-2) y_vec 1 A_pad 3%nat
  = Ran (Ok (if ceqb alpha_1 czero then A_pad
             else her2_ref (effective_uplo ColMajor Upper) alpha_1
                    x_vec y_vec 3 A_pad)).
Proof.
  apply (her2_rank2_update ColMajor Upper 2 alpha_1 x_back (-2) y_vec 1
           A_pad 3 x_vec y_vec).
  - discriminate.
  - discriminate.
  - simpl. lia.
  - exact x_back_strided.
  - exact y_vec_strided.
  - simpl. lia.
  - reflexivity.
  - reflexivity.
  - reflexivity.
Defined.

Lemma her2_strides_select_witness :
  her2 ColMajor Lower 2 alpha_1 x_back (-2) y_vec 1 A_pad 3%nat
  = her2 ColMajor Lower 2 alpha_1 x_vec 1 y_vec 1 A_pad 3%nat.
Proof.
  apply (her2_strides_select ColMajor Lower 2 alpha_1 x_back (-2) y_vec 1
           A_pad 3 x_vec y_vec).
  - discriminate.
  - discriminate.
  - simpl. lia.
  - exact x_back_strided.
  - exact y_vec_strided.
  - simpl. lia.
  - reflexivity.
  - reflexivity.
  - reflexivity.
Defined.

Lemma her2_frame_witness :
  ∃ A', her2 ColMajor Upper 2 alpha_1 x_back (-2) y_vec 1 A_pad 3%nat
        = Ran (Ok A')
        ∧ length A' = length A_pad ∧ A' !! 1%nat = A_pad !! 1%nat.
Proof.
  apply (her2_frame ColMajor Upper 2 alpha_1 x_back (-2) y_vec 1
           A_pad 3 x_vec y_vec).
  - discriminate.
  - discriminate.
  - simpl. lia.
  - exact x_back_strided.
  - exact y_vec_strided.
  - simpl. lia.
  - reflexivity.
  - reflexivity.
  - reflexivity.
  - simpl. intros (_ & _ & [H|H]); discriminate.
Defined.

Lemma her2_diagonal_real_witness :
  ∃ A' r, her2 RowMajor Lower 2 alpha_1 x_back (-2) y_vec 1 A_pad 3%nat
          = Ran (Ok A')
          ∧ A' !! (1 + 1 * 3)%nat = Some (of_real r).
Proof.
  apply (her2_diagonal_real RowMajor Lower 2 alpha_1 x_back (-2) y_vec 1
           A_pad 3 x_vec y_vec).
  - discriminate.
  - discriminate.
  - simpl. lia.
  - exact x_back_strided.
  - exact y_vec_strided.
  - simpl. lia.
  - reflexivity.
  - reflexivity.
  - reflexivity.
  - reflexivity.
  - simpl. lia.
Defined.

Lemma her2_layout_entries_witness :
  (∃ A1, her2 ColMajor Upper 2 alpha_1 x_back (-2) y_vec 1 A_pad 3%nat
         = Ran (Ok A1)
         ∧ A1 !! (0 + 1 * 3)%nat
           = Some (cadd (2, 1)
                     (rank2_entry alpha_1 (1, 1) (3, 0) (2, 0) (0, -1))))
  ∧ (∃ A2, her2 RowMajor Upper 2 alpha_1 x_back (-2) y_vec 1 A_pad 3%nat
           = Ran (Ok A2)
           ∧ A2 !! (0 * 3 + 1)%nat
             = Some (cadd (7, 7)
                       (rank2_entry alpha_1 (2, 0) (0, -1) (1, 1) (3, 0)))).
Proof.
  apply (her2_layout_entries Upper 2 alpha_1 x_back (-2) y_vec 1
           A_pad 3 x_vec y_vec).
  - discriminate.
  - discriminate.
  - simpl. lia.
  - exact x_back_strided.
  - exact y_vec_strided.
  - simpl. lia.
  - reflexivity.
  - reflexivity.
  - reflexivity.
  - reflexivity.
  - simpl. lia.
  - simpl. lia.
  - reflexivity.
  - reflexivity.
  - reflexivity.
  - reflexivity.
  - reflexivity.
  - reflexivity.
  - reflexivity.
Defined.

(** The two layouts on one array, with [alpha = i]: the column-major call
    adds [-1 - 7i] at position 3, the row-major call adds [-1 + 7i] at
    position 1. *)
Lemma her2_layouts_run :
  her2 RowMajor Upper 2 alpha_1 x_vec 1 y_vec 1 A_pad 3%nat
  = Ran (Ok [(-5, 0); (6, 14); (9, 9); (2, 1); (0, 0); (8, 8)])
  ∧ her2 ColMajor Upper 2 alpha_1 x_vec 1 y_vec 1 A_pad 3%nat
    = Ran (Ok [(-5, 0); (7, 7); (9, 9); (1, -6); (0, 0); (8, 8)])
  ∧ rank2_entry alpha_1 (1, 1) (3, 0) (2, 0) (0, -1) = (-1, -7)
  ∧ rank2_entry alpha_1 (2, 0) (0, -1) (1, 1) (3, 0) = (-1, 7).
Proof. vm_compute. auto. Qed.
End Her2Runs.

(** ** Runs of the views on a grid *)

Module StarpuRuns.
Import Starpu Grid StarpuViews.
Open Scope Z_scope.

Lemma slice_aligned_witness :
  ∃ B, slice (whole grid_9x4)
         (1 * nblockrows (whole grid_9x4), (1 + 1) * nblockrows (whole grid_9x4))
         (0 * nblockcols (whole grid_9x4), (0 + 2) * nblockcols (whole grid_9x4))
       = View B
       ∧ (nx B, ny B) = (1, 2)
       ∧ tile_position B 1 3
         = tile_position (whole grid_9x4)
             (1 * nblockrows (whole grid_9x4) + 1)
             (0 * nblockcols (whole grid_9x4) + 3).
Proof.
  apply (slice_aligned (whole grid_9x4) 1 1 0 2);
    try reflexivity; vm_compute; congruence.
Defined.

Lemma slice_of_all_rows_loses_the_last_witness :
  ∃ B, nrows (whole grid_9x4) = (3 - 1) * 4 + 1
       ∧ slice (whole grid_9x4) (0, nrows (whole grid_9x4))
           (0 * nblockcols (whole grid_9x4),
            (0 + 2) * nblockcols (whole grid_9x4)) = View B
       ∧ nrows B = nrows (whole grid_9x4) - 1.
Proof.
  apply (slice_of_all_rows_loses_the_last (whole grid_9x4) 3 4 0 2);
    try reflexivity; vm_compute; congruence.
Defined.

Lemma col_needs_unit_tiles_witness : col (whole grid_9x4) 0 = CheckFailed.
Proof.
  apply (col_needs_unit_tiles (whole grid_9x4) 0);
    vm_compute; congruence.
Defined.

Lemma row_needs_unit_tiles_witness : row (whole grid_9x4) 4 = CheckFailed.
Proof.
  apply (row_needs_unit_tiles (whole grid_9x4) 4);
    vm_compute; congruence.
Defined.

(** The matrix of 9 rows in blocks of 4: the view of all its rows has 8. *)
Lemma all_rows_run :
  nrows (whole grid_9x4) = 9
  ∧ ∃ B, rows (whole grid_9x4) (0, 9) = View B ∧ nrows B = 8.
Proof. split; [reflexivity|]. eexists. split; reflexivity. Qed.
End StarpuRuns.
